(** * Shallow embedding of V8's paged-space helpers (src/heap/spaces.cc) and of
    parts of the Maglev graph builder (src/maglev/maglev-graph-builder.cc).

    Conventions.
    - Machine integers are values of [Z] with the wrap-around written out:
      [Address], [size_t] and [uint64_t] are 64-bit unsigned (x64 build),
      [int] is 32-bit signed.
    - [DCHECK]s are compiled out of release builds.  Every function is
      embedded with its release behaviour, and its [DCHECK]s are collected
      in a boolean companion named [<function>_dchecks].  [CHECK]s are fatal
      in every build and make the embedded function return [None].
    - Pointers to heap-allocated C++ objects are addresses ([nat]); a null
      pointer is [None]. *)

From Stdlib Require Import ZArith Lia Bool List PrimFloat.
From stdpp Require Import base numbers option list gmap sets.

Local Open Scope Z_scope.
Set Warnings "-clear-no-such-hyp,-register-all".

(* ===================================================================== *)
(** * src/heap/spaces.cc *)
(* ===================================================================== *)

Module Spaces.

(** ** Machine arithmetic *)

Definition kMaxSizeT : Z := 2 ^ 64.
Definition kMinInt : Z := - 2 ^ 31.
Definition kMaxInt : Z := 2 ^ 31 - 1.

(** Conversion to [size_t] / [Address] / [uint64_t]. *)
Definition to_size_t (x : Z) : Z := x mod kMaxSizeT.

(** [static_cast<int>(x)]: reduction modulo 2^32 into the signed range. *)
Definition to_int (x : Z) : Z := (x + 2 ^ 31) mod 2 ^ 32 - 2 ^ 31.

(** ** Linear allocation area and allocation counter *)

Record LinearAllocationArea := mkLinearAllocationArea {
  lab_start : Z;
  lab_top : Z;
  lab_limit : Z
}.

Record AllocationCounter := mkAllocationCounter {
  IsActive : bool;
  NextBytes : Z
}.

Record SpaceWithLinearArea := mkSpaceWithLinearArea {
  (** [heap()->inline_allocation_disabled()] *)
  inline_allocation_disabled : bool;
  SupportsAllocationObserver : bool;
  allocation_counter_ : AllocationCounter;
  allocation_info_ : LinearAllocationArea;
  (** Alignment used by [RoundSizeDownToObjectAlignment] for this space. *)
  object_alignment : Z
}.

(** Modelled from the spec: [RoundSizeDownToObjectAlignment] is declared in
    the space headers, which are not part of the sources at hand.  The spec
    calls it [round_down]: the largest multiple of the object alignment that
    does not exceed its [int] argument. *)
Definition RoundSizeDownToObjectAlignment (s : SpaceWithLinearArea) (size : Z) : Z :=
  to_int (size - size mod object_alignment s).

(** [SpaceWithLinearArea::ComputeLimit] *)
Definition ComputeLimit (s : SpaceWithLinearArea) (start end_ min_size : Z) : Z :=
  if inline_allocation_disabled s then
    (* Fit the requested area exactly. *)
    to_size_t (start + min_size)
  else if SupportsAllocationObserver s && IsActive (allocation_counter_ s) then
    let step := NextBytes (allocation_counter_ s) in
    let rounded_step :=
      to_size_t (RoundSizeDownToObjectAlignment s (to_int (to_size_t (step - 1)))) in
    let step_end := to_size_t (to_size_t start + Z.max min_size rounded_step) in
    let new_end := Z.min step_end (to_size_t end_) in
    to_size_t new_end
  else
    (* The entire node can be used as the linear allocation area. *)
    end_.

(** The [DCHECK]s of [ComputeLimit]. *)
Definition ComputeLimit_dchecks (s : SpaceWithLinearArea) (start end_ min_size : Z) : bool :=
  (min_size <=? to_size_t (end_ - start)) &&
  (if inline_allocation_disabled s then true
   else if SupportsAllocationObserver s && IsActive (allocation_counter_ s) then
     (lab_start (allocation_info_ s) =? lab_top (allocation_info_ s)) &&
     negb (NextBytes (allocation_counter_ s) =? 0)
   else true).

(** Values that inhabit the C++ types of the arguments. *)
Definition is_size_t (x : Z) : Prop := 0 <= x < kMaxSizeT.

(** The limit the specification describes, over unbounded integers. *)
Definition spec_limit (s : SpaceWithLinearArea) (start end_ min_size : Z) : Z :=
  if inline_allocation_disabled s then start + min_size
  else if SupportsAllocationObserver s && IsActive (allocation_counter_ s) then
    let step := NextBytes (allocation_counter_ s) in
    let rounded := (step - 1) - (step - 1) mod object_alignment s in
    Z.min (start + Z.max min_size rounded) end_
  else end_.

(** The observer branch of [ComputeLimit] stays within the machine ranges:
    [next_step - 1] fits an [int] and the candidate end does not leave the
    address range. *)
Definition observer_step_in_range (s : SpaceWithLinearArea) (start min_size : Z) : Prop :=
  inline_allocation_disabled s = false ->
  SupportsAllocationObserver s && IsActive (allocation_counter_ s) = true ->
  let step := NextBytes (allocation_counter_ s) in
  0 < step /\ step - 1 <= kMaxInt /\
  start + Z.max min_size ((step - 1) - (step - 1) mod object_alignment s) < kMaxSizeT.

(** [start + next_step], rounded up to the object alignment: the most
    generous reading of "start + next_step rounded to alignment". *)
Definition step_bound_rounded (s : SpaceWithLinearArea) (start : Z) : Z :=
  let x := start + NextBytes (allocation_counter_ s) in
  x + (- x) mod object_alignment s.

(** ** [SpaceWithLinearArea::InvokeAllocationObservers] *)


(** What one call did: nothing (observers unsupported or paused, or the step
    not reached), or a step, for which a filler of [size_in_bytes] is created
    at [soon_object] before the counter runs the observers with the object
    size and the allocation size. *)
Inductive ObserverAction :=
| NoStep
| Step (filler_address filler_size object_size allocation_size : Z).

Definition InvokeAllocationObservers (s : SpaceWithLinearArea)
    (soon_object size_in_bytes aligned_size_in_bytes allocation_size : Z)
    : ObserverAction :=
  if negb (SupportsAllocationObserver s) || negb (IsActive (allocation_counter_ s))
  then NoStep
  else if NextBytes (allocation_counter_ s) <=? allocation_size then
    Step soon_object (to_int size_in_bytes) size_in_bytes allocation_size
  else NoStep.


(** ** Free-list categories of a page *)

(** The C++ heap, as far as [new] and [delete] of free-list categories and
    of the category array are concerned. *)
Record CppHeap := mkCppHeap {
  next_address : nat;
  live_categories : gset nat;
  live_arrays : gset nat
}.

Definition new_FreeListCategory (h : CppHeap) : nat * CppHeap :=
  (next_address h,
   {| next_address := S (next_address h);
      live_categories := {[ next_address h ]} ∪ live_categories h;
      live_arrays := live_arrays h |}).

Definition delete_FreeListCategory (p : nat) (h : CppHeap) : CppHeap :=
  {| next_address := next_address h;
     live_categories := live_categories h ∖ {[ p ]};
     live_arrays := live_arrays h |}.

(** [new FreeListCategory*[n]()]: a value-initialised array of [n] nulls. *)
Record CategoryArray := mkCategoryArray {
  array_address : nat;
  array_slots : list (option nat)
}.

Definition new_CategoryArray (n : nat) (h : CppHeap) : CategoryArray * CppHeap :=
  ({| array_address := next_address h; array_slots := replicate n None |},
   {| next_address := S (next_address h);
      live_categories := live_categories h;
      live_arrays := {[ next_address h ]} ∪ live_arrays h |}).

Definition delete_CategoryArray (a : CategoryArray) (h : CppHeap) : CppHeap :=
  {| next_address := next_address h;
     live_categories := live_categories h;
     live_arrays := live_arrays h ∖ {[ array_address a ]} |}.

(** [owner()->free_list()] *)
Record FreeList := mkFreeList {
  number_of_categories : nat;
  last_category : Z
}.

(** ** Remembered sets of a page *)

(** A slot set records slot addresses; each address is present or absent. *)
Definition SlotSet := gset Z.

Record Page := mkPage {
  free_list : FreeList;
  categories_ : option CategoryArray;
  (** [slot_set_[OLD_TO_NEW]] *)
  slot_set_old_to_new : option SlotSet;
  sweeping_slot_set_ : option SlotSet
}.

Definition set_categories (p : Page) (c : option CategoryArray) : Page :=
  {| free_list := free_list p; categories_ := c;
     slot_set_old_to_new := slot_set_old_to_new p;
     sweeping_slot_set_ := sweeping_slot_set_ p |}.

Definition set_slot_sets (p : Page) (live sweeping : option SlotSet) : Page :=
  {| free_list := free_list p; categories_ := categories_ p;
     slot_set_old_to_new := live; sweeping_slot_set_ := sweeping |}.

Section FreeListCategories.

(** [kFirstCategory] is declared in the free-list header, which is not part
    of the sources at hand. *)
Variable kFirstCategory : Z.

(** The indices [kFirstCategory, ..., last_category] visited by the loops. *)
Definition category_range (p : Page) : list Z :=
  seqZ kFirstCategory (last_category (free_list p) - kFirstCategory + 1).

(** Body of the loop of [AllocateFreeListCategories].  An index outside the
    array is undefined behaviour: [None]. *)
Fixpoint allocate_categories (indices : list Z) (h : CppHeap)
    (slots : list (option nat)) : option (CppHeap * list (option nat)) :=
  match indices with
  | [] => Some (h, slots)
  | i :: rest =>
      if bool_decide (0 <= i < Z.of_nat (length slots)) then
        let '(c, h') := new_FreeListCategory h in
        allocate_categories rest h' (<[Z.to_nat i := Some c]> slots)
      else None
  end.

(** [Page::AllocateFreeListCategories] *)
Definition AllocateFreeListCategories (p : Page) (h : CppHeap) : option (Page * CppHeap) :=
  let '(arr, h1) := new_CategoryArray (number_of_categories (free_list p)) h in
  match allocate_categories (category_range p) h1 (array_slots arr) with
  | Some (h2, slots) =>
      Some (set_categories p (Some {| array_address := array_address arr;
                                     array_slots := slots |}), h2)
  | None => None
  end.

Definition AllocateFreeListCategories_dchecks (p : Page) : bool :=
  bool_decide (categories_ p = None).

(** Body of the loop of [ReleaseFreeListCategories]. *)
Fixpoint release_categories (indices : list Z) (h : CppHeap)
    (slots : list (option nat)) : option (CppHeap * list (option nat)) :=
  match indices with
  | [] => Some (h, slots)
  | i :: rest =>
      if bool_decide (0 <= i < Z.of_nat (length slots)) then
        match slots !! Z.to_nat i with
        | Some (Some c) =>
            release_categories rest (delete_FreeListCategory c h)
                               (<[Z.to_nat i := None]> slots)
        | _ => release_categories rest h slots
        end
      else None
  end.

(** [Page::ReleaseFreeListCategories] *)
Definition ReleaseFreeListCategories (p : Page) (h : CppHeap) : option (Page * CppHeap) :=
  match categories_ p with
  | Some arr =>
      match release_categories (category_range p) h (array_slots arr) with
      | Some (h1, slots) =>
          Some (set_categories p None,
                delete_CategoryArray {| array_address := array_address arr;
                                        array_slots := slots |} h1)
      | None => None
      end
  | None => Some (p, h)
  end.

(** The category array is absent, or every index of the range is populated. *)
Definition categories_invariant (p : Page) : Prop :=
  categories_ p = None \/
  exists arr, categories_ p = Some arr /\
    forall i, kFirstCategory <= i <= last_category (free_list p) ->
      exists c, array_slots arr !! Z.to_nat i = Some (Some c).

End FreeListCategories.

(** Addresses handed out by [new] are fresh when every live object lies below
    the allocation cursor. *)
Definition heap_wf (h : CppHeap) : Prop :=
  (forall a, a ∈ live_categories h -> (a < next_address h)%nat) /\
  (forall a, a ∈ live_arrays h -> (a < next_address h)%nat).

(** Modelled from the spec: [RememberedSet<OLD_TO_NEW>::Insert] lives in the
    remembered-set header, which is not part of the sources at hand.  New
    entries are recorded in the live slot set, which is allocated on demand
    (after the move for sweeping, writes "land in a fresh, empty live set"). *)
Definition RememberedSet_Insert (p : Page) (slot : Z) : Page :=
  match slot_set_old_to_new p with
  | Some set => set_slot_sets p (Some ({[ slot ]} ∪ set)) (sweeping_slot_set_ p)
  | None => set_slot_sets p (Some {[ slot ]}) (sweeping_slot_set_ p)
  end.

(** Modelled from the spec: [RememberedSetSweeping::Insert], the same
    operation on the sweeping slot set. *)
Definition RememberedSetSweeping_Insert (p : Page) (slot : Z) : Page :=
  match sweeping_slot_set_ p with
  | Some set => set_slot_sets p (slot_set_old_to_new p) (Some ({[ slot ]} ∪ set))
  | None => set_slot_sets p (slot_set_old_to_new p) (Some {[ slot ]})
  end.

(** Modelled from the spec: [RememberedSet<OLD_TO_NEW>::Iterate] visits every
    recorded slot of the live set once; the callback of
    [MergeOldToNewRememberedSets] inserts the slot into the sweeping set and
    answers [KEEP_SLOT], so the live set itself is left as it was. *)
Definition RememberedSet_Iterate_visits (p : Page) : list Z :=
  match slot_set_old_to_new p with
  | Some set => elements set
  | None => []
  end.

Definition merge_callback_iterate (p : Page) : Page :=
  foldl RememberedSetSweeping_Insert p (RememberedSet_Iterate_visits p).

(** Modelled from the spec: [ReleaseSlotSet<OLD_TO_NEW>] frees the live slot
    set and nulls the pointer. *)
Definition ReleaseSlotSet_old_to_new (p : Page) : Page :=
  set_slot_sets p None (sweeping_slot_set_ p).

(** [Page::MoveOldToNewRememberedSetForSweeping]; [CHECK_NULL] is fatal. *)
Definition MoveOldToNewRememberedSetForSweeping (p : Page) : option Page :=
  match sweeping_slot_set_ p with
  | Some _ => None
  | None => Some (set_slot_sets p None (slot_set_old_to_new p))
  end.

(** [Page::MergeOldToNewRememberedSets] *)
Definition MergeOldToNewRememberedSets (p : Page) : option Page :=
  match sweeping_slot_set_ p with
  | None => Some p
  | Some _ =>
      let p1 :=
        match slot_set_old_to_new p with
        | Some _ => ReleaseSlotSet_old_to_new (merge_callback_iterate p)
        | None => p
        end in
      match slot_set_old_to_new p1 with
      | Some _ => None (* CHECK_NULL(slot_set_[OLD_TO_NEW]) *)
      | None => Some (set_slot_sets p1 (sweeping_slot_set_ p1) None)
      end
  end.

(** The slots recorded in a (possibly absent) slot set. *)
Definition recorded (set : option SlotSet) : gset Z :=
  match set with Some s => s | None => ∅ end.

(** A mutator phase: a sequence of old-to-new insertions. *)
Definition insert_all (p : Page) (slots : list Z) : Page :=
  foldl RememberedSet_Insert p slots.

(** The protocol around a sweep. *)
Definition sweep_protocol (p : Page) (pre during : list Z) : option Page :=
  match MoveOldToNewRememberedSetForSweeping (insert_all p pre) with
  | Some p1 => MergeOldToNewRememberedSets (insert_all p1 during)
  | None => None
  end.

(** ** Example spaces *)

(** A new-space-like area with an active observer whose next step is 2 GB + 1:
    [next_step - 1] no longer fits the [int] parameter of the rounding helper. *)
Definition space_with_large_step : SpaceWithLinearArea :=
  {| inline_allocation_disabled := false;
     SupportsAllocationObserver := true;
     allocation_counter_ := {| IsActive := true; NextBytes := 2147483649 |};
     allocation_info_ := {| lab_start := 4294967296; lab_top := 4294967296;
                            lab_limit := 4294967296 |};
     object_alignment := 8 |}.

(** An area of 4 KB with an observer step of 1 KB. *)
Definition space_with_small_step : SpaceWithLinearArea :=
  {| inline_allocation_disabled := false;
     SupportsAllocationObserver := true;
     allocation_counter_ := {| IsActive := true; NextBytes := 1024 |};
     allocation_info_ := {| lab_start := 4096; lab_top := 4096; lab_limit := 4096 |};
     object_alignment := 8 |}.

(** A request of 256 bytes while the next observer step is 16 bytes away. *)
Definition space_with_step_16 : SpaceWithLinearArea :=
  {| inline_allocation_disabled := false;
     SupportsAllocationObserver := true;
     allocation_counter_ := {| IsActive := true; NextBytes := 16 |};
     allocation_info_ := {| lab_start := 4096; lab_top := 4096; lab_limit := 4096 |};
     object_alignment := 8 |}.

End Spaces.

(* ===================================================================== *)
(** * src/heap/spaces.cc: allocation buffers, observers, black areas *)
(* ===================================================================== *)

Module SpacesAreas.

Import Spaces.

Definition kNullAddress : Z := 0.

(** [static_cast<intptr_t>(x)]: reduction modulo 2^64 into the signed range. *)
Definition to_intptr (x : Z) : Z := (x + 2 ^ 63) mod 2 ^ 64 - 2 ^ 63.

(** Modelled from the spec: the linear allocation area is "a (top, limit)
    pair"; its two-argument constructor and [Reset] belong to the area's
    header, which is not part of the sources at hand, and start the area at
    its top. *)
Definition LinearAllocationArea_new (top limit : Z) : LinearAllocationArea :=
  {| lab_start := top; lab_top := top; lab_limit := limit |}.

(** Modelled from the spec: [MoveStartToTop], of the same header. *)
Definition MoveStartToTop (a : LinearAllocationArea) : LinearAllocationArea :=
  {| lab_start := lab_top a; lab_top := lab_top a; lab_limit := lab_limit a |}.

(** ** [LocalAllocationBuffer] *)

(** One call of [Heap::CreateFillerObjectAt]: the heap, the address and the
    [int] size. *)
Record Filler := mkFiller {
  filler_heap : nat;
  filler_address : Z;
  filler_size : Z
}.

Record LocalAllocationBuffer := mkLocalAllocationBuffer {
  heap_ : nat;
  lab_allocation_info_ : LinearAllocationArea
}.

(** Modelled from the spec: [IsValid] is declared with the class; a buffer is
    valid when its area has a top. *)
Definition IsValid (b : LocalAllocationBuffer) : bool :=
  negb (lab_top (lab_allocation_info_ b) =? kNullAddress).

(** [LocalAllocationBuffer::MakeIterable], on the log of fillers written. *)
Definition MakeIterable (b : LocalAllocationBuffer) (log : list Filler) : list Filler :=
  if IsValid b then
    log ++ [mkFiller (heap_ b) (lab_top (lab_allocation_info_ b))
              (to_int (to_size_t (lab_limit (lab_allocation_info_ b) -
                                  lab_top (lab_allocation_info_ b))))]
  else log.

(** [LocalAllocationBuffer::CloseAndMakeIterable]: the returned area, the
    buffer and the log afterwards. *)
Definition CloseAndMakeIterable (b : LocalAllocationBuffer) (log : list Filler)
    : LinearAllocationArea * LocalAllocationBuffer * list Filler :=
  if IsValid b then
    let log' := MakeIterable b log in
    let old_info := lab_allocation_info_ b in
    (old_info,
     mkLocalAllocationBuffer (heap_ b) (LinearAllocationArea_new kNullAddress kNullAddress),
     log')
  else (LinearAllocationArea_new kNullAddress kNullAddress, b, log).

(** The constructor from a heap and an area. *)
Definition LocalAllocationBuffer_new (heap : nat) (allocation_info : LinearAllocationArea)
    (log : list Filler) : LocalAllocationBuffer * list Filler :=
  let b := mkLocalAllocationBuffer heap allocation_info in
  (b, MakeIterable b log).

(** The move assignment [this = std::move (other)]: the two buffers
    afterwards. *)
Definition move_assign (this other : LocalAllocationBuffer)
    : LocalAllocationBuffer * LocalAllocationBuffer :=
  (mkLocalAllocationBuffer (heap_ other) (lab_allocation_info_ other),
   mkLocalAllocationBuffer (heap_ other)
     (LinearAllocationArea_new kNullAddress kNullAddress)).

(** ** [SpaceWithLinearArea::AdvanceAllocationObservers] *)

Definition with_counter_and_area (s : SpaceWithLinearArea)
    (counter : AllocationCounter) (area : LinearAllocationArea) : SpaceWithLinearArea :=
  {| inline_allocation_disabled := inline_allocation_disabled s;
     SupportsAllocationObserver := SupportsAllocationObserver s;
     allocation_counter_ := counter;
     allocation_info_ := area;
     object_alignment := object_alignment s |}.

Section AllocationObservers.

(** [AllocationCounter::AdvanceAllocationObservers] is defined with the
    counter, outside the sources at hand. *)
Variable counter_advance : AllocationCounter -> Z -> AllocationCounter.

Definition AdvanceAllocationObservers (s : SpaceWithLinearArea) : SpaceWithLinearArea :=
  if negb (lab_top (allocation_info_ s) =? 0) then
    with_counter_and_area s
      (counter_advance (allocation_counter_ s)
         (to_size_t (lab_top (allocation_info_ s) - lab_start (allocation_info_ s))))
      (MoveStartToTop (allocation_info_ s))
  else s.

End AllocationObservers.

(** ** Black areas *)

(** The marking state of a page: the mark bits that are set, and the
    live-byte counter ([intptr_t]). *)
Record MarkingState := mkMarkingState {
  bitmap : gset Z;
  live_byte_count_ : Z
}.

(** Modelled from the spec: [Bitmap::SetRange] and [Bitmap::ClearRange]
    "set/clear a contiguous mark-bit range", from the first index up to, not
    including, the second. *)
Definition SetRange (bits : gset Z) (start_index end_index : Z) : gset Z :=
  bits ∪ list_to_set (seqZ start_index (end_index - start_index)).

Definition ClearRange (bits : gset Z) (start_index end_index : Z) : gset Z :=
  bits ∖ list_to_set (seqZ start_index (end_index - start_index)).

(** Modelled from the spec: [IncrementLiveBytes] "adjusts the page's
    live-byte counter" by its [intptr_t] argument. *)
Definition IncrementLiveBytes (m : MarkingState) (by_ : Z) : MarkingState :=
  {| bitmap := bitmap m; live_byte_count_ := to_intptr (live_byte_count_ m + by_) |}.

Section BlackAreas.

(** [AddressToMarkbitIndex] is declared with the memory chunk, outside the
    sources at hand. *)
Variable AddressToMarkbitIndex : Z -> Z.

(** [Page::CreateBlackArea] *)
Definition CreateBlackArea (m : MarkingState) (start end_ : Z) : MarkingState :=
  IncrementLiveBytes
    {| bitmap := SetRange (bitmap m) (AddressToMarkbitIndex start)
                          (AddressToMarkbitIndex end_);
       live_byte_count_ := live_byte_count_ m |}
    (to_intptr (to_size_t (end_ - start))).

(** [Page::DestroyBlackArea] *)
Definition DestroyBlackArea (m : MarkingState) (start end_ : Z) : MarkingState :=
  IncrementLiveBytes
    {| bitmap := ClearRange (bitmap m) (AddressToMarkbitIndex start)
                            (AddressToMarkbitIndex end_);
       live_byte_count_ := live_byte_count_ m |}
    (to_intptr (- to_intptr (to_size_t (end_ - start)))).

Definition CreateBlackArea_dchecks (start end_ : Z) : bool := start <? end_.

End BlackAreas.

(** ** Example buffers *)

(** A buffer over [4096, 8192) of heap 1 with 1 KB used. *)
Definition example_buffer : LocalAllocationBuffer :=
  mkLocalAllocationBuffer 1 {| lab_start := 4096; lab_top := 5120; lab_limit := 8192 |}.

(** A space whose area has 512 bytes allocated since the last step. *)
Definition space_with_unaccounted_bytes : SpaceWithLinearArea :=
  {| inline_allocation_disabled := false;
     SupportsAllocationObserver := true;
     allocation_counter_ := {| IsActive := true; NextBytes := 1024 |};
     allocation_info_ := {| lab_start := 4096; lab_top := 4608; lab_limit := 8192 |};
     object_alignment := 8 |}.

End SpacesAreas.

(* ===================================================================== *)
(** * src/maglev/maglev-graph-builder.cc: control flow and inlining *)
(* ===================================================================== *)

Module Maglev.

(** ** Bytecode *)

(** [interpreter::Register].  Its index and whether it names a parameter are
    both given by the register header. *)
Record Register := mkRegister {
  reg_index : Z;
  is_parameter : bool
}.

(** [interpreter::Bytecode], with the bytecodes the embedded functions
    distinguish; every other bytecode is a [kOtherBytecode]. *)
Inductive Bytecode :=
| kMov | kToBoolean | kLogicalNot | kToBooleanLogicalNot
| kStar
  (** [Star0] ... [Star15], carrying [Register::FromShortStar] of the bytecode *)
| kShortStar (store_reg : Register)
| kReturn
| kJumpIfFalse | kJumpIfFalseConstant
| kJumpIfToBooleanFalse | kJumpIfToBooleanFalseConstant
| kJumpIfTrue | kJumpIfTrueConstant
| kJumpIfToBooleanTrue | kJumpIfToBooleanTrueConstant
| kJumpLoop
| kCreateMappedArguments | kCreateUnmappedArguments | kCreateRestParameter
| kIllegal
| kOtherBytecode (id : nat).

(** One position of a [BytecodeArrayIterator]. *)
Record Instruction := mkInstruction {
  current_offset : Z;
  current_bytecode : Bytecode;
  (** [GetRegisterOperand(0)] *)
  register_operand0 : Register
}.

(** ** Inlining decision *)

Inductive Inlineability := kIsInlineable | kNotInlineable (reason : nat).

Record BytecodeArrayRef := mkBytecodeArrayRef {
  incoming_new_target_or_generator_register_is_valid : bool;
  handler_table_size : Z;
  bytecode_length : Z;
  bytecodes : list Instruction
}.

Record SharedFunctionInfoRef := mkSharedFunctionInfoRef {
  sfi_object : nat;
  GetInlineability : Inlineability;
  GetBytecodeArray : BytecodeArrayRef
}.

(** [SharedFunctionInfoRef::equals]: the two refs denote the same object. *)
Definition sfi_equals (a b : SharedFunctionInfoRef) : bool :=
  Nat.eqb (sfi_object a) (sfi_object b).

Record V8Flags := mkV8Flags {
  max_maglev_inlined_bytecode_size_cumulative : Z;
  min_maglev_inlining_frequency : float;
  max_maglev_inlined_bytecode_size_small : Z;
  max_maglev_inlined_bytecode_size : Z;
  max_maglev_inline_depth : Z
}.

(** ** Merge states *)

Record MergePointInterpreterFrameState := mkMergeState {
  is_exception_handler : bool;
  is_loop : bool;
  predecessor_count : Z;
  predecessors_so_far : Z
}.

(** Modelled from the spec: the merge-state class lives in the frame-state
    header, which is not part of the sources at hand.  A dead predecessor
    decrements the expected-predecessor count; a loop merge whose count
    reaches zero is unreachable and gets discarded. *)
Definition MergeDead (m : MergePointInterpreterFrameState) : MergePointInterpreterFrameState :=
  {| is_exception_handler := is_exception_handler m; is_loop := is_loop m;
     predecessor_count := predecessor_count m - 1;
     predecessors_so_far := predecessors_so_far m |}.

Definition is_unreachable_loop (m : MergePointInterpreterFrameState) : bool :=
  is_loop m && (predecessor_count m =? 0).

(** Modelled from the spec: a further predecessor arrives at a merge state. *)
Definition Merge (m : MergePointInterpreterFrameState) : MergePointInterpreterFrameState :=
  {| is_exception_handler := is_exception_handler m; is_loop := is_loop m;
     predecessor_count := predecessor_count m;
     predecessors_so_far := predecessors_so_far m + 1 |}.

(** Modelled from the spec: fresh merge states for a catch block, and for a
    loop header with the given number of predecessors. *)
Definition NewForCatchBlock : MergePointInterpreterFrameState :=
  {| is_exception_handler := true; is_loop := false;
     predecessor_count := 0; predecessors_so_far := 0 |}.

Definition NewForLoop (predecessors : Z) : MergePointInterpreterFrameState :=
  {| is_exception_handler := false; is_loop := true;
     predecessor_count := predecessors; predecessors_so_far := 0 |}.

(** ** The builder: control-flow state *)

(** The fields of [MaglevGraphBuilder] read or written by the functions
    embedded in this part.  [predecessors_] and [merge_states_] are arrays
    indexed by bytecode offset; an absent key of [merge_states_] is a null
    entry, an absent key of [predecessors_] reads as zero. *)
Inductive MaglevGraphBuilder := mkMaglevGraphBuilder {
  parent_ : option MaglevGraphBuilder;
  flags : V8Flags;
  (** [compilation_unit_->shared_function_info()] and [inlining_depth()] *)
  unit_shared_function_info : SharedFunctionInfoRef;
  inlining_depth : Z;
  (** [graph()->total_inlined_bytecode_size()] *)
  total_inlined_bytecode_size : Z;
  (** [iterator_]: the index of the current bytecode in [bytecode()] *)
  iterator_ : nat;
  merge_states_ : gmap Z MergePointInterpreterFrameState;
  predecessors_ : gmap Z Z;
  decremented_predecessor_offsets_ : list Z;
  in_peeled_iteration_ : bool;
  allow_loop_peeling_ : bool;
  (** [current_block_ != nullptr] *)
  current_block_ : bool;
  next_handler_table_index_ : nat;
  (** [HandlerTable::GetRangeStart], entry by entry *)
  handler_table_range_starts : list Z;
  (** [GetOutLivenessFor(offset)->RegisterIsLive(index)] *)
  out_liveness : Z -> Z -> bool;
  (** [inlined_new_target_->Is<RootConstant>()] *)
  inlined_new_target_is_root_constant : bool
}.

(** [is_inline()]: the builder has a parent (see the constructor, which reads
    [parent_] under [is_inline()]). *)
Definition is_inline (b : MaglevGraphBuilder) : bool :=
  match parent_ b with Some _ => true | None => false end.

(** [IsOffsetAMergePoint]: a merge state is registered at the offset. *)
Definition IsOffsetAMergePoint (b : MaglevGraphBuilder) (offset : Z) : bool :=
  match merge_states_ b !! offset with Some _ => true | None => false end.

(** [bytecode()]: the bytecode array of the compilation unit. *)
Definition bytecode (b : MaglevGraphBuilder) : BytecodeArrayRef :=
  GetBytecodeArray (unit_shared_function_info b).

(** [inline_exit_offset()]: "the offset one past the end of the bytecode". *)
Definition inline_exit_offset (b : MaglevGraphBuilder) : Z :=
  bytecode_length (bytecode b).

(** [NumPredecessors] *)
Definition NumPredecessors (b : MaglevGraphBuilder) (offset : Z) : Z :=
  predecessors_ b !!! offset.

(** The fields that the embedded functions assign. *)
Definition with_graph_total (b : MaglevGraphBuilder) (total : Z) : MaglevGraphBuilder :=
  mkMaglevGraphBuilder (parent_ b) (flags b) (unit_shared_function_info b)
    (inlining_depth b) total (iterator_ b) (merge_states_ b) (predecessors_ b)
    (decremented_predecessor_offsets_ b) (in_peeled_iteration_ b)
    (allow_loop_peeling_ b) (current_block_ b) (next_handler_table_index_ b)
    (handler_table_range_starts b) (out_liveness b)
    (inlined_new_target_is_root_constant b).

Definition with_merge_bookkeeping (b : MaglevGraphBuilder)
    (merge_states : gmap Z MergePointInterpreterFrameState)
    (predecessors : gmap Z Z) (decremented : list Z) : MaglevGraphBuilder :=
  mkMaglevGraphBuilder (parent_ b) (flags b) (unit_shared_function_info b)
    (inlining_depth b) (total_inlined_bytecode_size b) (iterator_ b)
    merge_states predecessors decremented (in_peeled_iteration_ b)
    (allow_loop_peeling_ b) (current_block_ b) (next_handler_table_index_ b)
    (handler_table_range_starts b) (out_liveness b)
    (inlined_new_target_is_root_constant b).

Definition with_position (b : MaglevGraphBuilder) (iterator : nat)
    (in_peeled allow_peeling block : bool) (handler_index : nat) : MaglevGraphBuilder :=
  mkMaglevGraphBuilder (parent_ b) (flags b) (unit_shared_function_info b)
    (inlining_depth b) (total_inlined_bytecode_size b) iterator
    (merge_states_ b) (predecessors_ b) (decremented_predecessor_offsets_ b)
    in_peeled allow_peeling block handler_index
    (handler_table_range_starts b) (out_liveness b)
    (inlined_new_target_is_root_constant b).

(** ** [MaglevGraphBuilder::ShouldInlineCall] *)

(** The loop over the callee's bytecodes that rejects arguments objects. *)
Fixpoint uses_arguments_object (it : list Instruction) : bool :=
  match it with
  | [] => false
  | i :: rest =>
      match current_bytecode i with
      | kCreateMappedArguments | kCreateUnmappedArguments | kCreateRestParameter => true
      | _ => uses_arguments_object rest
      end
  end.

(** Returns the answer and the builder, whose graph total grows only when
    the call is accepted by the last test. *)
Definition ShouldInlineCall (b : MaglevGraphBuilder) (shared : SharedFunctionInfoRef)
    (feedback_vector : option nat) (call_frequency : float)
    : bool * MaglevGraphBuilder :=
  if max_maglev_inlined_bytecode_size_cumulative (flags b) <? total_inlined_bytecode_size b
  then (false, b)
  else match feedback_vector with
  | None => (false, b)
  | Some _ =>
  if sfi_equals (unit_shared_function_info b) shared then (false, b)
  else match GetInlineability shared with
  | kNotInlineable _ => (false, b)
  | kIsInlineable =>
  let bytecode := GetBytecodeArray shared in
  if incoming_new_target_or_generator_register_is_valid bytecode then (false, b)
  else if 0 <? handler_table_size bytecode then (false, b)
  else if uses_arguments_object (bytecodes bytecode) then (false, b)
  else if PrimFloat.ltb call_frequency (min_maglev_inlining_frequency (flags b))
  then (false, b)
  else if bytecode_length bytecode <? max_maglev_inlined_bytecode_size_small (flags b)
  then (true, b)
  else if max_maglev_inlined_bytecode_size (flags b) <? bytecode_length bytecode
  then (false, b)
  else if max_maglev_inline_depth (flags b) <? inlining_depth b then (false, b)
  else (true, with_graph_total b (total_inlined_bytecode_size b + bytecode_length bytecode))
  end end.

(** The rejections that precede the size tests of [ShouldInlineCall]. *)
Definition passes_earlier_checks (b : MaglevGraphBuilder) (shared : SharedFunctionInfoRef)
    (feedback_vector : option nat) (call_frequency : float) : Prop :=
  total_inlined_bytecode_size b <= max_maglev_inlined_bytecode_size_cumulative (flags b) /\
  feedback_vector <> None /\
  sfi_equals (unit_shared_function_info b) shared = false /\
  GetInlineability shared = kIsInlineable /\
  incoming_new_target_or_generator_register_is_valid (GetBytecodeArray shared) = false /\
  handler_table_size (GetBytecodeArray shared) <= 0 /\
  uses_arguments_object (bytecodes (GetBytecodeArray shared)) = false /\
  PrimFloat.ltb call_frequency (min_maglev_inlining_frequency (flags b)) = false.

(** ** [MaglevGraphBuilder::TryFindNextBranch] *)

(** Modelled from the spec: [BytecodeArrayIterator::next_bytecode] is part of
    the iterator header, not of the sources at hand; the scan uses it to test
    that a [Return] "is the last bytecode in the inlined function": past the
    end of the array it answers [kIllegal]. *)
Definition next_bytecode (rest : list Instruction) : Bytecode :=
  match rest with
  | [] => kIllegal
  | i :: _ => current_bytecode i
  end.

Definition is_kIllegal (bc : Bytecode) : bool :=
  match bc with kIllegal => true | _ => false end.

(** The [for] loop of [TryFindNextBranch] over the copied iterator.
    [cross_return] is [None] when the builder is not inlining, and otherwise
    holds the answer of [parent_->TryFindNextBranch] for the incremented
    inline level. *)
Fixpoint scan_for_branch (b : MaglevGraphBuilder)
    (cross_return : option (option Z * nat))
    (it : list Instruction) (inline_level : nat) : option Z * nat :=
  match it with
  | [] => (None, inline_level)
  | i :: rest =>
      (* Bail out if there is a merge point before the next branch. *)
      if IsOffsetAMergePoint b (current_offset i) then (None, inline_level)
      else match current_bytecode i with
      | kMov | kToBoolean | kLogicalNot | kToBooleanLogicalNot =>
          scan_for_branch b cross_return rest inline_level
      | kStar =>
          let store_reg := register_operand0 i in
          if is_parameter store_reg ||
             out_liveness b (current_offset i) (reg_index store_reg)
          then (None, inline_level)
          else scan_for_branch b cross_return rest inline_level
      | kShortStar store_reg =>
          if is_parameter store_reg ||
             out_liveness b (current_offset i) (reg_index store_reg)
          then (None, inline_level)
          else scan_for_branch b cross_return rest inline_level
      | kReturn =>
          match cross_return with
          | None => (None, inline_level)
          | Some parent_answer =>
              if negb (inlined_new_target_is_root_constant b) then (None, inline_level)
              else if negb (is_kIllegal (next_bytecode rest)) ||
                      IsOffsetAMergePoint b (inline_exit_offset b)
              then (None, inline_level)
              else parent_answer
          end
      | kJumpIfFalse | kJumpIfFalseConstant
      | kJumpIfToBooleanFalse | kJumpIfToBooleanFalseConstant
      | kJumpIfTrue | kJumpIfTrueConstant
      | kJumpIfToBooleanTrue | kJumpIfToBooleanTrueConstant =>
          (Some (current_offset i), inline_level)
      | _ => (None, inline_level)
      end
  end.

(** The bytecodes the scan steps over, the stores it refuses, and the
    bytecodes it knows. *)
Definition stores_to_live_register (b : MaglevGraphBuilder) (i : Instruction) : bool :=
  match current_bytecode i with
  | kStar =>
      is_parameter (register_operand0 i) ||
      out_liveness b (current_offset i) (reg_index (register_operand0 i))
  | kShortStar store_reg =>
      is_parameter store_reg || out_liveness b (current_offset i) (reg_index store_reg)
  | _ => false
  end.

Definition is_conditional_branch (bc : Bytecode) : bool :=
  match bc with
  | kJumpIfFalse | kJumpIfFalseConstant
  | kJumpIfToBooleanFalse | kJumpIfToBooleanFalseConstant
  | kJumpIfTrue | kJumpIfTrueConstant
  | kJumpIfToBooleanTrue | kJumpIfToBooleanTrueConstant => true
  | _ => false
  end.

Definition is_supported_bytecode (bc : Bytecode) : bool :=
  match bc with
  | kMov | kToBoolean | kLogicalNot | kToBooleanLogicalNot
  | kStar | kShortStar _ | kReturn => true
  | _ => is_conditional_branch bc
  end.

Definition is_stepped_over (b : MaglevGraphBuilder) (i : Instruction) : bool :=
  negb (IsOffsetAMergePoint b (current_offset i)) &&
  match current_bytecode i with
  | kMov | kToBoolean | kLogicalNot | kToBooleanLogicalNot => true
  | kStar | kShortStar _ => negb (stores_to_live_register b i)
  | _ => false
  end.

(** The bytecodes after the current one: the copy of the iterator, advanced
    once. *)
Definition after_current (b : MaglevGraphBuilder) : list Instruction :=
  drop (S (iterator_ b)) (bytecodes (bytecode b)).

(** Returns the branch offset, if any, and the final value of
    [*inline_level]. *)
Fixpoint TryFindNextBranch (b : MaglevGraphBuilder) (inline_level : nat)
    {struct b} : option Z * nat :=
  scan_for_branch b
    match parent_ b with
    | Some parent => Some (TryFindNextBranch parent (S inline_level))
    | None => None
    end
    (after_current b) inline_level.

(** ** Dead predecessors and [MaglevGraphBuilder::PeelLoop] *)

(** [MaglevGraphBuilder::MergeDeadIntoFrameState] *)
Definition MergeDeadIntoFrameState (b : MaglevGraphBuilder) (target : Z)
    : MaglevGraphBuilder :=
  let predecessors := <[target := NumPredecessors b target - 1]> (predecessors_ b) in
  let decremented :=
    if in_peeled_iteration_ b then target :: decremented_predecessor_offsets_ b
    else decremented_predecessor_offsets_ b in
  let merge_states :=
    match merge_states_ b !! target with
    | Some m =>
        (* If there already is a frame state, merge. *)
        let m' := MergeDead m in
        if is_unreachable_loop m' then delete target (merge_states_ b)
        else <[target := m']> (merge_states_ b)
    | None => merge_states_ b
    end in
  with_merge_bookkeeping b merge_states predecessors decremented.

(** [MaglevGraphBuilder::MergeDeadLoopIntoFrameState] *)
Definition MergeDeadLoopIntoFrameState (b : MaglevGraphBuilder) (target : Z)
    : MaglevGraphBuilder :=
  match merge_states_ b !! target with
  | None => b
  | Some m =>
      let predecessors := <[target := NumPredecessors b target - 1]> (predecessors_ b) in
      let decremented :=
        if in_peeled_iteration_ b then target :: decremented_predecessor_offsets_ b
        else decremented_predecessor_offsets_ b in
      let merge_states :=
        if is_unreachable_loop m then merge_states_ b
        else <[target := MergeDead m]> (merge_states_ b) in
      with_merge_bookkeeping b merge_states predecessors decremented
  end.

(** What [VisitSingleBytecode] contributes to the predecessor bookkeeping
    while it builds the peeled iteration: the calls to the two functions
    above, in order. *)
Inductive DeadMergeCall :=
| CallMergeDead (target : Z)
| CallMergeDeadLoop (target : Z).

Definition call_target (c : DeadMergeCall) : Z :=
  match c with CallMergeDead t | CallMergeDeadLoop t => t end.

Definition run_dead_merge (b : MaglevGraphBuilder) (c : DeadMergeCall) : MaglevGraphBuilder :=
  match c with
  | CallMergeDead t => MergeDeadIntoFrameState b t
  | CallMergeDeadLoop t => MergeDeadLoopIntoFrameState b t
  end.

(** "Reset predecessors as if the loop body had not been visited": the first
    [while] loop after the peeled pass.  The head of the list is [back()]. *)
Fixpoint reset_predecessors (current : Z) (decremented : list Z)
    (predecessors : gmap Z Z) : gmap Z Z :=
  match decremented with
  | [] => predecessors
  | back :: rest =>
      reset_predecessors current rest
        (if back <=? current
         then <[back := (predecessors !!! back) + 1]> predecessors
         else predecessors)
  end.

(** "Reset position in exception handler table to before the loop." *)
Fixpoint rewind_handler_table (range_starts : list Z) (loop_header : Z)
    (index : nat) : nat :=
  match index with
  | O => O
  | S i =>
      if (range_starts !!! i) <? loop_header then i
      else rewind_handler_table range_starts loop_header i
  end.

(** "Re-create catch handler merge states", one offset of the loop body. *)
Definition recreate_merge_state (merge_states : gmap Z MergePointInterpreterFrameState)
    (offset : Z) : gmap Z MergePointInterpreterFrameState :=
  match merge_states !! offset with
  | Some m =>
      if is_exception_handler m then <[offset := NewForCatchBlock]> merge_states
      else delete offset merge_states
  | None => merge_states
  end.

(** Index of the first [JumpLoop] at or after index [from]. *)
Fixpoint find_jump_loop (it : list Instruction) (from : nat) : option nat :=
  match it with
  | [] => None
  | i :: rest =>
      match from with
      | S from' => option_map S (find_jump_loop rest from')
      | O => match current_bytecode i with
             | kJumpLoop => Some O
             | _ => option_map S (find_jump_loop rest O)
             end
      end
  end.

Definition offset_at (b : MaglevGraphBuilder) (index : nat) : option Z :=
  option_map current_offset (bytecodes (bytecode b) !! index).

(** The state in which the peeled pass leaves the builder: the iterator is on
    the [JumpLoop], the dead merges of the pass have run with
    [in_peeled_iteration_] set, and the pass decided whether a block is still
    open. *)
Definition after_peeled_pass (b : MaglevGraphBuilder) (pass : list DeadMergeCall)
    (block_open : bool) (jump_loop : nat) : MaglevGraphBuilder :=
  let b1 := with_position b (iterator_ b) true false (current_block_ b)
                          (next_handler_table_index_ b) in
  let b2 := foldl run_dead_merge b1 pass in
  with_position b2 jump_loop false (allow_loop_peeling_ b2) block_open
                (next_handler_table_index_ b2).

(** [MaglevGraphBuilder::PeelLoop].  [None] when the iterator does not stand
    on a bytecode or no [JumpLoop] follows. *)
Definition PeelLoop (b : MaglevGraphBuilder) (pass : list DeadMergeCall)
    (block_open : bool) : option MaglevGraphBuilder :=
  match offset_at b (iterator_ b), find_jump_loop (bytecodes (bytecode b)) (iterator_ b) with
  | Some loop_header, Some jump_loop =>
      match offset_at b jump_loop with
      | Some current =>
          let b1 := after_peeled_pass b pass block_open jump_loop in
          (* Reset predecessors as if the loop body had not been visited. *)
          let predecessors :=
            reset_predecessors current (decremented_predecessor_offsets_ b1)
                               (predecessors_ b1) in
          let handler_index :=
            rewind_handler_table (handler_table_range_starts b1) loop_header
                                 (next_handler_table_index_ b1) in
          let merge_states :=
            foldl recreate_merge_state (merge_states_ b1)
                  (seqZ loop_header (current - loop_header + 1)) in
          let b2 :=
            if current_block_ b1 then
              with_position
                (with_merge_bookkeeping b1
                   (<[loop_header := Merge (NewForLoop 2)]> merge_states)
                   predecessors [])
                (iterator_ b) false (allow_loop_peeling_ b1) false handler_index
            else
              with_position
                (with_merge_bookkeeping b1
                   (delete loop_header merge_states)
                   (<[loop_header := 0]> predecessors) [])
                (iterator_ b) false (allow_loop_peeling_ b1) false handler_index in
          Some b2
      | None => None
      end
  | _, _ => None
  end.

Definition occurrences (offset : Z) (l : list Z) : Z :=
  Z.of_nat (length (filter (fun t => t = offset) l)).

(** The number of decrements the peeled pass recorded for an offset. *)
Definition decrements_of (b : MaglevGraphBuilder) (pass : list DeadMergeCall)
    (block_open : bool) (jump_loop : nat) (offset : Z) : Z :=
  occurrences offset
    (decremented_predecessor_offsets_ (after_peeled_pass b pass block_open jump_loop)).

(** ** Example builders *)

(** A three-bytecode callee, called from a builder that is already forty
    levels deep, far beyond the depth limit of one. *)
Definition small_callee : SharedFunctionInfoRef :=
  mkSharedFunctionInfoRef 7 kIsInlineable
    (mkBytecodeArrayRef false 0 3
       [mkInstruction 0 (kOtherBytecode 11) (mkRegister 0 false);
        mkInstruction 2 kReturn (mkRegister 0 false)]).

Definition top_level_function : SharedFunctionInfoRef :=
  mkSharedFunctionInfoRef 1 kIsInlineable
    (mkBytecodeArrayRef false 0 60
       [mkInstruction 10 (kOtherBytecode 3) (mkRegister 0 false);
        mkInstruction 20 (kOtherBytecode 4) (mkRegister 0 false);
        mkInstruction 40 kJumpLoop (mkRegister 0 false);
        mkInstruction 50 (kOtherBytecode 5) (mkRegister 0 false)]).

Definition default_flags : V8Flags :=
  mkV8Flags 920 0.5%float 27 460 1.

Definition deep_builder : MaglevGraphBuilder :=
  mkMaglevGraphBuilder None default_flags top_level_function 40 100 0
    ∅ ∅ [] false true true 0 [] (fun _ _ => false) true.

(** An inlined callee [Mov; Star r1; Return] whose caller continues with
    [Star r0; JumpIfToBooleanFalse] at offsets 14 and 16. *)
Definition fusing_caller : MaglevGraphBuilder :=
  mkMaglevGraphBuilder None default_flags
    (mkSharedFunctionInfoRef 1 kIsInlineable
       (mkBytecodeArrayRef false 0 20
          [mkInstruction 10 (kOtherBytecode 9) (mkRegister 0 false);
           mkInstruction 14 kStar (mkRegister 0 false);
           mkInstruction 16 kJumpIfToBooleanFalse (mkRegister 0 false)]))
    0 0 0 ∅ ∅ [] false true true 0 [] (fun _ _ => false) true.

Definition fusing_callee : MaglevGraphBuilder :=
  mkMaglevGraphBuilder (Some fusing_caller) default_flags
    (mkSharedFunctionInfoRef 2 kIsInlineable
       (mkBytecodeArrayRef false 0 7
          [mkInstruction 0 (kOtherBytecode 8) (mkRegister 0 false);
           mkInstruction 2 kMov (mkRegister 0 false);
           mkInstruction 4 (kShortStar (mkRegister 1 false)) (mkRegister 0 false);
           mkInstruction 6 kReturn (mkRegister 0 false)]))
    1 0 0 ∅ ∅ [] false true true 0 [] (fun _ _ => false) true.

(** A loop at offsets 10 to 40 with an exit target at offset 50; the peeled
    pass finds one dead edge into the body (offset 20) and one into the exit
    (offset 50). *)
Definition peeling_builder : MaglevGraphBuilder :=
  mkMaglevGraphBuilder None default_flags top_level_function 0 0 0
    ∅ (<[10 := 1]> (<[20 := 2]> (<[50 := 2]> ∅))) [] false true true 0 []
    (fun _ _ => false) true.

Definition peeled_pass_example : list DeadMergeCall :=
  [CallMergeDead 20; CallMergeDead 50].

End Maglev.

(* ===================================================================== *)
(** * src/maglev/maglev-graph-builder.cc: fused branches, context chains *)
(* ===================================================================== *)

Module JumpType.
Inductive t := kJumpIfTrue | kJumpIfFalse.
End JumpType.

Module MaglevBranches.

Import Maglev.

(** [MaglevGraphBuilder::NegateJumpType] *)
Definition NegateJumpType (jump_type : JumpType.t) : JumpType.t :=
  match jump_type with
  | JumpType.kJumpIfTrue => JumpType.kJumpIfFalse
  | JumpType.kJumpIfFalse => JumpType.kJumpIfTrue
  end.

Definition is_kJumpIfTrue (jump_type : JumpType.t) : bool :=
  match jump_type with JumpType.kJumpIfTrue => true | JumpType.kJumpIfFalse => false end.

Definition is_kJumpIfFalse (jump_type : JumpType.t) : bool :=
  match jump_type with JumpType.kJumpIfFalse => true | JumpType.kJumpIfTrue => false end.

(** ** [MaglevGraphBuilder::BuildFusedBranch] *)

(** Where the [for] loop of [BuildFusedBranch] stops: on a [Return], for
    which the parent takes over, on any bytecode it does not step over, or
    past the end of the bytecode array. *)
Inductive FusedScan :=
| AtReturn (flip : bool)
| AtOther (i : Instruction) (flip : bool)
| PastTheEnd.

(** "Evaluate Movs and LogicalNots between test and jump."  The register
    moves of [Mov] act on the interpreter frame, which is not part of this
    embedding. *)
Fixpoint fused_branch_scan (it : list Instruction) (flip : bool) : FusedScan :=
  match it with
  | [] => PastTheEnd
  | i :: rest =>
      match current_bytecode i with
      | kMov | kToBoolean => fused_branch_scan rest flip
      | kLogicalNot | kToBooleanLogicalNot => fused_branch_scan rest (negb flip)
      | kStar | kShortStar _ =>
          (* The target register is already known to be dead. *)
          fused_branch_scan rest flip
      | kReturn => AtReturn flip
      | _ => AtOther i flip
      end
  end.

(** The second [switch]: the jump type for the bytecode the loop stopped on;
    [None] is [UNREACHABLE()]. *)
Definition jump_type_for (bc : Bytecode) (flip : bool) : option JumpType.t :=
  match bc with
  | kJumpIfFalse | kJumpIfFalseConstant
  | kJumpIfToBooleanFalse | kJumpIfToBooleanFalseConstant =>
      Some (if flip then JumpType.kJumpIfTrue else JumpType.kJumpIfFalse)
  | kJumpIfTrue | kJumpIfTrueConstant
  | kJumpIfToBooleanTrue | kJumpIfToBooleanTrueConstant =>
      Some (if flip then JumpType.kJumpIfFalse else JumpType.kJumpIfTrue)
  | _ => None
  end.

(** What [BuildFusedBranch] decided when it finishes the block: the bytecode
    it branches on and its offset, the value of [inline_level] there, the
    jump type, and the boolean constants it puts into the accumulator for the
    jump target and for the fall-through. *)
Record FusedBranch := mkFusedBranch {
  fused_offset : Z;
  fused_bytecode : Bytecode;
  fused_inline_level : Z;
  fused_jump_type : JumpType.t;
  accumulator_in_jump_target : bool;
  accumulator_in_fallthrough : bool
}.

(** [BuildFusedBranch], as far as the walk over the bytecodes, the choice of
    the jump type and the accumulator constants go.  [None] stands for a run
    that reads past the bytecode array, dereferences a null [parent_] or
    reaches [UNREACHABLE()]. *)
Fixpoint BuildFusedBranch (b : MaglevGraphBuilder) (branch_offset inline_level : Z)
    (init_flip : bool) {struct b} : option FusedBranch :=
  match fused_branch_scan (after_current b) init_flip with
  | PastTheEnd => None
  | AtReturn flip =>
      match parent_ b with
      | Some parent => BuildFusedBranch parent branch_offset (inline_level - 1) flip
      | None => None
      end
  | AtOther i flip =>
      match jump_type_for (current_bytecode i) flip with
      | Some jump_type =>
          Some (mkFusedBranch (current_offset i) (current_bytecode i) inline_level jump_type
                  (xorb (is_kJumpIfTrue jump_type) flip)
                  (xorb (is_kJumpIfFalse jump_type) flip))
      | None => None
      end
  end.

(** The two [DCHECK]s at the jump. *)
Definition BuildFusedBranch_dchecks (branch_offset : Z) (r : FusedBranch) : bool :=
  (fused_inline_level r =? 0) && (fused_offset r =? branch_offset).

(** [TryBuildBranchFor]: the search, then the fused branch; [None] when no
    branch was found (the function answers [false]). *)
Definition TryBuildBranchFor (b : MaglevGraphBuilder) (init_flip : bool)
    : option (option FusedBranch) :=
  match TryFindNextBranch b 0 with
  | (Some next_branch_offset, inline_level) =>
      Some (BuildFusedBranch b next_branch_offset (Z.of_nat inline_level) init_flip)
  | (None, _) => None
  end.

(** The builder [levels] inline levels out. *)
Fixpoint ancestor (b : MaglevGraphBuilder) (levels : nat) {struct levels}
    : option MaglevGraphBuilder :=
  match levels with
  | O => Some b
  | S levels' =>
      match parent_ b with
      | Some parent => ancestor parent levels'
      | None => None
      end
  end.

(** The number of builders above this one. *)
Fixpoint builder_depth (b : MaglevGraphBuilder) : nat :=
  match parent_ b with
  | Some parent => S (builder_depth parent)
  | None => O
  end.

Definition is_true_jump (bc : Bytecode) : bool :=
  match bc with
  | kJumpIfTrue | kJumpIfTrueConstant
  | kJumpIfToBooleanTrue | kJumpIfToBooleanTrueConstant => true
  | _ => false
  end.

(** What "Re-create catch handler merge states" makes of one entry of
    [merge_states_]. *)
Definition recreated (m : option MergePointInterpreterFrameState)
    : option MergePointInterpreterFrameState :=
  match m with
  | Some state => if is_exception_handler state then Some NewForCatchBlock else None
  | None => None
  end.

(** ** Inlining decisions in sequence *)

Record InlineCandidate := mkInlineCandidate {
  candidate_shared : SharedFunctionInfoRef;
  candidate_feedback_vector : option nat;
  candidate_call_frequency : float
}.

(** The builder after [ShouldInlineCall] has been asked about a candidate. *)
Definition consider_inlining (b : MaglevGraphBuilder) (c : InlineCandidate)
    : MaglevGraphBuilder :=
  snd (ShouldInlineCall b (candidate_shared c) (candidate_feedback_vector c)
         (candidate_call_frequency c)).

(** A callee of 100 bytecodes, above the small-function threshold. *)
Definition medium_callee : SharedFunctionInfoRef :=
  mkSharedFunctionInfoRef 8 kIsInlineable
    (mkBytecodeArrayRef false 0 100
       [mkInstruction 0 (kOtherBytecode 11) (mkRegister 0 false);
        mkInstruction 98 kReturn (mkRegister 0 false)]).

Definition shallow_builder : MaglevGraphBuilder :=
  mkMaglevGraphBuilder None default_flags top_level_function 0 900 0
    ∅ ∅ [] false true true 0 [] (fun _ _ => false) true.

(** A builder in a loop whose body holds an exception handler at offset 20
    and a plain merge point at offset 30. *)
Definition peeling_builder_with_handler : MaglevGraphBuilder :=
  mkMaglevGraphBuilder None default_flags top_level_function 0 0 0
    (<[20 := mkMergeState true false 0 0]> (<[30 := mkMergeState false false 2 1]> ∅))
    (<[10 := 1]> ∅) [] false true true 0 [] (fun _ _ => false) true.

End MaglevBranches.

Module MaglevContexts.

(** ** [TryGetParentContext] and [MinimizeContextChainDepth] *)

Inductive RuntimeFunctionId :=
| kPushBlockContext | kPushCatchContext | kNewFunctionContext
| kOtherRuntimeFunction (id : nat).

(** The node classes [TryGetParentContext] tells apart; a [ValueNode*] is the
    index of the node in the arena. *)
Inductive ContextNode :=
| CreateFunctionContext (context : nat)
| CallRuntime (function_id : RuntimeFunctionId) (context : nat)
| OtherNode.

(** [TryGetParentContext]; [None] is [nullptr]. *)
Definition TryGetParentContext (graph : list ContextNode) (node : nat) : option nat :=
  match graph !! node with
  | Some (CreateFunctionContext context) => Some context
  | Some (CallRuntime function_id context) =>
      match function_id with
      | kPushBlockContext | kPushCatchContext | kNewFunctionContext => Some context
      | _ => None
      end
  | _ => None
  end.

(** [MinimizeContextChainDepth]: the values of [*context] and [*depth] when
    the loop ends. *)
Fixpoint MinimizeContextChainDepth (graph : list ContextNode) (context : nat)
    (depth : nat) : nat * nat :=
  match depth with
  | O => (context, O)
  | S depth' =>
      match TryGetParentContext graph context with
      | None => (context, depth)
      | Some parent_context => MinimizeContextChainDepth graph parent_context depth'
      end
  end.

(** A function context created inside a block context pushed inside a
    context that is a parameter of the graph. *)
Definition example_context_graph : list ContextNode :=
  [OtherNode; CallRuntime kPushBlockContext 0; CreateFunctionContext 1].

End MaglevContexts.

(* ===================================================================== *)
(** * src/maglev/maglev-graph-builder.cc: nodes, conversions, map checks *)
(* ===================================================================== *)

Module MaglevGraph.

Inductive ValueRepresentation :=
| kTagged | kInt32 | kUint32 | kFloat64 | kHoleyFloat64 | kWord64.

Inductive UseRepresentation :=
| kUseTagged | kUseInt32 | kUseTruncatedInt32 | kUseUint32
| kUseFloat64 | kUseHoleyFloat64.

Inductive ToNumberHint :=
| kAssumeSmi | kDisallowToNumber | kAssumeNumber | kAssumeNumberOrOddball.

Inductive TaggedToFloat64ConversionType :=
| kOnlyNumber | kNumberOrOddballConversion.

Inductive CheckType := kCheckHeapObject | kOmitHeapObjectCheck.

Inductive DeoptimizeReason := kWrongMap | kOtherReason (id : nat).

Inductive ReduceResult := Done | DoneWithAbort | Fail.

Inductive RootIndex :=
| kTrueValue | kFalseValue | kUndefinedValue | kNullValue | kOtherRoot (id : nat).

#[global] Instance UseRepresentation_eq_dec : EqDecision UseRepresentation.
Proof. solve_decision. Defined.

(** [compiler::MapRef]: the map it denotes and the two bits the builder reads. *)
Record MapRef := mkMapRef {
  map_object : nat;
  is_stable : bool;
  is_migration_target : bool
}.

#[global] Instance MapRef_eq_dec : EqDecision MapRef.
Proof. solve_decision. Defined.

(** A [double], by its bit pattern; floating-point arithmetic is left to the
    environment below. *)
Definition Float64 := Z.

(** [compiler::ObjectRef] of a heap constant or of a root. *)
Record ObjectRef := mkObjectRef {
  object_map : MapRef;
  (** [IsHeapNumber()] and [AsHeapNumber().value()] *)
  heap_number_value : option Float64;
  (** [IsOddball] and [Oddball::to_number_raw] *)
  oddball_to_number_raw : option Float64
}.

(** The [NodeType] lattice and its operations are declared in the IR header,
    which is not part of the sources at hand; the embedding is stated over
    any lattice offering the operations the builder calls. *)
Class NodeTypeLattice := {
  NodeType : Type;
  NodeType_eq_dec :: EqDecision NodeType;
  kUnknown : NodeType;
  kSmi : NodeType;
  kNumber : NodeType;
  kNumberOrOddball : NodeType;
  kHeapNumber : NodeType;
  kAnyHeapObject : NodeType;
  kBoolean : NodeType;
  kOddball : NodeType;
  (** [static_cast<NodeType>(-1)] *)
  kAllBits : NodeType;
  NodeTypeIs : NodeType -> NodeType -> bool;
  CombineType : NodeType -> NodeType -> NodeType;
  IntersectType : NodeType -> NodeType -> NodeType
}.

Section Builder.

Context `{NodeTypeLattice}.

Definition NodeTypeIsSmi (type : NodeType) : bool := NodeTypeIs type kSmi.
Definition NodeTypeIsNumber (type : NodeType) : bool := NodeTypeIs type kNumber.

(** [Opcode], with the node classes the embedded functions create or
    inspect; every other node class is a [kOtherOpcode]. *)
Inductive Opcode :=
| kConstant (object : ObjectRef)
| kSmiConstant (value : Z)
| kInt32Constant (value : Z)
| kFloat64Constant (value : Float64)
| kRootConstant (index : RootIndex)
| kPhi (type : NodeType)
| kUnsafeSmiTag | kInt32ToNumber | kUint32ToNumber
| kFloat64ToTagged | kHoleyFloat64ToTagged
| kUnsafeSmiUntag | kCheckedSmiUntag
| kTruncateUint32ToInt32 | kCheckedUint32ToInt32 | kCheckedTruncateFloat64ToInt32
| kChangeInt32ToFloat64 | kChangeUint32ToFloat64
| kUncheckedNumberOrOddballToFloat64 (conversion_type : TaggedToFloat64ConversionType)
| kCheckedNumberOrOddballToFloat64 (conversion_type : TaggedToFloat64ConversionType)
| kCheckedHoleyFloat64ToFloat64 | kHoleyFloat64ToMaybeNanFloat64
| kCheckMaps (maps : list MapRef) (check_type : CheckType)
| kCheckMapsWithMigration (maps : list MapRef) (check_type : CheckType)
| kDeopt (reason : DeoptimizeReason)
| kOtherOpcode (id : nat).

(** A node of the graph's arena.  A [ValueNode*] is the index of the node in
    the arena. *)
Record Node := mkNode {
  opcode : Opcode;
  inputs : list nat;
  (** [properties().value_representation()] *)
  value_representation : ValueRepresentation
}.

(** The cached alternative representations of a node. *)
Record AlternativeNodes := mkAlternativeNodes {
  alt_tagged : option nat;
  alt_int32 : option nat;
  alt_truncated_int32_to_number : option nat;
  alt_float64 : option nat;
  alt_constant : option nat
}.

Record NodeInfo := mkNodeInfo {
  type_ : NodeType;
  possible_maps_are_known : bool;
  possible_maps : list MapRef;
  any_map_is_unstable : bool;
  alternative : AlternativeNodes
}.

(** A freshly created [NodeInfo]. *)
Definition NodeInfo_default : NodeInfo :=
  mkNodeInfo kUnknown false [] false (mkAlternativeNodes None None None None None).

(** What the builder reads from its collaborators: type queries answered by
    the heap broker, the root table, the part of the opcode table of
    [StaticTypeForNode] that concerns node classes outside [Opcode], and
    the conversions between [double] and [int]. *)
Record Environment := mkEnvironment {
  StaticTypeForMap : MapRef -> NodeType;
  StaticTypeForConstant : ObjectRef -> NodeType;
  IsInstanceOfNodeType : MapRef -> NodeType -> bool;
  static_type_of_other : nat -> NodeType;
  root : RootIndex -> ObjectRef;
  IsSmiDouble : Float64 -> bool;
  FastD2I : Float64 -> Z;
  int_to_double : Z -> Float64
}.

(** The builder's state, as far as nodes and known node aspects go. *)
Record BuilderState := mkBuilderState {
  nodes : list Node;
  known_node_aspects : gmap nat NodeInfo;
  any_map_for_any_node_is_unstable : bool;
  (** the graph's caches of [Int32Constant] and [Float64Constant] nodes *)
  int32_constants : gmap Z nat;
  float64_constants : gmap Z nat;
  (** [Phi::uses_repr_hint_], per phi *)
  uses_repr_hint : gmap nat (list UseRepresentation);
  (** [broker()->dependencies()]: the stable maps depended on *)
  stable_map_dependencies : list MapRef;
  current_block_open : bool
}.

(** ** A state and error monad for the builder *)

(** [None] stands for a run that does not return: [UNREACHABLE()], a
    dangling node, an unbounded recursion. *)
Definition M (A : Type) : Type := BuilderState -> option (A * BuilderState).

Definition ret {A} (a : A) : M A := fun s => Some (a, s).
Definition bind {A B} (m : M A) (k : A -> M B) : M B :=
  fun s => match m s with Some (a, s') => k a s' | None => None end.
Definition unreachable {A} : M A := fun _ => None.
Definition get_state : M BuilderState := fun s => Some (s, s).
Definition put_state (s : BuilderState) : M unit := fun _ => Some (tt, s).

Notation "x <- m ;; k" := (bind m (fun x => k))
  (at level 100, m at next level, right associativity).
Notation "m ;;; k" := (bind m (fun _ => k))
  (at level 100, right associativity).

Variable env : Environment.

(** ** Primitive operations on the state *)

Definition get_node (value : nat) : M Node :=
  fun s => match nodes s !! value with Some n => Some (n, s) | None => None end.

Definition set_nodes (s : BuilderState) (ns : list Node) : BuilderState :=
  mkBuilderState ns (known_node_aspects s) (any_map_for_any_node_is_unstable s)
    (int32_constants s) (float64_constants s) (uses_repr_hint s)
    (stable_map_dependencies s) (current_block_open s).

Definition set_known_node_aspects (s : BuilderState) (a : gmap nat NodeInfo) : BuilderState :=
  mkBuilderState (nodes s) a (any_map_for_any_node_is_unstable s)
    (int32_constants s) (float64_constants s) (uses_repr_hint s)
    (stable_map_dependencies s) (current_block_open s).

(** Modelled from the spec: the representation of a node class is declared
    with the class in the IR header, which is not part of the sources at
    hand.  A conversion node produces the representation it is named after
    (the cache "stores" an int32, float64 or tagged version of a value). *)
Definition OpcodeRepresentation (op : Opcode) : ValueRepresentation :=
  match op with
  | kInt32Constant _ | kUnsafeSmiUntag | kCheckedSmiUntag
  | kTruncateUint32ToInt32 | kCheckedUint32ToInt32
  | kCheckedTruncateFloat64ToInt32 => kInt32
  | kFloat64Constant _ | kChangeInt32ToFloat64 | kChangeUint32ToFloat64
  | kUncheckedNumberOrOddballToFloat64 _ | kCheckedNumberOrOddballToFloat64 _
  | kCheckedHoleyFloat64ToFloat64 | kHoleyFloat64ToMaybeNanFloat64 => kFloat64
  | _ => kTagged
  end.

(** Modelled from the spec: [AddNewNode] is a template of the builder's
    header.  It allocates the node in the arena, appends it to the current
    block and returns it; the nodes created here have no side effect that
    would clear the known node aspects. *)
Definition AddNewNode (op : Opcode) (node_inputs : list nat) : M nat :=
  fun s => Some (length (nodes s),
                 set_nodes s (nodes s ++ [mkNode op node_inputs (OpcodeRepresentation op)])).

(** Modelled from the spec: [FinishBlock<Deopt>] inside
    [EmitUnconditionalDeopt] ends the current block with a [Deopt] control
    node; the result is the abort sentinel [DoneWithAbort]. *)
Definition EmitUnconditionalDeopt (reason : DeoptimizeReason) : M ReduceResult :=
  fun s => Some (DoneWithAbort,
    mkBuilderState (nodes s ++ [mkNode (kDeopt reason) [] kTagged])
      (known_node_aspects s) (any_map_for_any_node_is_unstable s)
      (int32_constants s) (float64_constants s) (uses_repr_hint s)
      (stable_map_dependencies s) false).

(** Modelled from the spec: [GetInt32Constant] and [GetFloat64Constant]
    return the graph's node for the constant, creating it on first use. *)
Definition GetInt32Constant (value : Z) : M nat :=
  fun s => match int32_constants s !! value with
  | Some n => Some (n, s)
  | None =>
      Some (length (nodes s),
        mkBuilderState (nodes s ++ [mkNode (kInt32Constant value) [] kInt32])
          (known_node_aspects s) (any_map_for_any_node_is_unstable s)
          (<[value := length (nodes s)]> (int32_constants s)) (float64_constants s)
          (uses_repr_hint s) (stable_map_dependencies s) (current_block_open s))
  end.

Definition GetFloat64Constant (value : Float64) : M nat :=
  fun s => match float64_constants s !! value with
  | Some n => Some (n, s)
  | None =>
      Some (length (nodes s),
        mkBuilderState (nodes s ++ [mkNode (kFloat64Constant value) [] kFloat64])
          (known_node_aspects s) (any_map_for_any_node_is_unstable s)
          (int32_constants s) (<[value := length (nodes s)]> (float64_constants s))
          (uses_repr_hint s) (stable_map_dependencies s) (current_block_open s))
  end.

Definition is_phi (n : Node) : bool :=
  match opcode n with kPhi _ => true | _ => false end.

(** Modelled from the spec: [RecordUseReprHintIfPhi] belongs to the builder's
    header, which is not part of the sources at hand, and the spec counts no
    effect of it on the conversion cache.  For a phi, the use representation
    joins the phi's set of hints; other nodes are left alone. *)
Definition RecordUseReprHintIfPhi (value : nat) (repr : UseRepresentation) : M unit :=
  fun s => match nodes s !! value with
  | None => None
  | Some n =>
      if is_phi n then
        let hints := default [] (uses_repr_hint s !! value) in
        if bool_decide (repr ∈ hints) then Some (tt, s)
        else Some (tt,
          mkBuilderState (nodes s) (known_node_aspects s)
            (any_map_for_any_node_is_unstable s) (int32_constants s)
            (float64_constants s) (<[value := repr :: hints]> (uses_repr_hint s))
            (stable_map_dependencies s) (current_block_open s))
      else Some (tt, s)
  end.

(** [KnownNodeAspects::GetOrCreateInfoFor]; the result is the entry as it
    stands, later reads of the [NodeInfo*] go through [info_of]. *)
Definition GetOrCreateInfoFor (value : nat) : M NodeInfo :=
  fun s => match known_node_aspects s !! value with
  | Some info => Some (info, s)
  | None =>
      Some (NodeInfo_default,
            set_known_node_aspects s (<[value := NodeInfo_default]> (known_node_aspects s)))
  end.

Definition info_of (value : nat) : M NodeInfo :=
  fun s => match known_node_aspects s !! value with
  | Some info => Some (info, s)
  | None => None
  end.

Definition update_info (value : nat) (f : NodeInfo -> NodeInfo) : M unit :=
  fun s => match known_node_aspects s !! value with
  | Some info =>
      Some (tt, set_known_node_aspects s (<[value := f info]> (known_node_aspects s)))
  | None => None
  end.

Definition NodeInfo_CombineType (type : NodeType) (i : NodeInfo) : NodeInfo :=
  mkNodeInfo (CombineType (type_ i) type) (possible_maps_are_known i)
    (possible_maps i) (any_map_is_unstable i) (alternative i).

Definition NodeInfo_IntersectType (type : NodeType) (i : NodeInfo) : NodeInfo :=
  mkNodeInfo (IntersectType (type_ i) type) (possible_maps_are_known i)
    (possible_maps i) (any_map_is_unstable i) (alternative i).

Definition with_alternative (f : AlternativeNodes -> AlternativeNodes) (i : NodeInfo) : NodeInfo :=
  mkNodeInfo (type_ i) (possible_maps_are_known i) (possible_maps i)
    (any_map_is_unstable i) (f (alternative i)).


Definition set_int32 (value n : nat) : M nat :=
  update_info value (with_alternative (fun a =>
    mkAlternativeNodes (alt_tagged a) (Some n) (alt_truncated_int32_to_number a)
      (alt_float64 a) (alt_constant a))) ;;; ret n.

Definition set_float64 (value n : nat) : M nat :=
  update_info value (with_alternative (fun a =>
    mkAlternativeNodes (alt_tagged a) (alt_int32 a) (alt_truncated_int32_to_number a)
      (Some n) (alt_constant a))) ;;; ret n.

(** ** Static and known types *)

(** [StaticTypeForNode].  The second [switch], over the opcode, is followed
    for the node classes of [Opcode]; for the others it is the environment's
    table. *)
Definition StaticTypeForNode (node : Node) : option NodeType :=
  match value_representation node with
  | kInt32 | kUint32 | kFloat64 => Some kNumber
  | kHoleyFloat64 => Some kNumberOrOddball
  | kWord64 => None (* UNREACHABLE *)
  | kTagged =>
      Some match opcode node with
      | kPhi type => type
      | kUnsafeSmiTag | kSmiConstant _ => kSmi
      | kInt32ToNumber | kUint32ToNumber | kFloat64ToTagged => kNumber
      | kHoleyFloat64ToTagged => kNumberOrOddball
      | kRootConstant kTrueValue | kRootConstant kFalseValue => kBoolean
      | kRootConstant kUndefinedValue | kRootConstant kNullValue => kOddball
      | kRootConstant index => StaticTypeForConstant env (root env index)
      | kConstant object => StaticTypeForConstant env object
      | kOtherOpcode id => static_type_of_other env id
      | _ => kUnknown
      end
  end.

Definition static_type (value : nat) : M NodeType :=
  node <- get_node value ;;
  match StaticTypeForNode node with
  | Some type => ret type
  | None => unreachable
  end.

(** [EnsureType (node, type, &old_type)]: the answer and [old_type]. *)
Definition EnsureType (value : nat) (type : NodeType) : M (bool * NodeType) :=
  static <- static_type value ;;
  if NodeTypeIs static type then ret (true, static)
  else
    known_info <- GetOrCreateInfoFor value ;;
    if NodeTypeIs (type_ known_info) type then ret (true, type_ known_info)
    else
      update_info value (NodeInfo_CombineType type) ;;;
      ret (false, type_ known_info).

(** [GetCheckType] *)
Definition GetCheckType (type : NodeType) : CheckType :=
  if NodeTypeIs type kAnyHeapObject then kOmitHeapObjectCheck else kCheckHeapObject.

(** [BuildSmiUntag] *)
Definition BuildSmiUntag (value : nat) : M nat :=
  r <- EnsureType value kSmi ;;
  if fst r then AddNewNode kUnsafeSmiUntag [value]
  else AddNewNode kCheckedSmiUntag [value].

Definition TaggedToFloat64ConversionTypeToNodeType
    (conversion_type : TaggedToFloat64ConversionType) : NodeType :=
  match conversion_type with
  | kOnlyNumber => kNumber
  | kNumberOrOddballConversion => kNumberOrOddball
  end.

(** [BuildNumberOrOddballToFloat64] *)
Definition BuildNumberOrOddballToFloat64 (value : nat)
    (conversion_type : TaggedToFloat64ConversionType) : M nat :=
  r <- EnsureType value (TaggedToFloat64ConversionTypeToNodeType conversion_type) ;;
  if fst r then
    if bool_decide (snd r = kSmi) then
      untagged_smi <- AddNewNode kUnsafeSmiUntag [value] ;;
      AddNewNode kChangeInt32ToFloat64 [untagged_smi]
    else AddNewNode (kUncheckedNumberOrOddballToFloat64 conversion_type) [value]
  else AddNewNode (kCheckedNumberOrOddballToFloat64 conversion_type) [value].

(** ** Representation conversions *)


(** The constants [GetInt32] folds before it looks at the cache. *)
Definition GetInt32_constant (node : Node) : option Z :=
  match opcode node with
  | kSmiConstant value => Some value
  | kFloat64Constant double_value =>
      if IsSmiDouble env double_value then Some (FastD2I env double_value) else None
  | _ => None
  end.

(** [GetInt32] *)
Definition GetInt32 (value : nat) : M nat :=
  RecordUseReprHintIfPhi value kUseInt32 ;;;
  node <- get_node value ;;
  match value_representation node with
  | kInt32 => ret value
  | representation =>
      (* Process constants first to avoid allocating NodeInfo for them. *)
      match GetInt32_constant node with
      | Some constant => GetInt32Constant constant
      | None =>
          node_info <- GetOrCreateInfoFor value ;;
          match alt_int32 (alternative node_info) with
          | Some alt => ret alt
          | None =>
              match representation with
              | kTagged =>
                  n <- BuildSmiUntag value ;; set_int32 value n
              | kUint32 =>
                  if NodeTypeIsSmi (type_ node_info)
                  then n <- AddNewNode kTruncateUint32ToInt32 [value] ;; set_int32 value n
                  else n <- AddNewNode kCheckedUint32ToInt32 [value] ;; set_int32 value n
              | kFloat64 | kHoleyFloat64 =>
                  n <- AddNewNode kCheckedTruncateFloat64ToInt32 [value] ;;
                  set_int32 value n
              | kInt32 | kWord64 => unreachable
              end
          end
      end
  end.

(** The constants [GetFloat64ForToNumber] folds before it looks at the cache. *)
Definition GetFloat64_constant (node : Node) (hint : ToNumberHint) : option Float64 :=
  match opcode node with
  | kConstant object => heap_number_value object
  | kSmiConstant value => Some (int_to_double env value)
  | kInt32Constant value => Some (int_to_double env value)
  | kRootConstant index =>
      let root_object := root env index in
      match hint, oddball_to_number_raw root_object with
      | kDisallowToNumber, _ | _, None => heap_number_value root_object
      | _, Some number => Some number
      end
  | _ => None
  end.

(** [GetFloat64ForToNumber], with its call of [GetFloat64] as a parameter. *)
Definition GetFloat64ForToNumber_with (GetFloat64 : nat -> M nat)
    (value : nat) (hint : ToNumberHint) : M nat :=
  node <- get_node value ;;
  match value_representation node with
  | kFloat64 => ret value
  | representation =>
      match GetFloat64_constant node hint with
      | Some constant => GetFloat64Constant constant
      | None =>
          node_info <- GetOrCreateInfoFor value ;;
          match alt_float64 (alternative node_info) with
          | Some alt => ret alt
          | None =>
              match representation with
              | kTagged =>
                  match hint with
                  | kAssumeSmi =>
                      int32 <- GetInt32 value ;; GetFloat64 int32
                  | kDisallowToNumber | kAssumeNumber =>
                      n <- BuildNumberOrOddballToFloat64 value kOnlyNumber ;;
                      set_float64 value n
                  | kAssumeNumberOrOddball =>
                      float64_node <-
                        BuildNumberOrOddballToFloat64 value kNumberOrOddballConversion ;;
                      current <- info_of value ;;
                      if NodeTypeIsNumber (type_ current)
                      then set_float64 value float64_node
                      else ret float64_node
                  end
              | kInt32 =>
                  n <- AddNewNode kChangeInt32ToFloat64 [value] ;; set_float64 value n
              | kUint32 =>
                  n <- AddNewNode kChangeUint32ToFloat64 [value] ;; set_float64 value n
              | kHoleyFloat64 =>
                  match hint with
                  | kAssumeSmi | kDisallowToNumber | kAssumeNumber =>
                      n <- AddNewNode kCheckedHoleyFloat64ToFloat64 [value] ;;
                      set_float64 value n
                  | kAssumeNumberOrOddball =>
                      AddNewNode kHoleyFloat64ToMaybeNanFloat64 [value]
                  end
              | kFloat64 | kWord64 => unreachable
              end
          end
      end
  end.

(** [GetFloat64]: the hint [kDisallowToNumber] never reaches the inner call
    of [GetFloat64]. *)
Definition GetFloat64 (value : nat) : M nat :=
  RecordUseReprHintIfPhi value kUseFloat64 ;;;
  GetFloat64ForToNumber_with (fun _ => unreachable) value kDisallowToNumber.

Definition GetFloat64ForToNumber (value : nat) (hint : ToNumberHint) : M nat :=
  GetFloat64ForToNumber_with GetFloat64 value hint.

(** ** Map checks *)

(** The static [TryGetConstant (broker, isolate, node)]. *)
Definition TryGetConstant_static (node : Node) : option ObjectRef :=
  match opcode node with
  | kConstant object => Some object
  | kRootConstant index => Some (root env index)
  | _ => None
  end.

(** [TryGetConstant (node)]: the node itself, or else its constant
    alternative, looked up the same way.  The recursion follows
    [alternative().constant()] links; [fuel] bounds the number of links, and a
    chain that outlasts it stands for a recursion that does not end. *)
Fixpoint TryGetConstant_fuel (fuel : nat) (s : BuilderState) (value : nat)
    : option (option ObjectRef) :=
  match nodes s !! value with
  | None => None
  | Some node =>
      match TryGetConstant_static node with
      | Some object => Some (Some object)
      | None =>
          match known_node_aspects s !! value with
          | Some info =>
              match alt_constant (alternative info) with
              | Some c =>
                  match fuel with
                  | O => None
                  | S fuel' => TryGetConstant_fuel fuel' s c
                  end
              | None => Some None
              end
          | None => Some None
          end
      end
  end.

Definition TryGetConstant (value : nat) : M (option ObjectRef) :=
  fun s => match TryGetConstant_fuel (length (nodes s)) s value with
  | Some r => Some (r, s)
  | None => None
  end.

(** [broker()->dependencies()->DependOnStableMap] *)
Definition DependOnStableMap (map : MapRef) : M unit :=
  fun s => Some (tt,
    mkBuilderState (nodes s) (known_node_aspects s)
      (any_map_for_any_node_is_unstable s) (int32_constants s)
      (float64_constants s) (uses_repr_hint s)
      (stable_map_dependencies s ++ [map]) (current_block_open s)).

(** The state of a [KnownMapsMerger]. *)
Record KnownMapsMerger := mkKnownMapsMerger {
  requested_maps_ : list MapRef;
  intersect_set_ : list MapRef;
  known_maps_are_subset_of_requested_maps_ : bool;
  existing_known_maps_found_ : bool;
  emit_check_with_migration_ : bool;
  any_map_is_unstable_ : bool;
  node_type_ : NodeType
}.

Definition KnownMapsMerger_new (requested_maps : list MapRef) : KnownMapsMerger :=
  mkKnownMapsMerger requested_maps [] true true false false kAllBits.

(** [ZoneRefSet::insert] *)
Definition set_insert (map : MapRef) (set : list MapRef) : list MapRef :=
  if bool_decide (map ∈ set) then set else set ++ [map].

(** [KnownMapsMerger::InsertMap] *)
Definition InsertMap (m : KnownMapsMerger) (map : MapRef) : KnownMapsMerger :=
  let new_type := StaticTypeForMap env map in
  let new_type :=
    if bool_decide (new_type = kHeapNumber) then IntersectType new_type kSmi
    else new_type in
  mkKnownMapsMerger (requested_maps_ m) (set_insert map (intersect_set_ m))
    (known_maps_are_subset_of_requested_maps_ m) (existing_known_maps_found_ m)
    (emit_check_with_migration_ m || is_migration_target map)
    (any_map_is_unstable_ m || negb (is_stable map))
    (IntersectType (node_type_ m) new_type).

Definition set_not_subset (m : KnownMapsMerger) : KnownMapsMerger :=
  mkKnownMapsMerger (requested_maps_ m) (intersect_set_ m) false
    (existing_known_maps_found_ m) (emit_check_with_migration_ m)
    (any_map_is_unstable_ m) (node_type_ m).

(** One round of the loop over the known possible maps. *)
Definition intersect_step (type : NodeType) (m : KnownMapsMerger)
    (possible_map : MapRef) : KnownMapsMerger :=
  if bool_decide (possible_map ∈ requested_maps_ m) then
    if IsInstanceOfNodeType env possible_map type then InsertMap m possible_map
    else m
  else set_not_subset m.

(** [KnownMapsMerger::IntersectWithKnownNodeAspects] *)
Definition IntersectWithKnownNodeAspects (m : KnownMapsMerger)
    (info : option NodeInfo) : KnownMapsMerger :=
  match info with
  | Some node_info =>
      if possible_maps_are_known node_info then
        let m1 := foldl (intersect_step (type_ node_info)) m (possible_maps node_info) in
        match intersect_set_ m1 with
        | [] =>
            mkKnownMapsMerger (requested_maps_ m1) (intersect_set_ m1)
              (known_maps_are_subset_of_requested_maps_ m1)
              (existing_known_maps_found_ m1) (emit_check_with_migration_ m1)
              (any_map_is_unstable_ m1) kUnknown
        | _ => m1
        end
      else
        foldl InsertMap
          (mkKnownMapsMerger (requested_maps_ m) (intersect_set_ m) false false
             (emit_check_with_migration_ m) (any_map_is_unstable_ m) (node_type_ m))
          (requested_maps_ m)
  | None =>
      foldl InsertMap
        (mkKnownMapsMerger (requested_maps_ m) (intersect_set_ m) false false
           (emit_check_with_migration_ m) (any_map_is_unstable_ m) (node_type_ m))
        (requested_maps_ m)
  end.

(** Modelled from the spec: [NodeInfo::SetPossibleMaps] belongs to the
    frame-state header; it records the narrowed set as the known possible
    maps and combines the type of those maps into the recorded type. *)
Definition SetPossibleMaps (maps : list MapRef) (unstable : bool)
    (possible_type : NodeType) (i : NodeInfo) : NodeInfo :=
  mkNodeInfo (CombineType (type_ i) possible_type) true maps unstable (alternative i).

Fixpoint depend_on_stable_maps (maps : list MapRef) : M unit :=
  match maps with
  | [] => ret tt
  | map :: rest =>
      (if is_stable map then DependOnStableMap map else ret tt) ;;;
      depend_on_stable_maps rest
  end.

(** [KnownMapsMerger::UpdateKnownNodeAspects] *)
Definition UpdateKnownNodeAspects (m : KnownMapsMerger) (object : nat) : M unit :=
  GetOrCreateInfoFor object ;;;
  update_info object
    (SetPossibleMaps (intersect_set_ m) (any_map_is_unstable_ m) (node_type_ m)) ;;;
  (if any_map_is_unstable_ m then
     fun s => Some (tt,
       mkBuilderState (nodes s) (known_node_aspects s) true (int32_constants s)
         (float64_constants s) (uses_repr_hint s) (stable_map_dependencies s)
         (current_block_open s))
   else ret tt) ;;;
  if existing_known_maps_found_ m then ret tt
  else depend_on_stable_maps (intersect_set_ m).

(** The part of [BuildCheckMaps] after the shortcut for constants. *)
Definition BuildCheckMaps_known (object : nat) (maps : list MapRef) : M ReduceResult :=
  GetOrCreateInfoFor object ;;;
  static <- static_type object ;;
  update_info object (NodeInfo_CombineType static) ;;;
  aspects <- get_state ;;
  let merger :=
    IntersectWithKnownNodeAspects (KnownMapsMerger_new maps)
      (known_node_aspects aspects !! object) in
  (* If the known maps are the subset of the maps to check, we are done. *)
  if known_maps_are_subset_of_requested_maps_ merger then
    known_info <- info_of object ;;
    (if NodeTypeIs (type_ known_info) (node_type_ merger) then ret tt
     else update_info object (NodeInfo_IntersectType (node_type_ merger))) ;;;
    ret Done
  else
    match intersect_set_ merger with
    | [] => EmitUnconditionalDeopt kWrongMap
    | _ =>
        known_info <- info_of object ;;
        (if emit_check_with_migration_ merger then
           AddNewNode (kCheckMapsWithMigration (intersect_set_ merger)
                         (GetCheckType (type_ known_info))) [object]
         else
           AddNewNode (kCheckMaps (intersect_set_ merger)
                         (GetCheckType (type_ known_info))) [object]) ;;;
        UpdateKnownNodeAspects merger object ;;;
        ret Done
    end.

(** [MaglevGraphBuilder::BuildCheckMaps] *)
Definition BuildCheckMaps (object : nat) (maps : list MapRef) : M ReduceResult :=
  constant <- TryGetConstant object ;;
  match constant with
  | Some ref =>
      let constant_map := object_map ref in
      if bool_decide (constant_map ∈ maps) && is_stable constant_map then
        DependOnStableMap constant_map ;;; ret Done
      else BuildCheckMaps_known object maps
  | None => BuildCheckMaps_known object maps
  end.

(** The possible maps the builder knows for a node: a set, or nothing, which
    stands for the universal set. *)
Definition known_possible_maps (s : BuilderState) (object : nat) : option (list MapRef) :=
  match known_node_aspects s !! object with
  | Some info =>
      if possible_maps_are_known info then Some (possible_maps info) else None
  | None => None
  end.

(** The shortcut of [BuildCheckMaps] for constants applies. *)
Definition constant_with_stable_requested_map (s : BuilderState) (object : nat)
    (maps : list MapRef) : Prop :=
  exists ref, TryGetConstant object s = Some (Some ref, s) /\
    object_map ref ∈ maps /\ is_stable (object_map ref) = true.

(** ** States that answer a conversion request from a cache *)

Definition extends (s s' : BuilderState) : Prop :=
  (exists extra, nodes s' = nodes s ++ extra) /\
  uses_repr_hint s' = uses_repr_hint s.

Definition hint_recorded (s : BuilderState) (v : nat) (n : Node) (r : UseRepresentation) : Prop :=
  is_phi n = true -> r ∈ default [] (uses_repr_hint s !! v).

(** What the helpers that may create nodes leave alone. *)
Definition grows (value : nat) (s s' : BuilderState) : Prop :=
  extends s s' /\
  int32_constants s' = int32_constants s /\
  float64_constants s' = float64_constants s /\
  (forall info, known_node_aspects s !! value = Some info ->
     exists info', known_node_aspects s' !! value = Some info' /\
       alternative info' = alternative info).

Definition cached_in (s : BuilderState) (value : nat)
    (slot : AlternativeNodes -> option nat) (r : nat) : Prop :=
  exists info, known_node_aspects s !! value = Some info /\
    slot (alternative info) = Some r.

(** The states in which [GetInt32] finds its answer ready. *)
Definition int32_ready (s : BuilderState) (value : nat) (n : Node) (r : nat) : Prop :=
  nodes s !! value = Some n /\ hint_recorded s value n kUseInt32 /\
  ((value_representation n = kInt32 /\ r = value) \/
   (value_representation n <> kInt32 /\
    exists c, GetInt32_constant n = Some c /\ int32_constants s !! c = Some r) \/
   (value_representation n <> kInt32 /\ GetInt32_constant n = None /\
    cached_in s value alt_int32 r)).



End Builder.

(** An instance of the lattice in the style the spec sketches
    (Smi below Number below NumberOrOddball): a type is a set of known facts,
    one bit each; combining types joins the facts, intersecting keeps the
    common ones. *)
#[global] Instance BitsetNodeType : NodeTypeLattice := {|
  NodeType := Z;
  kUnknown := 0;
  kNumberOrOddball := 2;
  kNumber := 6;
  kSmi := 30;
  kAnyHeapObject := 32;
  kHeapNumber := 46;
  kOddball := 98;
  kBoolean := 226;
  kAllBits := -1;
  NodeTypeIs := fun type to_check => Z.land type to_check =? to_check;
  CombineType := Z.lor;
  IntersectType := Z.land
|}.

(** An environment for the examples: every map and every constant is a plain
    heap object, the roots are oddballs, no [double] is a Smi. *)
Definition example_environment : Environment :=
  mkEnvironment (fun _ => 32) (fun _ => 32) (fun _ _ => true) (fun _ => 0)
    (fun _ => mkObjectRef (mkMapRef 0 true false) None (Some 0))
    (fun _ => false) (fun _ => 0) (fun z => z).

(** ** Example states *)

(** A tagged value of some node class outside the conversions. *)
Definition state_with_tagged_node : BuilderState :=
  mkBuilderState [mkNode (kOtherOpcode 0) [] kTagged] ∅ false ∅ ∅ ∅ [] true.

(** A receiver whose known possible maps have been narrowed to nothing (the
    state "after merging with an effectively dead branch"), checked against
    one requested map. *)
Definition receiver_map : MapRef := mkMapRef 1 true false.
Definition other_map : MapRef := mkMapRef 2 true false.



End MaglevGraph.

(* ===================================================================== *)
(** * src/maglev/maglev-graph-builder.cc: truncating and clamping
      conversions, branches on root constants *)
(* ===================================================================== *)

Module MaglevConversions.

Import MaglevGraph.

(** [ClampToUint8] *)
Definition ClampToUint8 (value : Z) : Z :=
  if value <? 0 then 0
  else if 255 <? value then 255
  else value.

(** [ToNumberHintToConversionType]; [None] is [UNREACHABLE()]. *)
Definition ToNumberHintToConversionType (conversion_type : ToNumberHint)
    : option TaggedToFloat64ConversionType :=
  match conversion_type with
  | kAssumeSmi => None
  | kDisallowToNumber | kAssumeNumber => Some kOnlyNumber
  | kAssumeNumberOrOddball => Some kNumberOrOddballConversion
  end.

(** The node classes created by the functions of this part that [Opcode]
    does not name. *)
Inductive OtherNodeClass :=
| TruncateNumberOrOddballToInt32 (conversion_type : TaggedToFloat64ConversionType)
| CheckedTruncateNumberOrOddballToInt32 (conversion_type : TaggedToFloat64ConversionType)
| TruncateFloat64ToInt32
| Int32ToUint8Clamped | CheckedNumberToUint8Clamped
| Float64ToUint8Clamped | Uint32ToUint8Clamped.

Section Conversions.

Context `{NodeTypeLattice}.

(** [ToNumberHintToNodeType] *)
Definition ToNumberHintToNodeType (conversion_type : ToNumberHint) : NodeType :=
  match conversion_type with
  | kAssumeSmi => kSmi
  | kDisallowToNumber | kAssumeNumber => kNumber
  | kAssumeNumberOrOddball => kNumberOrOddball
  end.

Variable env : Environment.

(** The position of a node class in the opcode list of the IR header, which
    is not part of the sources at hand. *)
Variable opcode_of : OtherNodeClass -> nat.

(** [DoubleToInt32] and [Smi::IsValid] are declared with the number
    conversions and with the Smi class, outside the sources at hand. *)
Variable DoubleToInt32 : Float64 -> Z.
Variable Smi_IsValid : Z -> bool.

(** Modelled from the spec: as [AddNewNode], for a node class outside
    [Opcode]; all of these classes produce an int32 value. *)
Definition AddNewOtherNode (c : OtherNodeClass) (node_inputs : list nat) : M nat :=
  fun s => Some (length (nodes s),
                 set_nodes s (nodes s ++ [mkNode (kOtherOpcode (opcode_of c)) node_inputs kInt32])).

Definition set_truncated_int32_to_number (value n : nat) : M nat :=
  bind (update_info value (with_alternative (fun a =>
          mkAlternativeNodes (alt_tagged a) (alt_int32 a) (Some n)
            (alt_float64 a) (alt_constant a))))
       (fun _ => ret n).

(** The constants [GetTruncatedInt32ForToNumber] folds before it looks at the
    cache.  For a root constant the code only asserts ([DCHECK]) that the
    truncation is a valid Smi; the assertion is left out. *)
Definition GetTruncatedInt32_constant (node : Node) : option Z :=
  match opcode node with
  | kConstant object =>
      match heap_number_value object with
      | Some number =>
          let truncated_value := DoubleToInt32 number in
          if Smi_IsValid truncated_value then Some truncated_value else None
      | None => None
      end
  | kSmiConstant value => Some value
  | kRootConstant index =>
      match oddball_to_number_raw (root env index) with
      | Some number => Some (DoubleToInt32 number)
      | None => None
      end
  | kFloat64Constant double_value =>
      let truncated_value := DoubleToInt32 double_value in
      if Smi_IsValid truncated_value then Some truncated_value else None
  | _ => None
  end.

(** [GetTruncatedInt32ForToNumber] *)
Definition GetTruncatedInt32ForToNumber (value : nat) (hint : ToNumberHint) : M nat :=
  bind (RecordUseReprHintIfPhi value kUseTruncatedInt32) (fun _ =>
  bind (get_node value) (fun node =>
  match value_representation node with
  | kInt32 => ret value
  | kUint32 =>
      (* This node is cheap (no code gen, just a bitcast), so don't cache it. *)
      AddNewNode kTruncateUint32ToInt32 [value]
  | representation =>
      (* Process constants first to avoid allocating NodeInfo for them. *)
      match GetTruncatedInt32_constant node with
      | Some constant => GetInt32Constant constant
      | None =>
          bind (GetOrCreateInfoFor value) (fun node_info =>
          (* If there is an int32_alternative, then that works as a truncated
             value too. *)
          match alt_int32 (alternative node_info) with
          | Some alt => ret alt
          | None =>
          match alt_truncated_int32_to_number (alternative node_info) with
          | Some alt => ret alt
          | None =>
              match representation with
              | kTagged =>
                  let desired_type := ToNumberHintToNodeType hint in
                  bind (EnsureType env value desired_type) (fun r =>
                  let old_type := snd r in
                  if NodeTypeIsSmi old_type then
                    bind (AddNewNode kUnsafeSmiUntag [value]) (set_int32 value)
                  else if bool_decide (desired_type = kSmi) then
                    bind (AddNewNode kCheckedSmiUntag [value]) (set_int32 value)
                  else
                    match ToNumberHintToConversionType hint with
                    | None => unreachable
                    | Some conversion_type =>
                        if NodeTypeIs old_type desired_type then
                          bind (AddNewOtherNode
                                  (TruncateNumberOrOddballToInt32 conversion_type) [value])
                               (set_truncated_int32_to_number value)
                        else
                          bind (AddNewOtherNode
                                  (CheckedTruncateNumberOrOddballToInt32 conversion_type)
                                  [value])
                               (set_truncated_int32_to_number value)
                    end)
              | kFloat64 | kHoleyFloat64 =>
                  bind (AddNewOtherNode TruncateFloat64ToInt32 [value])
                       (set_truncated_int32_to_number value)
              | kInt32 | kUint32 | kWord64 => unreachable
              end
          end
          end)
      end
  end)).

(** [GetHoleyFloat64ForToNumber] *)
Definition GetHoleyFloat64ForToNumber (value : nat) (hint : ToNumberHint) : M nat :=
  bind (RecordUseReprHintIfPhi value kUseHoleyFloat64) (fun _ =>
  bind (get_node value) (fun node =>
  match value_representation node with
  | kHoleyFloat64 => ret value
  | _ => GetFloat64ForToNumber env value hint
  end)).

(** [GetUint8ClampedForToNumber]; [TryGetInfoFor] does not create an
    entry. *)
Definition GetUint8ClampedForToNumber (value : nat) (hint : ToNumberHint) : M nat :=
  bind (get_node value) (fun node =>
  match value_representation node with
  | kWord64 => unreachable
  | kTagged =>
      match opcode node with
      | kSmiConstant constant => GetInt32Constant (ClampToUint8 constant)
      | _ =>
          bind get_state (fun s =>
          match known_node_aspects s !! value with
          | Some info =>
              match alt_int32 (alternative info) with
              | Some int32 => AddNewOtherNode Int32ToUint8Clamped [int32]
              | None => AddNewOtherNode CheckedNumberToUint8Clamped [value]
              end
          | None => AddNewOtherNode CheckedNumberToUint8Clamped [value]
          end)
      end
  | kFloat64 | kHoleyFloat64 => AddNewOtherNode Float64ToUint8Clamped [value]
  | kInt32 =>
      match opcode node with
      | kInt32Constant constant => GetInt32Constant (ClampToUint8 constant)
      | _ => AddNewOtherNode Int32ToUint8Clamped [value]
      end
  | kUint32 => AddNewOtherNode Uint32ToUint8Clamped [value]
  end).

(** Every entry of the graph's cache of int32 constants is the
    [Int32Constant] node of its key. *)
Definition int32_constants_wf (s : BuilderState) : Prop :=
  forall (constant : Z) (n : nat),
    int32_constants s !! constant = Some n ->
    nodes s !! n = Some (mkNode (kInt32Constant constant) [] kInt32).

(** A state in which the truncated int32 of a value is cached, as an int32
    alternative or, without one, as a truncated alternative. *)
Definition truncation_cached (s : BuilderState) (value r : nat) : Prop :=
  exists info, known_node_aspects s !! value = Some info /\
    (alt_int32 (alternative info) = Some r \/
     alt_int32 (alternative info) = None /\
     alt_truncated_int32_to_number (alternative info) = Some r).

End Conversions.

(** ** Branches on root constants *)

(** The value a branch tests, as far as [BuildBranchIfRootConstant] looks
    into it: [LogicalNot] nodes over a root constant or over some other
    node. *)
Inductive BranchInput :=
| LogicalNot (value : BranchInput)
| RootConstant (index : RootIndex)
| OtherInput (id : nat).

(** What [BuildBranchIfRootConstant] builds: an unconditional jump to the
    jump target (with a dead merge into the fall-through), nothing but a dead
    merge into the jump target, or a [BranchIfRootConstant] on a node whose
    true target is either the jump target or the fall-through. *)
Inductive BranchDecision :=
| JumpAlways
| FallThroughAlways
| EmitBranchIfRootConstant (node : BranchInput) (root_index : RootIndex)
                           (true_target_is_jump_target : bool).

#[global] Instance RootIndex_eq_dec : EqDecision RootIndex.
Proof. solve_decision. Defined.

(** "Bypassing logical not(s) on the input and swapping true/false
    destinations." *)
Fixpoint bypass_logical_nots (node : BranchInput) (true_target_is_jump_target : bool)
    (jump_type : JumpType.t) : BranchInput * bool * JumpType.t :=
  match node with
  | LogicalNot value =>
      bypass_logical_nots value (negb true_target_is_jump_target)
                          (MaglevBranches.NegateJumpType jump_type)
  | _ => (node, true_target_is_jump_target, jump_type)
  end.

(** [BuildBranchIfRootConstant], with the answer of
    [CheckType (node, NodeType::kBoolean)] as a parameter. *)
Definition BuildBranchIfRootConstant (node_is_boolean : bool) (node : BranchInput)
    (jump_type : JumpType.t) (root_index : RootIndex) : BranchDecision :=
  let true_target_is_jump_target := MaglevBranches.is_kJumpIfTrue jump_type in
  if negb (bool_decide (root_index = kTrueValue)) &&
     negb (bool_decide (root_index = kFalseValue)) && node_is_boolean
  then
    if MaglevBranches.is_kJumpIfFalse jump_type then JumpAlways else FallThroughAlways
  else
    let '(node, true_target_is_jump_target, jump_type) :=
      bypass_logical_nots node true_target_is_jump_target jump_type in
    match node with
    | RootConstant c =>
        let constant_is_match := bool_decide (c = root_index) in
        if Bool.eqb constant_is_match (MaglevBranches.is_kJumpIfTrue jump_type)
        then JumpAlways else FallThroughAlways
    | _ => EmitBranchIfRootConstant node root_index true_target_is_jump_target
    end.

(** [BuildBranchIfTrue] *)
Definition BuildBranchIfTrue (node_is_boolean : bool) (node : BranchInput)
    (jump_type : JumpType.t) : BranchDecision :=
  BuildBranchIfRootConstant node_is_boolean node jump_type kTrueValue.

(** The boolean a tested value evaluates to, given the booleans of the nodes
    that are not looked into; a root constant counts as [true] when it is the
    true value. *)
Fixpoint boolean_value (other : nat -> bool) (node : BranchInput) : bool :=
  match node with
  | LogicalNot value => negb (boolean_value other value)
  | RootConstant index => bool_decide (index = kTrueValue)
  | OtherInput id => other id
  end.

(** Whether control goes to the jump target when the tested value has the
    given booleans. *)
Definition jumps (other : nat -> bool) (d : BranchDecision) : bool :=
  match d with
  | JumpAlways => true
  | FallThroughAlways => false
  | EmitBranchIfRootConstant node _ true_target_is_jump_target =>
      Bool.eqb (boolean_value other node) true_target_is_jump_target
  end.

(** ** Example states *)

Definition state_after_map_check : BuilderState :=
  mkBuilderState
    [mkNode (kOtherOpcode 0) [] kTagged;
     mkNode (kCheckMaps [receiver_map; other_map] kCheckHeapObject) [0%nat] kTagged]
    {[ 0%nat := mkNodeInfo (32 : @NodeType BitsetNodeType) true [receiver_map; other_map]
                  false (mkAlternativeNodes None None None None None) ]}
    false ∅ ∅ ∅ [receiver_map; other_map] true.

(** A value known to be a Smi. *)
Definition state_with_smi_node : BuilderState :=
  mkBuilderState [mkNode (kOtherOpcode 0) [] kTagged]
    {[ 0%nat := mkNodeInfo (30 : @NodeType BitsetNodeType) false [] false
                  (mkAlternativeNodes None None None None None) ]}
    false ∅ ∅ ∅ [] true.

Definition state_with_holey_float64_node : BuilderState :=
  mkBuilderState [mkNode (kOtherOpcode 0) [] kHoleyFloat64] ∅ false ∅ ∅ ∅ [] true.

Definition state_with_uint32_node : BuilderState :=
  mkBuilderState [mkNode (kOtherOpcode 0) [] kUint32] ∅ false ∅ ∅ ∅ [] true.

Definition state_with_smi_constant : BuilderState :=
  mkBuilderState [mkNode (kSmiConstant 300) [] kTagged] ∅ false ∅ ∅ ∅ [] true.

End MaglevConversions.

(* ===================================================================== *)
(** * Properties of src/heap/spaces.cc *)
(* ===================================================================== *)

Import Spaces.

Lemma to_size_t_id x : is_size_t x -> to_size_t x = x.
Proof. unfold is_size_t, to_size_t. intros H. apply Z.mod_small. exact H. Qed.

Lemma to_int_id x : kMinInt <= x <= kMaxInt -> to_int x = x.
Proof.
  unfold to_int, kMinInt, kMaxInt. intros H.
  rewrite Z.mod_small; lia.
Qed.

Lemma round_down_bounds x m : 0 < m -> 0 <= x -> 0 <= x - x mod m <= x.
Proof.
  intros Hm Hx. pose proof (Z.mod_pos_bound x m Hm).
  pose proof (Z.mod_le x m Hx Hm). lia.
Qed.

Lemma ComputeLimit_in_range (s : SpaceWithLinearArea) (start end_ min_size : Z) :
  is_size_t start -> is_size_t end_ -> is_size_t min_size ->
  0 < object_alignment s ->
  start + min_size <= end_ ->
  observer_step_in_range s start min_size ->
  ComputeLimit s start end_ min_size = spec_limit s start end_ min_size.
Proof.
  intros Hs He Hm Ha Hle Hobs.
  unfold ComputeLimit, spec_limit, observer_step_in_range in *.
  destruct (inline_allocation_disabled s).
  - apply to_size_t_id. unfold is_size_t in *. lia.
  - destruct (SupportsAllocationObserver s && IsActive (allocation_counter_ s)); [|reflexivity].
    destruct (Hobs eq_refl eq_refl) as (Hstep & Hint & Hsum).
    set (step := NextBytes (allocation_counter_ s)) in *.
    assert (Hs1 : is_size_t (step - 1)).
    { unfold is_size_t, kMaxSizeT, kMaxInt in *. lia. }
    pose proof (round_down_bounds (step - 1) (object_alignment s) Ha ltac:(lia)) as Hrd.
    unfold RoundSizeDownToObjectAlignment.
    rewrite (to_size_t_id (step - 1)) by exact Hs1.
    rewrite (to_int_id (step - 1)) by (unfold kMinInt, kMaxInt in *; lia).
    rewrite to_int_id by (unfold kMinInt, kMaxInt in *; lia).
    set (rounded := step - 1 - (step - 1) mod object_alignment s) in *.
    rewrite (to_size_t_id rounded) by (unfold is_size_t, kMaxSizeT, kMaxInt in *; lia).
    rewrite (to_size_t_id start) by exact Hs.
    rewrite (to_size_t_id end_) by exact He.
    rewrite (to_size_t_id (start + Z.max min_size rounded))
      by (unfold is_size_t in *; lia).
    apply to_size_t_id. unfold is_size_t in *. lia.
Qed.

(** ** [ComputeLimit] *)

(** C6. [ComputeLimit] misses the limit the specification gives when the
    observer step is large: with [end - start >= min_size], observers active
    and a next step of 2^31 + 1 bytes, the [DCHECK]s pass,
    [static_cast<int>(step - 1)] wraps, and [ComputeLimit] returns 2^31, below
    [start], where [min (start + max (min_size, round_down (next_step - 1)),
    end)] is [end]. *)
Lemma ComputeLimit_large_step_wraps :
  is_size_t 4294967296 /\ is_size_t 4294971392 /\ is_size_t 32 /\
  4294971392 - 4294967296 >= 32 /\
  ComputeLimit_dchecks space_with_large_step 4294967296 4294971392 32 = true /\
  ComputeLimit space_with_large_step 4294967296 4294971392 32 = 2147483648 /\
  spec_limit space_with_large_step 4294967296 4294971392 32 = 4294971392 /\
  ComputeLimit space_with_large_step 4294967296 4294971392 32 <>
    spec_limit space_with_large_step 4294967296 4294971392 32.
Proof.
  unfold is_size_t, kMaxSizeT.
  repeat split; try lia; try reflexivity.
  vm_compute. discriminate.
Qed.

(** X1. Within the machine ranges the three cases hold as written: if inline
    allocation is disabled, [ComputeLimit] returns [start + min_size];
    otherwise, if observers are supported and active, it returns
    [min (start + max (min_size, round_down (next_step - 1)), end)];
    otherwise it returns [end]. *)
Theorem ComputeLimit_cases (s : SpaceWithLinearArea) (start end_ min_size : Z) :
  is_size_t start -> is_size_t end_ -> is_size_t min_size ->
  0 < object_alignment s ->
  end_ - start >= min_size ->
  observer_step_in_range s start min_size ->
  (inline_allocation_disabled s = true ->
     ComputeLimit s start end_ min_size = start + min_size) /\
  (inline_allocation_disabled s = false ->
   SupportsAllocationObserver s && IsActive (allocation_counter_ s) = true ->
     let next_step := NextBytes (allocation_counter_ s) in
     ComputeLimit s start end_ min_size =
       Z.min (start + Z.max min_size
                (next_step - 1 - (next_step - 1) mod object_alignment s)) end_) /\
  (inline_allocation_disabled s = false ->
   SupportsAllocationObserver s && IsActive (allocation_counter_ s) = false ->
     ComputeLimit s start end_ min_size = end_).
Proof.
  intros Hs He Hm Ha Hle Hobs.
  rewrite (ComputeLimit_in_range s start end_ min_size) by (auto; lia).
  unfold spec_limit.
  repeat split; intros H1; try intros H2; rewrite H1; try rewrite H2; reflexivity.
Qed.

Lemma ComputeLimit_cases_witness :
  ComputeLimit space_with_small_step 4096 8192 32 =
    Z.min (4096 + Z.max 32 (1024 - 1 - (1024 - 1) mod 8)) 8192.
Proof.
  refine (proj1 (proj2 (ComputeLimit_cases space_with_small_step 4096 8192 32
                          _ _ _ _ _ _)) eq_refl eq_refl);
    try (unfold is_size_t, kMaxSizeT; simpl; lia).
  intros _ _. vm_compute. repeat split; discriminate.
Defined.

(** C7, as stated, fails in its second half: with observers active, a request
    larger than the next step gets a limit of [start + min_size], beyond
    [start + next_step] under any rounding to the alignment. *)
Lemma ComputeLimit_min_size_exceeds_step_counterexample :
  4096 + 256 <= 8192 /\
  ComputeLimit_dchecks space_with_step_16 4096 8192 256 = true /\
  SupportsAllocationObserver space_with_step_16 &&
    IsActive (allocation_counter_ space_with_step_16) = true /\
  ComputeLimit space_with_step_16 4096 8192 256 = 4352 /\
  step_bound_rounded space_with_step_16 4096 = 4112 /\
  ~ ComputeLimit space_with_step_16 4096 8192 256 <=
      step_bound_rounded space_with_step_16 4096.
Proof.
  repeat split; try lia; try reflexivity.
  vm_compute. intros H. apply H. reflexivity.
Qed.

(** C7 (amended). For every [start], [end], [min_size] with
    [end - start >= min_size], within the machine ranges, [ComputeLimit]
    returns a value in [[start + min_size, end]]; and when allocation observers
    are active, the returned limit never exceeds
    [start + max (min_size, round_down (next_step - 1))], which is below
    [start + next_step] whenever the request is smaller than the step. *)
Theorem ComputeLimit_bounds (s : SpaceWithLinearArea) (start end_ min_size : Z) :
  is_size_t start -> is_size_t end_ -> is_size_t min_size ->
  0 < object_alignment s ->
  end_ - start >= min_size ->
  observer_step_in_range s start min_size ->
  start + min_size <= ComputeLimit s start end_ min_size <= end_ /\
  (SupportsAllocationObserver s && IsActive (allocation_counter_ s) = true ->
     let next_step := NextBytes (allocation_counter_ s) in
     ComputeLimit s start end_ min_size <=
       start + Z.max min_size
                 (next_step - 1 - (next_step - 1) mod object_alignment s) /\
     (min_size < next_step ->
      ComputeLimit s start end_ min_size < start + next_step)).
Proof.
  intros Hs He Hm Ha Hle Hobs.
  rewrite (ComputeLimit_in_range s start end_ min_size) by (auto; lia).
  unfold spec_limit, observer_step_in_range, is_size_t in *.
  destruct (inline_allocation_disabled s).
  - split; [lia|]. intros _. simpl. split; lia.
  - destruct (SupportsAllocationObserver s && IsActive (allocation_counter_ s)).
    + destruct (Hobs eq_refl eq_refl) as (Hstep & Hint & Hsum).
      pose proof (round_down_bounds (NextBytes (allocation_counter_ s) - 1)
                    (object_alignment s) Ha ltac:(lia)) as Hrd.
      split; [lia|]. intros _. simpl. split; lia.
    + split; [lia | discriminate].
Qed.

Lemma ComputeLimit_bounds_witness :
  4096 + 32 <= ComputeLimit space_with_small_step 4096 8192 32 <= 8192.
Proof.
  refine (proj1 (ComputeLimit_bounds space_with_small_step 4096 8192 32
                   _ _ _ _ _ _));
    try (unfold is_size_t, kMaxSizeT; simpl; lia).
  intros _ _. vm_compute. repeat split; discriminate.
Defined.

(** ** [InvokeAllocationObservers] *)




(** ** Remembered sets *)

Lemma insert_all_recorded (l : list Z) (p : Page) :
  recorded (slot_set_old_to_new (insert_all p l)) =
    recorded (slot_set_old_to_new p) ∪ list_to_set l /\
  sweeping_slot_set_ (insert_all p l) = sweeping_slot_set_ p.
Proof.
  unfold insert_all. revert p.
  induction l as [|x l IH]; intros p; simpl.
  - split; [set_solver | reflexivity].
  - destruct (IH (RememberedSet_Insert p x)) as [Hrec Hsw].
    rewrite Hrec, Hsw. unfold RememberedSet_Insert.
    destruct (slot_set_old_to_new p); simpl; split;
      solve [set_solver | reflexivity].
Qed.

Lemma sweeping_insert_all_recorded (l : list Z) (p : Page) :
  recorded (sweeping_slot_set_ (foldl RememberedSetSweeping_Insert p l)) =
    recorded (sweeping_slot_set_ p) ∪ list_to_set l /\
  slot_set_old_to_new (foldl RememberedSetSweeping_Insert p l) =
    slot_set_old_to_new p /\
  (is_Some (sweeping_slot_set_ p) ->
   is_Some (sweeping_slot_set_ (foldl RememberedSetSweeping_Insert p l))).
Proof.
  revert p. induction l as [|x l IH]; intros p; simpl.
  - repeat split; [set_solver | tauto].
  - destruct (IH (RememberedSetSweeping_Insert p x)) as (Hrec & Hlive & Hsome).
    rewrite Hrec, Hlive. unfold RememberedSetSweeping_Insert in *.
    destruct (sweeping_slot_set_ p) eqn:E; simpl in *.
    + repeat split; [set_solver | intros _; apply Hsome; eauto].
    + repeat split; [set_solver | intros [? ?]; discriminate].
Qed.

Lemma Iterate_visits_recorded (p : Page) (x : Z) :
  x ∈ RememberedSet_Iterate_visits p <-> x ∈ recorded (slot_set_old_to_new p).
Proof.
  unfold RememberedSet_Iterate_visits, recorded.
  destruct (slot_set_old_to_new p); [apply elem_of_elements | set_solver].
Qed.

Lemma Iterate_visits_NoDup (p : Page) : NoDup (RememberedSet_Iterate_visits p).
Proof.
  unfold RememberedSet_Iterate_visits.
  destruct (slot_set_old_to_new p); [apply NoDup_elements | constructor].
Qed.

Lemma Iterate_visits_to_set (p : Page) :
  list_to_set (RememberedSet_Iterate_visits p) = recorded (slot_set_old_to_new p).
Proof.
  apply set_eq. intros x. rewrite elem_of_list_to_set. apply Iterate_visits_recorded.
Qed.

Lemma MergeOldToNewRememberedSets_recorded (p : Page) :
  exists p',
    MergeOldToNewRememberedSets p = Some p' /\
    sweeping_slot_set_ p' = None /\
    recorded (slot_set_old_to_new p') =
      recorded (sweeping_slot_set_ p) ∪ recorded (slot_set_old_to_new p).
Proof.
  unfold MergeOldToNewRememberedSets.
  destruct (sweeping_slot_set_ p) as [sw|] eqn:Esw.
  - destruct (slot_set_old_to_new p) as [lv|] eqn:Elv.
    + unfold ReleaseSlotSet_old_to_new, merge_callback_iterate. simpl.
      eexists. split; [reflexivity|]. simpl. split; [reflexivity|].
      destruct (sweeping_insert_all_recorded (RememberedSet_Iterate_visits p) p)
        as (Hrec & _ & _).
      rewrite Hrec, Iterate_visits_to_set, Esw, Elv. reflexivity.
    + rewrite Elv. eexists. split; [reflexivity|]. simpl.
      split; [reflexivity|]. rewrite Esw. simpl. set_solver.
  - exists p. split; [reflexivity|]. split; [exact Esw|]. simpl. set_solver.
Qed.

(** C2. For any page whose staging set is null, and any insertions before
    [MoveOldToNewRememberedSetForSweeping] and between that call and
    [MergeOldToNewRememberedSets], the merge returns, the staging
    [sweeping_slot_set_] is null again, and the live OLD_TO_NEW set holds
    exactly what the page recorded before together with the pre-sweep and the
    during-sweep insertions; iterating it visits every such slot once. *)
Theorem MergeOldToNewRememberedSets_preserves_entries
    (p : Page) (pre during : list Z) :
  sweeping_slot_set_ p = None ->
  exists p',
    sweep_protocol p pre during = Some p' /\
    sweeping_slot_set_ p' = None /\
    recorded (slot_set_old_to_new p') =
      recorded (slot_set_old_to_new p) ∪ list_to_set pre ∪ list_to_set during /\
    NoDup (RememberedSet_Iterate_visits p') /\
    (forall x, x ∈ RememberedSet_Iterate_visits p' <->
               x ∈ recorded (slot_set_old_to_new p) \/ x ∈ pre \/ x ∈ during).
Proof.
  intros Hnull. unfold sweep_protocol.
  destruct (insert_all_recorded pre p) as [Hpre Hpre_sw].
  unfold MoveOldToNewRememberedSetForSweeping.
  rewrite Hpre_sw, Hnull.
  set (p1 := set_slot_sets (insert_all p pre) None
                           (slot_set_old_to_new (insert_all p pre))).
  destruct (insert_all_recorded during p1) as [Hdur Hdur_sw].
  destruct (MergeOldToNewRememberedSets_recorded (insert_all p1 during))
    as (p' & Hmerge & Hsw' & Hrec').
  exists p'. split; [exact Hmerge|]. split; [exact Hsw'|].
  assert (Hfinal : recorded (slot_set_old_to_new p') =
            recorded (slot_set_old_to_new p) ∪ list_to_set pre ∪ list_to_set during).
  { rewrite Hrec', Hdur_sw, Hdur. subst p1. simpl. rewrite Hpre. set_solver. }
  split; [exact Hfinal|]. split; [apply Iterate_visits_NoDup|].
  intros x. rewrite Iterate_visits_recorded, Hfinal.
  rewrite !elem_of_union, !elem_of_list_to_set. tauto.
Qed.

(** A page with entries recorded before the sweep, swept while the mutator
    records the slots 24 and 8 again. *)
Lemma MergeOldToNewRememberedSets_preserves_entries_witness :
  exists p',
    sweep_protocol (mkPage (mkFreeList 6 5) None (Some {[ 40 ]}) None)
                   [8; 16; 8] [24; 8] = Some p' /\
    sweeping_slot_set_ p' = None /\
    recorded (slot_set_old_to_new p') =
      recorded (Some {[ 40 ]}) ∪ list_to_set [8; 16; 8] ∪ list_to_set [24; 8] /\
    NoDup (RememberedSet_Iterate_visits p') /\
    (forall x, x ∈ RememberedSet_Iterate_visits p' <->
               x ∈ recorded (Some ({[ 40 ]} : gset Z)) \/ x ∈ [8; 16; 8] \/ x ∈ [24; 8]).
Proof.
  apply (MergeOldToNewRememberedSets_preserves_entries
           (mkPage (mkFreeList 6 5) None (Some {[ 40 ]}) None) [8; 16; 8] [24; 8]).
  reflexivity.
Defined.

(** ** Free-list categories *)

Lemma allocate_categories_spec (indices : list Z) :
  forall (h : CppHeap) (slots : list (option nat)),
  NoDup indices ->
  (forall i, i ∈ indices -> 0 <= i < Z.of_nat (length slots)) ->
  exists h' slots',
    allocate_categories indices h slots = Some (h', slots') /\
    next_address h' = (next_address h + length indices)%nat /\
    live_categories h' =
      list_to_set (seq (next_address h) (length indices)) ∪ live_categories h /\
    live_arrays h' = live_arrays h /\
    length slots' = length slots /\
    (forall (k : nat) i, indices !! k = Some i ->
       slots' !! Z.to_nat i = Some (Some (next_address h + k)%nat)) /\
    (forall j : nat, Z.of_nat j ∉ indices -> slots' !! j = slots !! j).
Proof.
  induction indices as [|i rest IH]; intros h slots Hnd Hin; simpl.
  - exists h, slots. repeat split; first [done | lia | set_solver].
  - apply NoDup_cons in Hnd as [Hi Hnd].
    assert (Hib : 0 <= i < Z.of_nat (length slots)) by (apply Hin; left).
    rewrite bool_decide_eq_true_2 by exact Hib.
    set (h1 := snd (new_FreeListCategory h)).
    set (slots1 := <[Z.to_nat i := Some (next_address h)]> slots).
    destruct (IH h1 slots1 Hnd) as (h' & slots' & Hrun & Hnext & Hlive & Harr & Hlen & Hpop & Hkeep).
    { intros j Hj. subst slots1. rewrite length_insert. apply Hin. right. exact Hj. }
    exists h', slots'. split; [exact Hrun|].
    subst h1 slots1. simpl in *. rewrite length_insert in Hlen.
    repeat split; try assumption.
    + lia.
    + rewrite Hlive. set_solver.
    + intros k j Hk. destruct k as [|k]; simpl in Hk.
      * injection Hk as <-. rewrite Hkeep.
        -- rewrite Nat.add_0_r. apply list_lookup_insert_eq. lia.
        -- rewrite Z2Nat.id by lia. exact Hi.
      * rewrite (Hpop k j Hk). do 2 f_equal. lia.
    + intros j Hj. rewrite Hkeep by set_solver.
      apply list_lookup_insert_ne. intros <-. apply Hj.
      rewrite Z2Nat.id by lia. left.
Qed.

Lemma release_categories_spec (indices : list Z) :
  forall (h : CppHeap) (slots : list (option nat)),
  NoDup indices ->
  (forall i, i ∈ indices -> 0 <= i < Z.of_nat (length slots)) ->
  exists h' slots',
    release_categories indices h slots = Some (h', slots') /\
    next_address h' = next_address h /\
    live_arrays h' = live_arrays h /\
    (forall c, c ∈ live_categories h' <->
       c ∈ live_categories h /\
       ~ exists i, i ∈ indices /\ slots !! Z.to_nat i = Some (Some c)).
Proof.
  induction indices as [|i rest IH]; intros h slots Hnd Hin; simpl.
  - exists h, slots. do 3 (split; [reflexivity|]).
    intros c. split; [|tauto].
    intros Hc. split; [exact Hc|]. intros (i & Hi & _). set_solver.
  - apply NoDup_cons in Hnd as [Hi Hnd].
    assert (Hib : 0 <= i < Z.of_nat (length slots)) by (apply Hin; left).
    rewrite bool_decide_eq_true_2 by exact Hib.
    assert (Hrest : forall j, j ∈ rest -> 0 <= j < Z.of_nat (length slots))
      by (intros j Hj; apply Hin; right; exact Hj).
    assert (Hne : forall j, j ∈ rest -> Z.to_nat i <> Z.to_nat j).
    { intros j Hj Heq. apply Hi. pose proof (Hrest j Hj).
      replace i with j by lia. exact Hj. }
    destruct (slots !! Z.to_nat i) as [[c|]|] eqn:Eslot.
    + destruct (IH (delete_FreeListCategory c h) (<[Z.to_nat i := None]> slots) Hnd)
        as (h' & slots' & Hrun & Hnext & Harr & Hlive).
      { intros j Hj. rewrite length_insert. apply Hrest, Hj. }
      exists h', slots'. split; [exact Hrun|]. simpl in *.
      do 2 (split; [assumption|]).
      intros c0. rewrite Hlive, elem_of_difference, elem_of_singleton. split.
      * intros [[Hc Hcc] Hno]. split; [exact Hc|].
        intros (j & Hj & Hslot). apply elem_of_cons in Hj as [-> | Hj].
        -- congruence.
        -- apply Hno. exists j. split; [exact Hj|].
           rewrite list_lookup_insert_ne by (apply Hne, Hj). exact Hslot.
      * intros [Hc Hno]. split; [split; [exact Hc|]|].
        -- intros ->. apply Hno. exists i. split; [left | exact Eslot].
        -- intros (j & Hj & Hslot). apply Hno. exists j. split; [right; exact Hj|].
           rewrite list_lookup_insert_ne in Hslot by (apply Hne, Hj). exact Hslot.
    + destruct (IH h slots Hnd Hrest) as (h' & slots' & Hrun & Hnext & Harr & Hlive).
      exists h', slots'. split; [exact Hrun|].
      do 2 (split; [assumption|]).
      intros c0. rewrite Hlive. split; intros [Hc Hno]; (split; [exact Hc|]).
      * intros (j & Hj & Hslot). apply elem_of_cons in Hj as [-> | Hj]; [congruence|].
        apply Hno. eauto.
      * intros (j & Hj & Hslot). apply Hno. exists j. split; [right; exact Hj | exact Hslot].
    + destruct (IH h slots Hnd Hrest) as (h' & slots' & Hrun & Hnext & Harr & Hlive).
      exists h', slots'. split; [exact Hrun|].
      do 2 (split; [assumption|]).
      intros c0. rewrite Hlive. split; intros [Hc Hno]; (split; [exact Hc|]).
      * intros (j & Hj & Hslot). apply elem_of_cons in Hj as [-> | Hj]; [congruence|].
        apply Hno. eauto.
      * intros (j & Hj & Hslot). apply Hno. exists j. split; [right; exact Hj | exact Hslot].
Qed.

(** Whatever the page held, a completed release leaves no category array. *)
Lemma ReleaseFreeListCategories_null (kFirstCategory : Z) (p p' : Page) (h h' : CppHeap) :
  ReleaseFreeListCategories kFirstCategory p h = Some (p', h') ->
  categories_ p' = None.
Proof.
  unfold ReleaseFreeListCategories.
  destruct (categories_ p) as [arr|] eqn:E.
  - destruct (release_categories _ _ _) as [[h1 slots]|]; [|discriminate].
    intros [= <- _]. reflexivity.
  - intros [= <- _]. exact E.
Qed.

Lemma category_range_elem (kFirstCategory : Z) (p : Page) (i : Z) :
  i ∈ category_range kFirstCategory p <->
  kFirstCategory <= i <= last_category (free_list p).
Proof. unfold category_range. rewrite elem_of_seqZ. lia. Qed.

(** C8. A page whose category array is absent satisfies the invariant
    (absent, or every index of [[kFirstCategory, last_category]] populated);
    [AllocateFreeListCategories] returns with every index of the range
    populated by a live category and allocates exactly
    [last_category - kFirstCategory + 1] category objects; the following
    [ReleaseFreeListCategories] returns with [categories_] null and with the
    live categories and arrays of the C++ heap as they were before the
    allocation. *)
Theorem FreeListCategories_allocate_release
    (kFirstCategory : Z) (p : Page) (h : CppHeap) :
  categories_ p = None ->
  0 <= kFirstCategory <= last_category (free_list p) ->
  last_category (free_list p) < Z.of_nat (number_of_categories (free_list p)) ->
  heap_wf h ->
  categories_invariant kFirstCategory p /\
  exists p1 h1 p2 h2 arr,
    AllocateFreeListCategories kFirstCategory p h = Some (p1, h1) /\
    categories_ p1 = Some arr /\
    (forall i, kFirstCategory <= i <= last_category (free_list p) ->
       exists c, array_slots arr !! Z.to_nat i = Some (Some c) /\
                 c ∈ live_categories h1) /\
    categories_invariant kFirstCategory p1 /\
    Z.of_nat (size (live_categories h1 ∖ live_categories h)) =
      last_category (free_list p) - kFirstCategory + 1 /\
    ReleaseFreeListCategories kFirstCategory p1 h1 = Some (p2, h2) /\
    categories_ p2 = None /\
    categories_invariant kFirstCategory p2 /\
    live_categories h2 = live_categories h /\
    live_arrays h2 = live_arrays h.
Proof.
  intros Hnull Hfirst Hlast [Hwf_cat Hwf_arr].
  split; [left; exact Hnull|].
  set (range := category_range kFirstCategory p).
  set (n := number_of_categories (free_list p)) in *.
  set (h0 := snd (new_CategoryArray n h)).
  assert (Hnd : NoDup range) by apply NoDup_seqZ.
  assert (Hbounds : forall i, i ∈ range ->
            0 <= i < Z.of_nat (length (replicate n (@None nat)))).
  { intros i Hi%category_range_elem. rewrite length_replicate. lia. }
  destruct (allocate_categories_spec range h0 (replicate n None) Hnd Hbounds)
    as (h1 & slots1 & Hrun & Hnext & Hlive & Harr & Hlen & Hpop & _).
  assert (Hlen_range : length range = Z.to_nat (last_category (free_list p) - kFirstCategory + 1)).
  { subst range. unfold category_range. apply length_seqZ. }
  assert (Hbounds1 : forall i, i ∈ range -> 0 <= i < Z.of_nat (length slots1)).
  { intros i Hi. rewrite Hlen. apply Hbounds, Hi. }
  destruct (release_categories_spec range h1 slots1 Hnd Hbounds1)
    as (h2 & slots2 & Hrel & Hnext2 & Harr2 & Hlive2).
  subst h0. simpl in *.
  set (arr := {| array_address := next_address h; array_slots := slots1 |}).
  exists (set_categories p (Some arr)), h1, (set_categories p None),
         (delete_CategoryArray {| array_address := next_address h;
                                  array_slots := slots2 |} h2), arr.
  assert (Hpopulated : forall i, kFirstCategory <= i <= last_category (free_list p) ->
            exists (k : nat), (k < length range)%nat /\
              slots1 !! Z.to_nat i = Some (Some (S (next_address h) + k)%nat)).
  { intros i Hi%category_range_elem.
    apply list_elem_of_lookup in Hi as [k Hk].
    exists k. split; [eapply lookup_lt_Some, Hk | apply (Hpop k i Hk)]. }
  assert (Hfresh : forall c, c ∈ live_categories h1 <->
            c ∈ live_categories h \/
            (S (next_address h) <= c < S (next_address h) + length range)%nat).
  { intros c. rewrite Hlive, elem_of_union, elem_of_list_to_set, elem_of_seq. tauto. }
  split.
  { unfold AllocateFreeListCategories. simpl. fold n. fold range.
    rewrite Hrun. reflexivity. }
  split; [reflexivity|].
  split.
  { intros i Hi. destruct (Hpopulated i Hi) as (k & Hk & Hslot).
    eexists. split; [exact Hslot|]. apply Hfresh. right. lia. }
  split.
  { right. exists arr. split; [reflexivity|].
    intros i Hi. destruct (Hpopulated i Hi) as (k & _ & Hslot). eauto. }
  split.
  { replace (live_categories h1 ∖ live_categories h)
      with (list_to_set (C := gset nat) (seq (S (next_address h)) (length range))).
    - rewrite size_list_to_set by apply NoDup_seq.
      rewrite length_seq, Hlen_range. lia.
    - apply set_eq. intros c.
      rewrite elem_of_difference, Hfresh, elem_of_list_to_set, elem_of_seq.
      split; [intros Hc; split; [right; exact Hc|] | intros [[Hc|Hc] Hn]; [contradiction | exact Hc]].
      intros Hold%Hwf_cat. lia. }
  split.
  { unfold ReleaseFreeListCategories. simpl.
    change (category_range kFirstCategory (set_categories p (Some arr))) with range.
    rewrite Hrel. reflexivity. }
  split; [reflexivity|].
  split; [left; reflexivity|].
  split.
  - apply set_eq. intros c. simpl. rewrite Hlive2, Hfresh. split.
    + intros [[Hc|Hc] Hno]; [exact Hc|]. exfalso. apply Hno.
      destruct (lookup_lt_is_Some_2 range (c - S (next_address h))%nat ltac:(lia))
        as [i Hi].
      exists i. split; [eapply list_elem_of_lookup_2, Hi|].
      rewrite (Hpop _ _ Hi). do 2 f_equal. lia.
    + intros Hc. split; [left; exact Hc|].
      intros (i & Hi & Hslot).
      apply list_elem_of_lookup in Hi as [k Hk].
      rewrite (Hpop k i Hk) in Hslot. injection Hslot as Hslot.
      apply Hwf_cat in Hc. lia.
  - simpl. rewrite Harr2, Harr. apply set_eq. intros a.
    rewrite elem_of_difference, elem_of_union, !elem_of_singleton.
    split; [intros [[?|?] ?]; [contradiction | assumption]|].
    intros Ha. split; [right; exact Ha|]. apply Hwf_arr in Ha. lia.
Qed.

(** Scenario A of the specification: a page with three free-list categories. *)
Lemma FreeListCategories_allocate_release_witness :
  exists p1 h1 p2 h2,
    AllocateFreeListCategories 0 (mkPage (mkFreeList 3 2) None None None)
                               (mkCppHeap 0 ∅ ∅) = Some (p1, h1) /\
    Z.of_nat (size (live_categories h1 ∖ ∅)) = 2 - 0 + 1 /\
    ReleaseFreeListCategories 0 p1 h1 = Some (p2, h2) /\
    categories_ p2 = None /\
    live_categories h2 = ∅ /\ live_arrays h2 = ∅.
Proof.
  destruct (FreeListCategories_allocate_release 0
              (mkPage (mkFreeList 3 2) None None None) (mkCppHeap 0 ∅ ∅))
    as (_ & p1 & h1 & p2 & h2 & arr & Ha & _ & _ & _ & Hn & Hr & Hc & _ & Hl & Hla).
  - reflexivity.
  - simpl. lia.
  - simpl. lia.
  - split; simpl; intros a Ha; exfalso; revert Ha; apply not_elem_of_empty.
  - exists p1, h1, p2, h2. repeat split; assumption.
Defined.

(* ===================================================================== *)
(** * Properties of the Maglev graph builder: control flow and inlining *)
(* ===================================================================== *)

Import Maglev.

(** ** [ShouldInlineCall] *)

(** C10. A candidate that passes the earlier rejections of [ShouldInlineCall]
    and whose bytecode is shorter than
    [max_maglev_inlined_bytecode_size_small] is inlined whatever the inlining
    depth and the depth limit are; for a candidate at or above that threshold
    the answer is that of the size limit and the depth limit. *)
Theorem ShouldInlineCall_small_function_any_depth
    (b : MaglevGraphBuilder) (shared : SharedFunctionInfoRef)
    (feedback_vector : option nat) (call_frequency : float) :
  passes_earlier_checks b shared feedback_vector call_frequency ->
  let callee_length := bytecode_length (GetBytecodeArray shared) in
  (callee_length < max_maglev_inlined_bytecode_size_small (flags b) ->
     ShouldInlineCall b shared feedback_vector call_frequency = (true, b)) /\
  (max_maglev_inlined_bytecode_size_small (flags b) <= callee_length ->
     fst (ShouldInlineCall b shared feedback_vector call_frequency) =
       negb (max_maglev_inlined_bytecode_size (flags b) <? callee_length) &&
       negb (max_maglev_inline_depth (flags b) <? inlining_depth b)).
Proof.
  intros (Htotal & Hfv & Hrec & Hinl & Hreg & Hht & Hargs & Hfreq) len.
  unfold ShouldInlineCall.
  assert (Hc : (max_maglev_inlined_bytecode_size_cumulative (flags b) <?
                total_inlined_bytecode_size b) = false) by (apply Z.ltb_ge; lia).
  assert (Hh : (0 <? handler_table_size (GetBytecodeArray shared)) = false)
    by (apply Z.ltb_ge; lia).
  rewrite Hc. destruct feedback_vector as [fv|]; [|congruence].
  rewrite Hrec, Hinl, Hreg, Hh, Hargs, Hfreq. fold len.
  split; intros Hlen.
  - apply Z.ltb_lt in Hlen. rewrite Hlen. reflexivity.
  - apply Z.ltb_ge in Hlen. rewrite Hlen.
    destruct (max_maglev_inlined_bytecode_size (flags b) <? len); [reflexivity|].
    destruct (max_maglev_inline_depth (flags b) <? inlining_depth b); reflexivity.
Qed.

Lemma ShouldInlineCall_small_function_any_depth_witness :
  ShouldInlineCall deep_builder small_callee (Some 0%nat) 1%float = (true, deep_builder).
Proof.
  refine (proj1 (ShouldInlineCall_small_function_any_depth
                   deep_builder small_callee (Some 0%nat) 1%float _) _).
  - unfold passes_earlier_checks. simpl.
    repeat split; try lia; try reflexivity; discriminate.
  - simpl. lia.
Defined.

(** ** [TryFindNextBranch] *)

Lemma TryFindNextBranch_unfold (b : MaglevGraphBuilder) (inline_level : nat) :
  TryFindNextBranch b inline_level =
    scan_for_branch b
      match parent_ b with
      | Some parent => Some (TryFindNextBranch parent (S inline_level))
      | None => None
      end
      (after_current b) inline_level.
Proof. destruct b; reflexivity. Qed.

Lemma scan_for_branch_steps_over (b : MaglevGraphBuilder)
    (cross_return : option (option Z * nat)) (skipped it : list Instruction)
    (inline_level : nat) :
  Forall (fun i => is_stepped_over b i = true) skipped ->
  scan_for_branch b cross_return (skipped ++ it) inline_level =
    scan_for_branch b cross_return it inline_level.
Proof.
  induction 1 as [|i skipped Hi _ IH]; [reflexivity|].
  simpl. unfold is_stepped_over, stores_to_live_register in Hi.
  apply andb_true_iff in Hi as [Hmerge Hi].
  apply negb_true_iff in Hmerge. rewrite Hmerge.
  destruct (current_bytecode i); try discriminate; try exact IH;
    apply negb_true_iff in Hi; rewrite Hi; exact IH.
Qed.

Lemma scan_for_branch_bails (b : MaglevGraphBuilder)
    (cross_return : option (option Z * nat)) (i : Instruction)
    (rest : list Instruction) (inline_level : nat) :
  IsOffsetAMergePoint b (current_offset i) = true \/
  stores_to_live_register b i = true \/
  is_supported_bytecode (current_bytecode i) = false ->
  scan_for_branch b cross_return (i :: rest) inline_level = (None, inline_level).
Proof.
  intros H. simpl.
  destruct (IsOffsetAMergePoint b (current_offset i)); [reflexivity|].
  destruct H as [H | [H | H]]; [discriminate | |].
  - unfold stores_to_live_register in H.
    destruct (current_bytecode i); try discriminate; rewrite H; reflexivity.
  - destruct (current_bytecode i); try discriminate; reflexivity.
Qed.

(** C5. Let the forward scan of [TryFindNextBranch] step over some bytecodes
    and then meet bytecode [i].  If [i] sits on a merge point, or is a [Star]
    (long or short) into a parameter or a live register, or lies outside the
    supported set, no branch offset is returned.  If [i] is a [Return] off a
    merge point, the scan answers with the caller's scan, one inline level
    up, exactly when the builder is inlining, the inlined new-target is a
    root constant, the [Return] is the last bytecode and the inline exit
    offset is not a merge point; otherwise no branch offset is returned. *)
Theorem TryFindNextBranch_bails_or_crosses_return
    (b : MaglevGraphBuilder) (inline_level : nat)
    (skipped : list Instruction) (i : Instruction) (rest : list Instruction) :
  after_current b = skipped ++ i :: rest ->
  Forall (fun j => is_stepped_over b j = true) skipped ->
  (IsOffsetAMergePoint b (current_offset i) = true \/
   stores_to_live_register b i = true \/
   is_supported_bytecode (current_bytecode i) = false ->
     TryFindNextBranch b inline_level = (None, inline_level)) /\
  (IsOffsetAMergePoint b (current_offset i) = false ->
   current_bytecode i = kReturn ->
     TryFindNextBranch b inline_level =
       match parent_ b with
       | Some parent =>
           if inlined_new_target_is_root_constant b &&
              is_kIllegal (next_bytecode rest) &&
              negb (IsOffsetAMergePoint b (inline_exit_offset b))
           then TryFindNextBranch parent (S inline_level)
           else (None, inline_level)
       | None => (None, inline_level)
       end).
Proof.
  intros Hcode Hskip.
  rewrite TryFindNextBranch_unfold, Hcode, scan_for_branch_steps_over by exact Hskip.
  split.
  - apply scan_for_branch_bails.
  - intros Hmerge Hret. simpl. rewrite Hmerge, Hret.
    destruct (parent_ b) as [parent|]; [|reflexivity].
    destruct (inlined_new_target_is_root_constant b); [|reflexivity].
    destruct (is_kIllegal (next_bytecode rest)); [|reflexivity].
    destruct (IsOffsetAMergePoint b (inline_exit_offset b)); reflexivity.
Qed.

Lemma TryFindNextBranch_bails_or_crosses_return_witness :
  TryFindNextBranch fusing_callee 0 = TryFindNextBranch fusing_caller 1 /\
  TryFindNextBranch fusing_callee 0 = (Some 16, 1%nat).
Proof.
  split; [|reflexivity].
  refine (proj2 (TryFindNextBranch_bails_or_crosses_return fusing_callee 0
                   [mkInstruction 2 kMov (mkRegister 0 false);
                    mkInstruction 4 (kShortStar (mkRegister 1 false)) (mkRegister 0 false)]
                   (mkInstruction 6 kReturn (mkRegister 0 false)) [] _ _) _ _).
  - reflexivity.
  - repeat constructor.
  - reflexivity.
  - reflexivity.
Defined.

(** ** [PeelLoop] *)

Lemma occurrences_cons (offset x : Z) (l : list Z) :
  occurrences offset (x :: l) =
    (if bool_decide (x = offset) then 1 else 0) + occurrences offset l.
Proof.
  unfold occurrences. rewrite filter_cons.
  case_bool_decide; case_decide; try contradiction; simpl length; lia.
Qed.

Lemma occurrences_nonneg (offset : Z) (l : list Z) : 0 <= occurrences offset l.
Proof. unfold occurrences. lia. Qed.

Lemma occurrences_elem (offset : Z) (l : list Z) :
  offset ∈ l -> 0 < occurrences offset l.
Proof.
  induction l as [|x l IH]; intros Hin; [set_solver|].
  rewrite occurrences_cons. pose proof (occurrences_nonneg offset l).
  apply elem_of_cons in Hin as [-> | Hin].
  - rewrite bool_decide_eq_true_2 by reflexivity. lia.
  - specialize (IH Hin). case_bool_decide; lia.
Qed.

(** While [in_peeled_iteration_] is set, every decrement of a predecessor
    count is recorded in [decremented_predecessor_offsets_]. *)
Lemma run_dead_merge_recorded (b : MaglevGraphBuilder) (c : DeadMergeCall) (offset : Z) :
  in_peeled_iteration_ b = true ->
  in_peeled_iteration_ (run_dead_merge b c) = true /\
  NumPredecessors (run_dead_merge b c) offset +
    occurrences offset (decremented_predecessor_offsets_ (run_dead_merge b c)) =
  NumPredecessors b offset + occurrences offset (decremented_predecessor_offsets_ b).
Proof.
  intros Hpeel.
  assert (Hstep : forall t,
    <[t := NumPredecessors b t - 1]> (predecessors_ b) !!! offset +
      occurrences offset (t :: decremented_predecessor_offsets_ b) =
    NumPredecessors b offset + occurrences offset (decremented_predecessor_offsets_ b)).
  { intros t. rewrite occurrences_cons. unfold NumPredecessors.
    case_bool_decide as Ht.
    - subst t. rewrite lookup_total_insert_eq. lia.
    - rewrite lookup_total_insert_ne by exact Ht. lia. }
  destruct c as [t|t]; simpl.
  - unfold MergeDeadIntoFrameState. split; [exact Hpeel|].
    rewrite Hpeel. apply Hstep.
  - unfold MergeDeadLoopIntoFrameState.
    destruct (merge_states_ b !! t); [|split; [exact Hpeel | reflexivity]].
    split; [exact Hpeel|]. rewrite Hpeel. apply Hstep.
Qed.

Lemma peeled_pass_recorded (pass : list DeadMergeCall) :
  forall (b : MaglevGraphBuilder) (offset : Z),
  in_peeled_iteration_ b = true ->
  NumPredecessors (foldl run_dead_merge b pass) offset +
    occurrences offset (decremented_predecessor_offsets_ (foldl run_dead_merge b pass)) =
  NumPredecessors b offset + occurrences offset (decremented_predecessor_offsets_ b).
Proof.
  induction pass as [|c pass IH]; intros b offset Hpeel; [reflexivity|].
  simpl. destruct (run_dead_merge_recorded b c offset Hpeel) as [Hpeel' Hstep].
  rewrite IH by exact Hpeel'. exact Hstep.
Qed.

Lemma reset_predecessors_lookup (current : Z) (decremented : list Z) :
  forall (predecessors : gmap Z Z) (offset : Z),
  reset_predecessors current decremented predecessors !!! offset =
    predecessors !!! offset +
    (if offset <=? current then occurrences offset decremented else 0).
Proof.
  induction decremented as [|back rest IH]; intros predecessors offset; simpl.
  - unfold occurrences. simpl. destruct (offset <=? current); lia.
  - rewrite IH, occurrences_cons.
    destruct (back <=? current) eqn:Hback.
    + case_bool_decide as Heq.
      * subst back. rewrite Hback, lookup_total_insert_eq. lia.
      * rewrite lookup_total_insert_ne by exact Heq.
        destruct (offset <=? current); lia.
    + case_bool_decide as Heq.
      * subst back. rewrite Hback. lia.
      * destruct (offset <=? current); lia.
Qed.

(** C4, as stated, fails: the peeled pass decrements the counts of offsets 20
    and 50 while the loop header is at offset 10 and the [JumpLoop] at offset
    40.  Offset 50 lies beyond the current position (and beyond the header,
    where the builder resumes) and is left decremented; offset 20 lies before
    the current position and gets its pre-peel count back. *)
Lemma PeelLoop_restores_up_to_current_counterexample :
  exists b',
    PeelLoop peeling_builder peeled_pass_example true = Some b' /\
    offset_at peeling_builder (iterator_ peeling_builder) = Some 10 /\
    offset_at peeling_builder 2 = Some 40 /\
    decrements_of peeling_builder peeled_pass_example true 2 50 = 1 /\
    decrements_of peeling_builder peeled_pass_example true 2 20 = 1 /\
    (40 < 50 /\ NumPredecessors peeling_builder 50 = 2 /\ NumPredecessors b' 50 = 1) /\
    (20 <= 40 /\ NumPredecessors peeling_builder 20 = 2 /\ NumPredecessors b' 20 = 2).
Proof.
  eexists. split; [reflexivity|].
  repeat split; try lia; vm_compute; reflexivity.
Qed.

(** C4 (amended). When [PeelLoop] has run the peeled pass up to its
    [JumpLoop] at offset [current], it returns; the predecessor count of every
    offset at or before [current] is back at its pre-peel value, and the count
    of an offset beyond [current] stays lowered by the decrements of the pass.
    The loop header is the exception when the pass ended without an open
    block: its count is set to zero. *)
Theorem PeelLoop_restores_up_to_current
    (b : MaglevGraphBuilder) (pass : list DeadMergeCall) (block_open : bool)
    (loop_header current : Z) (jump_loop : nat) :
  decremented_predecessor_offsets_ b = [] ->
  offset_at b (iterator_ b) = Some loop_header ->
  find_jump_loop (bytecodes (bytecode b)) (iterator_ b) = Some jump_loop ->
  offset_at b jump_loop = Some current ->
  exists b',
    PeelLoop b pass block_open = Some b' /\
    decremented_predecessor_offsets_ b' = [] /\
    (forall offset, block_open = true \/ offset <> loop_header ->
       (offset <= current ->
          NumPredecessors b' offset = NumPredecessors b offset) /\
       (current < offset ->
          NumPredecessors b' offset =
            NumPredecessors b offset - decrements_of b pass block_open jump_loop offset)) /\
    (block_open = false -> NumPredecessors b' loop_header = 0).
Proof.
  intros Hempty Hheader Hjump Hcurrent.
  unfold PeelLoop. rewrite Hheader, Hjump, Hcurrent.
  eexists. split; [reflexivity|].
  set (b1 := with_position b (iterator_ b) true false (current_block_ b)
                           (next_handler_table_index_ b)).
  assert (Hrec : forall offset,
    NumPredecessors (foldl run_dead_merge b1 pass) offset +
      occurrences offset (decremented_predecessor_offsets_ (foldl run_dead_merge b1 pass)) =
    NumPredecessors b offset).
  { intros offset. rewrite (peeled_pass_recorded pass b1 offset eq_refl).
    subst b1. unfold NumPredecessors. simpl. rewrite Hempty.
    unfold occurrences. simpl. lia. }
  assert (Hreset : forall offset,
    reset_predecessors current
      (decremented_predecessor_offsets_ (after_peeled_pass b pass block_open jump_loop))
      (predecessors_ (after_peeled_pass b pass block_open jump_loop)) !!! offset =
    if offset <=? current then NumPredecessors b offset
    else NumPredecessors b offset - decrements_of b pass block_open jump_loop offset).
  { intros offset. rewrite reset_predecessors_lookup.
    unfold decrements_of, after_peeled_pass. fold b1. simpl.
    specialize (Hrec offset). unfold NumPredecessors in *.
    destruct (offset <=? current); lia. }
  unfold after_peeled_pass at 1 2 3. simpl. fold b1.
  destruct block_open; simpl.
  - split; [reflexivity|]. split; [|discriminate].
    intros offset _. unfold NumPredecessors at 1 3. simpl.
    rewrite Hreset. split; intros Hle.
    + apply Z.leb_le in Hle. rewrite Hle. reflexivity.
    + apply Z.leb_gt in Hle. rewrite Hle. reflexivity.
  - split; [reflexivity|]. split.
    + intros offset [Hfalse | Hne]; [discriminate|].
      unfold NumPredecessors at 1 3. simpl.
      rewrite lookup_total_insert_ne by congruence.
      rewrite Hreset. split; intros Hle.
      * apply Z.leb_le in Hle. rewrite Hle. reflexivity.
      * apply Z.leb_gt in Hle. rewrite Hle. reflexivity.
    + intros _. unfold NumPredecessors. simpl. apply lookup_total_insert_eq.
Qed.

Lemma PeelLoop_restores_up_to_current_witness :
  exists b',
    PeelLoop peeling_builder peeled_pass_example true = Some b' /\
    decremented_predecessor_offsets_ b' = [] /\
    (forall offset, true = true \/ offset <> 10 ->
       (offset <= 40 ->
          NumPredecessors b' offset = NumPredecessors peeling_builder offset) /\
       (40 < offset ->
          NumPredecessors b' offset =
            NumPredecessors peeling_builder offset -
            decrements_of peeling_builder peeled_pass_example true 2 offset)) /\
    (true = false -> NumPredecessors b' 10 = 0).
Proof.
  apply (PeelLoop_restores_up_to_current peeling_builder peeled_pass_example
           true 10 40 2); reflexivity.
Defined.

(* ===================================================================== *)
(** * Properties of the Maglev graph builder: conversions and map checks *)
(* ===================================================================== *)

Import MaglevGraph.

(** ** Representation conversions *)

Section ConversionProofs.
Context `{NodeTypeLattice} (env : Environment).

Lemma extends_refl s : extends s s.
Proof. split; [exists []; rewrite app_nil_r|]; reflexivity. Qed.

Lemma extends_trans s1 s2 s3 : extends s1 s2 -> extends s2 s3 -> extends s1 s3.
Proof.
  intros [[e1 H1] Hh1] [[e2 H2] Hh2]. split.
  - exists (e1 ++ e2). rewrite H2, H1, app_assoc. reflexivity.
  - congruence.
Qed.

Lemma extends_lookup s s' v (n : Node) :
  extends s s' -> nodes s !! v = Some n -> nodes s' !! v = Some n.
Proof.
  intros [[extra ->] _] Hn. apply lookup_app_l_Some. exact Hn.
Qed.

Lemma RecordUseReprHintIfPhi_first s v n r :
  nodes s !! v = Some n ->
  exists s', RecordUseReprHintIfPhi v r s = Some (tt, s') /\
    nodes s' = nodes s /\ known_node_aspects s' = known_node_aspects s /\
    int32_constants s' = int32_constants s /\
    float64_constants s' = float64_constants s /\
    hint_recorded s' v n r.
Proof.
  intros Hn. unfold RecordUseReprHintIfPhi, hint_recorded. rewrite Hn.
  destruct (is_phi n) eqn:Hphi.
  - case_bool_decide as Hin.
    + eexists. repeat split; try reflexivity. intros _. exact Hin.
    + eexists. repeat split; try reflexivity. simpl. intros _.
      rewrite lookup_insert_eq. simpl. left.
  - eexists. repeat split; try reflexivity. discriminate.
Qed.


Lemma grows_refl value s : grows value s s.
Proof. repeat split; try reflexivity; [apply extends_refl | eauto]. Qed.

Lemma grows_trans value s1 s2 s3 :
  grows value s1 s2 -> grows value s2 s3 -> grows value s1 s3.
Proof.
  intros (He1 & Hi1 & Hf1 & Ha1) (He2 & Hi2 & Hf2 & Ha2).
  repeat split; try congruence; try (eapply extends_trans; eassumption).
  intros info Hinfo. destruct (Ha1 info Hinfo) as (info1 & Hinfo1 & Halt1).
  destruct (Ha2 info1 Hinfo1) as (info2 & Hinfo2 & Halt2).
  exists info2. split; [exact Hinfo2 | congruence].
Qed.

Lemma AddNewNode_grows value op ins s :
  exists r s', AddNewNode op ins s = Some (r, s') /\ grows value s s'.
Proof.
  eexists _, _. split; [reflexivity|].
  repeat split; try reflexivity; simpl; eauto.
Qed.

Lemma StaticTypeForNode_returns (n : Node) :
  value_representation n <> kWord64 -> exists t, StaticTypeForNode env n = Some t.
Proof.
  unfold StaticTypeForNode. destruct (value_representation n); eauto. congruence.
Qed.

Lemma update_info_grows value f s info :
  known_node_aspects s !! value = Some info ->
  alternative (f info) = alternative info ->
  exists s', update_info value f s = Some (tt, s') /\ grows value s s'.
Proof.
  intros Hinfo Halt. unfold update_info. rewrite Hinfo.
  eexists. split; [reflexivity|].
  repeat split; try reflexivity; simpl.
  - exists []. rewrite app_nil_r. reflexivity.
  - intros info0 Hinfo0. rewrite lookup_insert_eq. eexists. split; [reflexivity|].
    congruence.
Qed.

Lemma GetOrCreateInfoFor_grows value s :
  exists info s', GetOrCreateInfoFor value s = Some (info, s') /\
    grows value s s' /\ known_node_aspects s' !! value = Some info.
Proof.
  unfold GetOrCreateInfoFor.
  destruct (known_node_aspects s !! value) as [info|] eqn:Hinfo.
  - exists info, s. split; [reflexivity|]. split; [apply grows_refl | exact Hinfo].
  - eexists _, _. split; [reflexivity|]. split.
    + repeat split; try reflexivity; simpl.
      * exists []. rewrite app_nil_r. reflexivity.
      * intros info0 Hinfo0. congruence.
    + simpl. apply lookup_insert_eq.
Qed.

Lemma EnsureType_grows value (n : Node) type s :
  nodes s !! value = Some n -> value_representation n <> kWord64 ->
  exists r s', EnsureType env value type s = Some (r, s') /\ grows value s s'.
Proof.
  intros Hn Hrep. unfold EnsureType, static_type, bind, get_node. rewrite Hn.
  destruct (StaticTypeForNode_returns n Hrep) as [t ->]. simpl.
  destruct (NodeTypeIs t type).
  { eexists _, _. split; [reflexivity | apply grows_refl]. }
  destruct (GetOrCreateInfoFor_grows value s) as (info & s1 & -> & Hg1 & Hinfo1).
  destruct (NodeTypeIs (type_ info) type).
  { eexists _, _. split; [reflexivity | exact Hg1]. }
  destruct (update_info_grows value (NodeInfo_CombineType type) s1 info Hinfo1 eq_refl)
    as (s2 & -> & Hg2).
  eexists _, _. split; [reflexivity|]. eapply grows_trans; eassumption.
Qed.

Lemma grows_lookup value s s' v (n : Node) :
  grows value s s' -> nodes s !! v = Some n -> nodes s' !! v = Some n.
Proof. intros [He _]. apply extends_lookup, He. Qed.

Lemma BuildSmiUntag_grows value (n : Node) s :
  nodes s !! value = Some n -> value_representation n <> kWord64 ->
  exists r s', BuildSmiUntag env value s = Some (r, s') /\ grows value s s'.
Proof.
  intros Hn Hrep. unfold BuildSmiUntag, bind.
  destruct (EnsureType_grows value n kSmi s Hn Hrep) as (r & s1 & -> & Hg1).
  destruct (fst r).
  - destruct (AddNewNode_grows value kUnsafeSmiUntag [value] s1) as (r2 & s2 & -> & Hg2).
    eexists _, _. split; [reflexivity|]. eapply grows_trans; eassumption.
  - destruct (AddNewNode_grows value kCheckedSmiUntag [value] s1) as (r2 & s2 & -> & Hg2).
    eexists _, _. split; [reflexivity|]. eapply grows_trans; eassumption.
Qed.


Lemma hint_recorded_extends s s' v n r :
  extends s s' -> hint_recorded s v n r -> hint_recorded s' v n r.
Proof. intros [_ Hh] Hrec. unfold hint_recorded in *. rewrite Hh. exact Hrec. Qed.

Lemma set_int32_cached value r s info :
  known_node_aspects s !! value = Some info ->
  exists s', set_int32 value r s = Some (r, s') /\ extends s s' /\
    cached_in s' value alt_int32 r.
Proof.
  intros Hinfo. unfold set_int32, bind, update_info, ret. rewrite Hinfo.
  eexists. split; [reflexivity|]. split.
  - split; [exists []; simpl; rewrite app_nil_r|]; reflexivity.
  - eexists. simpl. rewrite lookup_insert_eq. split; reflexivity.
Qed.



Lemma GetInt32Constant_cached c s :
  exists r s', GetInt32Constant c s = Some (r, s') /\ extends s s' /\
    int32_constants s' !! c = Some r.
Proof.
  unfold GetInt32Constant. destruct (int32_constants s !! c) as [r|] eqn:Hc.
  - exists r, s. split; [reflexivity|]. split; [apply extends_refl | exact Hc].
  - eexists _, _. split; [reflexivity|]. split.
    + split; [eexists|]; reflexivity.
    + simpl. apply lookup_insert_eq.
Qed.



Lemma build_then_store (build : M nat) (setter : nat -> nat -> M nat)
    (slot : AlternativeNodes -> option nat) (value : nat) (s1 : BuilderState)
    (info : NodeInfo) :
  (forall r s i, known_node_aspects s !! value = Some i ->
     exists s', setter value r s = Some (r, s') /\ extends s s' /\
       cached_in s' value slot r) ->
  known_node_aspects s1 !! value = Some info ->
  (exists r s2, build s1 = Some (r, s2) /\ grows value s1 s2) ->
  exists r s3, bind build (fun n => setter value n) s1 = Some (r, s3) /\
    extends s1 s3 /\ cached_in s3 value slot r.
Proof.
  intros Hset Hinfo (r & s2 & Hbuild & He2 & _ & _ & Ha2).
  destruct (Ha2 info Hinfo) as (info2 & Hinfo2 & _).
  destruct (Hset r s2 info2 Hinfo2) as (s3 & Hs3 & He3 & Hc3).
  exists r, s3. unfold bind. rewrite Hbuild. split; [exact Hs3|].
  split; [eapply extends_trans; eassumption | exact Hc3].
Qed.

Lemma AddNewNode_then_store (op : Opcode) (ins : list nat)
    (setter : nat -> nat -> M nat) (slot : AlternativeNodes -> option nat)
    (value : nat) (s1 : BuilderState) (info : NodeInfo) :
  (forall r s i, known_node_aspects s !! value = Some i ->
     exists s', setter value r s = Some (r, s') /\ extends s s' /\
       cached_in s' value slot r) ->
  known_node_aspects s1 !! value = Some info ->
  exists r s3, bind (AddNewNode op ins) (fun n => setter value n) s1 = Some (r, s3) /\
    extends s1 s3 /\ cached_in s3 value slot r.
Proof.
  intros Hset Hinfo. eapply build_then_store; [exact Hset | exact Hinfo|].
  apply AddNewNode_grows.
Qed.

(** From a stored alternative to the state the second request meets. *)
Ltac stored Hstore s0 Hg1 Hh0 :=
  let r := fresh "r" in let s3 := fresh "s" in
  let Hrun := fresh "Hrun" in let He := fresh "He" in let Hc := fresh "Hc" in
  let Hext := fresh "Hext" in
  destruct Hstore as (r & s3 & Hrun & He & Hc);
  exists r, s3; split; [exact Hrun|];
  assert (Hext : extends s0 s3) by (eapply extends_trans; [apply Hg1 | exact He]);
  split; [eapply extends_lookup; eassumption|];
  split;
    [ first [ eapply hint_recorded_extends; [exact Hext | exact Hh0]
            | let Hr := fresh in
              intros Hr; eapply hint_recorded_extends; [exact Hext | exact (Hh0 Hr)] ]
    | first [ right; right; split; [congruence|]; split; [assumption | exact Hc]
            | right; split; [congruence | exact Hc] ] ].

Lemma GetInt32_first s value n :
  nodes s !! value = Some n -> value_representation n <> kWord64 ->
  exists r s1, GetInt32 env value s = Some (r, s1) /\ int32_ready env s1 value n r.
Proof.
  intros Hn Hrep. unfold GetInt32. unfold bind at 1.
  destruct (RecordUseReprHintIfPhi_first s value n kUseInt32 Hn)
    as (s0 & -> & Hnodes0 & _ & _ & _ & Hh0).
  assert (Hn0 : nodes s0 !! value = Some n) by (rewrite Hnodes0; exact Hn).
  unfold bind at 1. unfold get_node. rewrite Hn0.
  destruct (value_representation n) eqn:Erep; try congruence.
  2: { exists value, s0. split; [reflexivity|].
       split; [exact Hn0|]. split; [exact Hh0|]. left. split; [exact Erep | reflexivity]. }
  all: destruct (GetInt32_constant env n) as [c|] eqn:Ec;
    [ destruct (GetInt32Constant_cached c s0) as (r & s1 & -> & He & Hc);
      exists r, s1; split; [reflexivity|];
      split; [eapply extends_lookup; eassumption|];
      split; [eapply hint_recorded_extends; eassumption|];
      right; left; split; [congruence | eauto] |];
    unfold bind at 1;
    destruct (GetOrCreateInfoFor_grows value s0) as (info & s1 & -> & Hg1 & Hinfo1);
    (destruct (alt_int32 (alternative info)) as [alt|] eqn:Ealt;
      [ exists alt, s1; split; [reflexivity|];
        split; [eapply grows_lookup; eassumption|];
        split; [eapply hint_recorded_extends; [apply Hg1 | exact Hh0]|];
        right; right; split; [congruence|]; split; [exact Ec|];
        exists info; split; assumption |]).
  - (* kTagged *)
    assert (Hstore := build_then_store (BuildSmiUntag env value) set_int32 alt_int32
      value s1 info (set_int32_cached value) Hinfo1
      (BuildSmiUntag_grows value n s1 (grows_lookup _ _ _ _ _ Hg1 Hn0)
         ltac:(congruence))).
    stored Hstore s0 Hg1 Hh0.
  - (* kUint32 *)
    destruct (NodeTypeIsSmi (type_ info)).
    + assert (Hstore := AddNewNode_then_store kTruncateUint32ToInt32 [value]
        set_int32 alt_int32 value s1 info (set_int32_cached value) Hinfo1).
      stored Hstore s0 Hg1 Hh0.
    + assert (Hstore := AddNewNode_then_store kCheckedUint32ToInt32 [value]
        set_int32 alt_int32 value s1 info (set_int32_cached value) Hinfo1).
      stored Hstore s0 Hg1 Hh0.
  - assert (Hstore := AddNewNode_then_store kCheckedTruncateFloat64ToInt32 [value]
      set_int32 alt_int32 value s1 info (set_int32_cached value) Hinfo1).
    stored Hstore s0 Hg1 Hh0.
  - assert (Hstore := AddNewNode_then_store kCheckedTruncateFloat64ToInt32 [value]
      set_int32 alt_int32 value s1 info (set_int32_cached value) Hinfo1).
    stored Hstore s0 Hg1 Hh0.
Qed.





End ConversionProofs.



(** ** [BuildCheckMaps] *)

Section MapCheckProofs.
Context `{NodeTypeLattice} (env : Environment).

Lemma InsertMap_flags (m : KnownMapsMerger) (map : MapRef) :
  requested_maps_ (InsertMap env m map) = requested_maps_ m /\
  known_maps_are_subset_of_requested_maps_ (InsertMap env m map) =
    known_maps_are_subset_of_requested_maps_ m.
Proof. split; reflexivity. Qed.

Lemma intersect_subset (type : NodeType) (known : list MapRef) :
  forall m : KnownMapsMerger,
  (forall map, map ∈ known -> map ∈ requested_maps_ m) ->
  requested_maps_ (foldl (intersect_step env type) m known) = requested_maps_ m /\
  known_maps_are_subset_of_requested_maps_ (foldl (intersect_step env type) m known) =
    known_maps_are_subset_of_requested_maps_ m.
Proof.
  induction known as [|map known IH]; intros m Hin; [split; reflexivity|].
  simpl.
  assert (Hstep : requested_maps_ (intersect_step env type m map) = requested_maps_ m /\
            known_maps_are_subset_of_requested_maps_ (intersect_step env type m map) =
              known_maps_are_subset_of_requested_maps_ m).
  { unfold intersect_step.
    rewrite bool_decide_eq_true_2 by (apply Hin; left).
    destruct (IsInstanceOfNodeType env map type); split; reflexivity. }
  destruct Hstep as [Hreq Hsub].
  destruct (IH (intersect_step env type m map)) as [Hreq' Hsub'].
  { intros map' Hmap'. rewrite Hreq. apply Hin. right. exact Hmap'. }
  split; congruence.
Qed.


Lemma IntersectWithKnownNodeAspects_subset (maps : list MapRef) (info : NodeInfo) :
  possible_maps_are_known info = true ->
  (forall map, map ∈ possible_maps info -> map ∈ maps) ->
  known_maps_are_subset_of_requested_maps_
    (IntersectWithKnownNodeAspects env (KnownMapsMerger_new maps) (Some info)) = true.
Proof.
  intros Hknown Hin. unfold IntersectWithKnownNodeAspects. rewrite Hknown.
  destruct (intersect_subset (type_ info) (possible_maps info)
              (KnownMapsMerger_new maps) Hin) as [_ Hsub].
  destruct (intersect_set_ _); exact Hsub.
Qed.



Lemma TryGetConstant_state (object : nat) (s s' : BuilderState) (c : option ObjectRef) :
  TryGetConstant env object s = Some (c, s') -> s' = s.
Proof.
  unfold TryGetConstant. destruct (TryGetConstant_fuel _ _ _ _); [|discriminate].
  intros [= _ <-]. reflexivity.
Qed.

(** The state after the first three steps of [BuildCheckMaps_known]. *)
Lemma BuildCheckMaps_known_subset (object : nat) (maps : list MapRef)
    (s : BuilderState) (node : Node) (info : NodeInfo) :
  nodes s !! object = Some node ->
  value_representation node <> kWord64 ->
  known_node_aspects s !! object = Some info ->
  possible_maps_are_known info = true ->
  (forall map, map ∈ possible_maps info -> map ∈ maps) ->
  exists s' info',
    BuildCheckMaps_known env object maps s = Some (Done, s') /\
    nodes s' = nodes s /\
    known_node_aspects s' = <[object := info']> (known_node_aspects s) /\
    possible_maps_are_known info' = true /\
    possible_maps info' = possible_maps info /\
    alternative info' = alternative info.
Proof.
  intros Hn Hrep Hinfo Hknown Hin.
  unfold BuildCheckMaps_known, bind, GetOrCreateInfoFor, static_type, bind, get_node.
  rewrite Hinfo, Hn.
  destruct (StaticTypeForNode env node) as [t|] eqn:Hstatic.
  2: { unfold StaticTypeForNode in Hstatic.
       destruct (value_representation node); congruence. }
  unfold ret, update_info. rewrite Hinfo. unfold get_state. simpl.
  rewrite lookup_insert_eq.
  rewrite (IntersectWithKnownNodeAspects_subset maps (NodeInfo_CombineType t info))
    by assumption.
  unfold info_of. simpl. rewrite lookup_insert_eq.
  destruct (NodeTypeIs _ _).
  - eexists _, _. split; [reflexivity|]. repeat split; reflexivity || assumption.
  - simpl. rewrite lookup_insert_eq. eexists _, _. split; [reflexivity|].
    simpl. rewrite insert_insert_eq. repeat split; reflexivity || assumption.
Qed.


End MapCheckProofs.




(* ===================================================================== *)
(** * Further properties of src/heap/spaces.cc *)
(* ===================================================================== *)

Import SpacesAreas.

(** ** Remembered sets: the two halves of the sweeping protocol *)

(** X3. On a page that is not staging a set, moving the OLD_TO_NEW set for
    sweeping and merging straight back is the identity: the move returns
    with the live set detached into [sweeping_slot_set_], and
    [MergeOldToNewRememberedSets] then returns the page as it was. *)
Theorem MoveThenMerge_restores_page (p : Page) :
  sweeping_slot_set_ p = None ->
  exists p1,
    MoveOldToNewRememberedSetForSweeping p = Some p1 /\
    slot_set_old_to_new p1 = None /\
    sweeping_slot_set_ p1 = slot_set_old_to_new p /\
    MergeOldToNewRememberedSets p1 = Some p.
Proof.
  intros Hnull. destruct p as [fl cats live sweeping]. simpl in Hnull. subst sweeping.
  eexists. split; [reflexivity|]. do 2 (split; [reflexivity|]).
  unfold MergeOldToNewRememberedSets. simpl. destruct live; reflexivity.
Qed.

Lemma MoveThenMerge_restores_page_witness :
  exists p1,
    MoveOldToNewRememberedSetForSweeping
      (mkPage (mkFreeList 6 5) None (Some {[ 40 ]}) None) = Some p1 /\
    slot_set_old_to_new p1 = None /\
    sweeping_slot_set_ p1 = Some {[ 40 ]} /\
    MergeOldToNewRememberedSets p1 = Some (mkPage (mkFreeList 6 5) None (Some {[ 40 ]}) None).
Proof.
  apply (MoveThenMerge_restores_page (mkPage (mkFreeList 6 5) None (Some {[ 40 ]}) None)).
  reflexivity.
Defined.

(** X4. [MoveOldToNewRememberedSetForSweeping] returns only on a page whose
    staging set is null.  A second move without a merge in between hits the
    [CHECK_NULL] when the first move detached a live set; when the page had
    no live set there was nothing to stage, and the second move returns and
    changes nothing. *)
Theorem MoveOldToNewRememberedSetForSweeping_twice (p p1 : Page) :
  MoveOldToNewRememberedSetForSweeping p = Some p1 ->
  sweeping_slot_set_ p = None /\
  (slot_set_old_to_new p <> None -> MoveOldToNewRememberedSetForSweeping p1 = None) /\
  (slot_set_old_to_new p = None -> MoveOldToNewRememberedSetForSweeping p1 = Some p1).
Proof.
  unfold MoveOldToNewRememberedSetForSweeping.
  destruct p as [fl cats live sweeping]. simpl.
  destruct sweeping; [discriminate|]. intros [= <-]. simpl.
  split; [reflexivity|].
  destruct live; simpl; split; intros Hlive; try reflexivity; congruence.
Qed.

Lemma MoveOldToNewRememberedSetForSweeping_twice_witness :
  MoveOldToNewRememberedSetForSweeping
    (mkPage (mkFreeList 6 5) None None (Some {[ 40 ]})) = None.
Proof.
  refine (proj1 (proj2 (MoveOldToNewRememberedSetForSweeping_twice
            (mkPage (mkFreeList 6 5) None (Some {[ 40 ]}) None)
            (mkPage (mkFreeList 6 5) None None (Some {[ 40 ]})) _)) _).
  - reflexivity.
  - discriminate.
Defined.

(** X5. [MergeOldToNewRememberedSets] returns on every page (its
    [CHECK_NULL] cannot fire), leaves [sweeping_slot_set_] null, and merging
    again changes nothing. *)
Theorem MergeOldToNewRememberedSets_idempotent (p : Page) :
  exists p',
    MergeOldToNewRememberedSets p = Some p' /\
    sweeping_slot_set_ p' = None /\
    MergeOldToNewRememberedSets p' = Some p'.
Proof.
  destruct (MergeOldToNewRememberedSets_recorded p) as (p' & Hrun & Hnull & _).
  exists p'. split; [exact Hrun|]. split; [exact Hnull|].
  unfold MergeOldToNewRememberedSets. rewrite Hnull. reflexivity.
Qed.

(** ** Free-list categories: release of any array, bounds of the allocation *)



Lemma allocate_categories_in_bounds (indices : list Z) :
  forall (h : CppHeap) (slots : list (option nat)),
  is_Some (allocate_categories indices h slots) ->
  forall i, i ∈ indices -> 0 <= i < Z.of_nat (length slots).
Proof.
  induction indices as [|j rest IH]; intros h slots Hrun i Hi; [set_solver|].
  simpl in Hrun. case_bool_decide as Hj; [|destruct Hrun; discriminate].
  apply elem_of_cons in Hi as [-> | Hi]; [exact Hj|].
  specialize (IH _ _ Hrun i Hi). rewrite length_insert in IH. exact IH.
Qed.

(** X7. [AllocateFreeListCategories] stays inside the array it allocates
    exactly when every index of [[kFirstCategory, last_category]] is a valid
    index of an array of [number_of_categories] entries; otherwise the loop
    writes outside the array. *)
Theorem AllocateFreeListCategories_returns_iff_in_bounds
    (kFirstCategory : Z) (p : Page) (h : CppHeap) :
  is_Some (AllocateFreeListCategories kFirstCategory p h) <->
  (forall i, kFirstCategory <= i <= last_category (free_list p) ->
     0 <= i < Z.of_nat (number_of_categories (free_list p))).
Proof.
  unfold AllocateFreeListCategories. simpl. split.
  - intros Hrun i Hi.
    destruct (allocate_categories _ _ _) as [[h2 slots]|] eqn:Halloc;
      [|destruct Hrun; discriminate].
    pose proof (allocate_categories_in_bounds _ _ _ ltac:(rewrite Halloc; eauto) i) as Hb.
    rewrite length_replicate in Hb. apply Hb, category_range_elem, Hi.
  - intros Hbounds.
    destruct (allocate_categories_spec (category_range kFirstCategory p)
                (snd (new_CategoryArray (number_of_categories (free_list p)) h))
                (replicate (number_of_categories (free_list p)) None))
      as (h' & slots' & Hrun & _).
    { apply NoDup_seqZ. }
    { intros i Hi%category_range_elem. rewrite length_replicate. apply Hbounds, Hi. }
    simpl in Hrun. rewrite Hrun. eauto.
Qed.

Lemma spec_limit_bounds (s : SpaceWithLinearArea) (start end_ min_size : Z) :
  0 < object_alignment s ->
  start + min_size <= end_ ->
  observer_step_in_range s start min_size ->
  start + min_size <= spec_limit s start end_ min_size <= end_.
Proof.
  intros Ha Hle Hobs. unfold spec_limit, observer_step_in_range in *.
  destruct (inline_allocation_disabled s); [lia|].
  destruct (SupportsAllocationObserver s && IsActive (allocation_counter_ s)); [|lia].
  destruct (Hobs eq_refl eq_refl) as (Hstep & _ & _).
  pose proof (round_down_bounds (NextBytes (allocation_counter_ s) - 1)
                (object_alignment s) Ha ltac:(lia)).
  lia.
Qed.

(** X2. Within the machine ranges, lowering a limit twice is lowering it
    once: [ComputeLimit] applied to [start] and the limit it returned for
    [[start, end)] returns that limit again. *)
Theorem ComputeLimit_idempotent (s : SpaceWithLinearArea) (start end_ min_size : Z) :
  is_size_t start -> is_size_t end_ -> is_size_t min_size ->
  0 < object_alignment s ->
  end_ - start >= min_size ->
  observer_step_in_range s start min_size ->
  ComputeLimit s start (ComputeLimit s start end_ min_size) min_size =
    ComputeLimit s start end_ min_size.
Proof.
  intros Hs He Hm Ha Hle Hobs.
  rewrite (ComputeLimit_in_range s start end_ min_size) by (auto; lia).
  pose proof (spec_limit_bounds s start end_ min_size Ha ltac:(lia) Hobs) as Hb.
  rewrite ComputeLimit_in_range; auto; try lia.
  - unfold spec_limit in *.
    destruct (inline_allocation_disabled s); [reflexivity|].
    destruct (SupportsAllocationObserver s && IsActive (allocation_counter_ s));
      [lia | reflexivity].
  - unfold is_size_t in *. lia.
Qed.

Lemma ComputeLimit_idempotent_witness :
  ComputeLimit space_with_small_step 4096
    (ComputeLimit space_with_small_step 4096 8192 32) 32 =
  ComputeLimit space_with_small_step 4096 8192 32.
Proof.
  apply (ComputeLimit_idempotent space_with_small_step 4096 8192 32);
    try (unfold is_size_t, kMaxSizeT; simpl; lia).
  intros _ _. vm_compute. repeat split; discriminate.
Defined.

(** ** Local allocation buffers *)

(** X8. Closing a valid buffer whose unused part [[top, limit)] fits an
    [int]: [CloseAndMakeIterable] returns the area the buffer held, writes
    exactly one filler, which starts at [top] and ends at [limit], and leaves
    the buffer invalid; closing it again returns the null area and writes
    nothing. *)
Theorem CloseAndMakeIterable_fills_gap_once
    (b : LocalAllocationBuffer) (log : list Filler) :
  IsValid b = true ->
  lab_top (lab_allocation_info_ b) <= lab_limit (lab_allocation_info_ b) ->
  lab_limit (lab_allocation_info_ b) - lab_top (lab_allocation_info_ b) <= kMaxInt ->
  exists b' filler,
    CloseAndMakeIterable b log = (lab_allocation_info_ b, b', log ++ [filler]) /\
    filler_address filler = lab_top (lab_allocation_info_ b) /\
    filler_address filler + filler_size filler = lab_limit (lab_allocation_info_ b) /\
    IsValid b' = false /\
    CloseAndMakeIterable b' (log ++ [filler]) =
      (LinearAllocationArea_new kNullAddress kNullAddress, b', log ++ [filler]).
Proof.
  intros Hvalid Hle Hint.
  unfold CloseAndMakeIterable, MakeIterable. rewrite Hvalid.
  eexists _, _. split; [reflexivity|]. simpl.
  split; [reflexivity|]. split; [|split; reflexivity].
  rewrite to_size_t_id by (unfold is_size_t, kMaxSizeT, kMaxInt in *; lia).
  rewrite to_int_id by (unfold kMinInt, kMaxInt in *; lia). lia.
Qed.

Lemma CloseAndMakeIterable_fills_gap_once_witness :
  exists b' filler,
    CloseAndMakeIterable example_buffer [] =
      (lab_allocation_info_ example_buffer, b', [] ++ [filler]) /\
    filler_address filler = 5120 /\
    filler_address filler + filler_size filler = 8192 /\
    IsValid b' = false /\
    CloseAndMakeIterable b' ([] ++ [filler]) =
      (LinearAllocationArea_new kNullAddress kNullAddress, b', [] ++ [filler]).
Proof.
  apply (CloseAndMakeIterable_fills_gap_once example_buffer []).
  - reflexivity.
  - simpl. lia.
  - unfold kMaxInt. simpl. lia.
Defined.

(** After the move assignment [this = std::move (other)], [this] is the
    buffer [other] was, and [other] is invalid: closing the moved-from buffer
    returns the null area and writes no filler, and closing the moved-to
    buffer does what closing the source would have done. *)
Theorem move_assign_leaves_source_closed
    (this other : LocalAllocationBuffer) (log : list Filler) :
  fst (move_assign this other) = other /\
  IsValid (snd (move_assign this other)) = false /\
  fst (CloseAndMakeIterable (snd (move_assign this other)) log) =
    (LinearAllocationArea_new kNullAddress kNullAddress, snd (move_assign this other)) /\
  snd (CloseAndMakeIterable (snd (move_assign this other)) log) = log /\
  CloseAndMakeIterable (fst (move_assign this other)) log = CloseAndMakeIterable other log.
Proof.
  destruct other as [heap info]. repeat split.
Qed.

(** ** Allocation observers *)

(** X9. On a space whose area has a top, [AdvanceAllocationObservers]
    reports the bytes between [start] and [top] to the counter and moves
    [start] to [top], leaving [top] and [limit]; the area then satisfies
    [start = top], and a second call reports zero bytes and leaves the area
    as it is. *)
Theorem AdvanceAllocationObservers_accounts_once
    (counter_advance : AllocationCounter -> Z -> AllocationCounter)
    (s : SpaceWithLinearArea) :
  lab_top (allocation_info_ s) <> 0 ->
  let s1 := AdvanceAllocationObservers counter_advance s in
  allocation_counter_ s1 =
    counter_advance (allocation_counter_ s)
      (to_size_t (lab_top (allocation_info_ s) - lab_start (allocation_info_ s))) /\
  lab_start (allocation_info_ s1) = lab_top (allocation_info_ s1) /\
  lab_top (allocation_info_ s1) = lab_top (allocation_info_ s) /\
  lab_limit (allocation_info_ s1) = lab_limit (allocation_info_ s) /\
  allocation_counter_ (AdvanceAllocationObservers counter_advance s1) =
    counter_advance (allocation_counter_ s1) 0 /\
  allocation_info_ (AdvanceAllocationObservers counter_advance s1) = allocation_info_ s1.
Proof.
  intros Htop. unfold AdvanceAllocationObservers.
  apply Z.eqb_neq in Htop. rewrite Htop. simpl. rewrite Htop. simpl.
  rewrite Z.sub_diag. repeat split.
Qed.

Lemma AdvanceAllocationObservers_accounts_once_witness :
  allocation_counter_
    (AdvanceAllocationObservers (fun c bytes => mkAllocationCounter (IsActive c) (NextBytes c - bytes))
       space_with_unaccounted_bytes) = mkAllocationCounter true 512 /\
  lab_start (allocation_info_
    (AdvanceAllocationObservers (fun c bytes => mkAllocationCounter (IsActive c) (NextBytes c - bytes))
       space_with_unaccounted_bytes)) = 4608.
Proof.
  destruct (AdvanceAllocationObservers_accounts_once
              (fun c bytes => mkAllocationCounter (IsActive c) (NextBytes c - bytes))
              space_with_unaccounted_bytes) as (Hc & Hs & Ht & _).
  - simpl. lia.
  - split; [exact Hc | rewrite Hs; exact Ht].
Defined.

(** ** Black areas *)

Lemma to_intptr_spec (x : Z) :
  exists k, to_intptr x = x + 2 ^ 64 * k /\ - 2 ^ 63 <= to_intptr x < 2 ^ 63.
Proof.
  unfold to_intptr. exists (- ((x + 2 ^ 63) / 2 ^ 64)).
  pose proof (Z.div_mod (x + 2 ^ 63) (2 ^ 64) ltac:(lia)).
  pose proof (Z.mod_pos_bound (x + 2 ^ 63) (2 ^ 64) ltac:(lia)). lia.
Qed.

(** X10. [CreateBlackArea] sets the mark bits of the range and leaves the
    others; when [end - start] added to the live bytes stays in the
    [intptr_t] range it raises the live-byte counter by [end - start].
    [DestroyBlackArea] on the same range brings the counter back to its value
    before the pair of calls, wrap-around included, and leaves the mark bits
    of the range clear and the others as they were. *)
Theorem DestroyBlackArea_undoes_CreateBlackArea
    (AddressToMarkbitIndex : Z -> Z) (m : MarkingState) (start end_ : Z) :
  - 2 ^ 63 <= live_byte_count_ m < 2 ^ 63 ->
  let first := AddressToMarkbitIndex start in
  let last := AddressToMarkbitIndex end_ in
  let m1 := CreateBlackArea AddressToMarkbitIndex m start end_ in
  let m2 := DestroyBlackArea AddressToMarkbitIndex m1 start end_ in
  (forall i, i ∈ bitmap m1 <-> i ∈ bitmap m \/ first <= i < last) /\
  (0 <= end_ - start -> live_byte_count_ m + (end_ - start) < 2 ^ 63 ->
     live_byte_count_ m1 = live_byte_count_ m + (end_ - start)) /\
  live_byte_count_ m2 = live_byte_count_ m /\
  (forall i, i ∈ bitmap m2 <-> i ∈ bitmap m /\ ~ first <= i < last).
Proof.
  intros Hlive first last m1 m2. subst m1 m2 first last.
  unfold DestroyBlackArea, CreateBlackArea, IncrementLiveBytes, SetRange, ClearRange.
  simpl. split; [|split; [|split]].
  - intros i. rewrite elem_of_union, elem_of_list_to_set, elem_of_seqZ.
    split; (intros [?|?]; [left; assumption | right; lia]).
  - intros Hd Hsum.
    rewrite to_size_t_id by (unfold is_size_t, kMaxSizeT; lia).
    destruct (to_intptr_spec (end_ - start)) as (k1 & -> & Hb1).
    destruct (to_intptr_spec (live_byte_count_ m + (end_ - start + 2 ^ 64 * k1)))
      as (k2 & -> & Hb2). lia.
  - set (d := to_intptr (to_size_t (end_ - start))).
    destruct (to_intptr_spec (live_byte_count_ m + d)) as (k1 & H1 & Hb1).
    destruct (to_intptr_spec (- d)) as (k2 & H2 & Hb2).
    destruct (to_intptr_spec (to_intptr (live_byte_count_ m + d) + to_intptr (- d)))
      as (k3 & H3 & Hb3).
    lia.
  - intros i.
    rewrite elem_of_difference, elem_of_union, !elem_of_list_to_set, !elem_of_seqZ.
    split.
    + intros [[?|?] ?]; [split; [assumption | lia] | exfalso; lia].
    + intros [? ?]. split; [left; assumption | lia].
Qed.

Lemma DestroyBlackArea_undoes_CreateBlackArea_witness :
  live_byte_count_
    (DestroyBlackArea (fun a => a / 8)
       (CreateBlackArea (fun a => a / 8) (mkMarkingState ∅ 100) 4096 4160) 4096 4160) = 100.
Proof.
  destruct (DestroyBlackArea_undoes_CreateBlackArea (fun a => a / 8)
              (mkMarkingState ∅ 100) 4096 4160) as (_ & _ & Hlive & _).
  - simpl. lia.
  - exact Hlive.
Defined.

(* ===================================================================== *)
(** * Further properties of the Maglev graph builder: control flow *)
(* ===================================================================== *)

Import MaglevBranches.
Import MaglevContexts.

(** ** [TryFindNextBranch] and [BuildFusedBranch] *)

Lemma builder_parent_induction (P : MaglevGraphBuilder -> Prop) :
  (forall b, (forall parent, parent_ b = Some parent -> P parent) -> P b) ->
  forall b, P b.
Proof.
  intros Hstep.
  assert (H : forall n b, builder_depth b = n -> P b).
  { induction n as [|n IH]; intros b Hd; apply Hstep; intros p Hp;
      destruct b; simpl in *; subst; simpl in Hd; try discriminate.
    apply IH. congruence. }
  intros b. eapply H. reflexivity.
Qed.

Lemma BuildFusedBranch_unfold (b : MaglevGraphBuilder) (branch_offset inline_level : Z)
    (init_flip : bool) :
  BuildFusedBranch b branch_offset inline_level init_flip =
    match fused_branch_scan (after_current b) init_flip with
    | PastTheEnd => None
    | AtReturn flip =>
        match parent_ b with
        | Some parent => BuildFusedBranch parent branch_offset (inline_level - 1) flip
        | None => None
        end
    | AtOther i flip =>
        match jump_type_for (current_bytecode i) flip with
        | Some jump_type =>
            Some (mkFusedBranch (current_offset i) (current_bytecode i) inline_level jump_type
                    (xorb (is_kJumpIfTrue jump_type) flip)
                    (xorb (is_kJumpIfFalse jump_type) flip))
        | None => None
        end
    end.
Proof. destruct b; reflexivity. Qed.

(** The scan of [TryFindNextBranch] and the walk of [BuildFusedBranch] step
    over the same bytecodes. *)
Lemma scan_for_branch_found (b : MaglevGraphBuilder)
    (cross_return : option (option Z * nat)) (it : list Instruction) :
  forall (inline_level : nat) (offset : Z) (level : nat),
  scan_for_branch b cross_return it inline_level = (Some offset, level) ->
  exists skipped i rest,
    it = skipped ++ i :: rest /\
    Forall (fun j => is_stepped_over b j = true) skipped /\
    IsOffsetAMergePoint b (current_offset i) = false /\
    (forall flip, exists flip',
       (is_conditional_branch (current_bytecode i) = true /\
        current_offset i = offset /\ level = inline_level /\
        fused_branch_scan it flip = AtOther i flip') \/
       (current_bytecode i = kReturn /\ cross_return = Some (Some offset, level) /\
        fused_branch_scan it flip = AtReturn flip')).
Proof.
  induction it as [|i rest IH]; intros inline_level offset level Hscan;
    [discriminate|].
  simpl in Hscan.
  destruct (IsOffsetAMergePoint b (current_offset i)) eqn:Hmerge; [discriminate|].
  assert (Hstep : is_stepped_over b i = true ->
    scan_for_branch b cross_return rest inline_level = (Some offset, level) ->
    (forall flip, exists flip0, forall r,
       fused_branch_scan rest flip0 = r -> fused_branch_scan (i :: rest) flip = r) ->
    exists skipped i0 rest0,
      i :: rest = skipped ++ i0 :: rest0 /\
      Forall (fun j => is_stepped_over b j = true) skipped /\
      IsOffsetAMergePoint b (current_offset i0) = false /\
      (forall flip, exists flip',
         (is_conditional_branch (current_bytecode i0) = true /\
          current_offset i0 = offset /\ level = inline_level /\
          fused_branch_scan (i :: rest) flip = AtOther i0 flip') \/
         (current_bytecode i0 = kReturn /\ cross_return = Some (Some offset, level) /\
          fused_branch_scan (i :: rest) flip = AtReturn flip'))).
  { intros Hover Hrest Hfused.
    destruct (IH _ _ _ Hrest) as (skipped & i0 & rest0 & -> & Hskip & Hm0 & Hcase).
    exists (i :: skipped), i0, rest0. split; [reflexivity|].
    split; [constructor; assumption|]. split; [exact Hm0|].
    intros flip. destruct (Hfused flip) as [flip0 Hf].
    destruct (Hcase flip0) as [flip' [(Hc & Ho & Hl & Hs) | (Hr & Hx & Hs)]];
      exists flip'; [left | right]; repeat split; try assumption;
      apply Hf; exact Hs. }
  assert (Hhere :
    (is_conditional_branch (current_bytecode i) = true /\
     current_offset i = offset /\ level = inline_level /\
     (forall flip, fused_branch_scan (i :: rest) flip = AtOther i flip)) \/
    (current_bytecode i = kReturn /\ cross_return = Some (Some offset, level) /\
     (forall flip, fused_branch_scan (i :: rest) flip = AtReturn flip)) ->
    exists skipped i0 rest0,
      i :: rest = skipped ++ i0 :: rest0 /\
      Forall (fun j => is_stepped_over b j = true) skipped /\
      IsOffsetAMergePoint b (current_offset i0) = false /\
      (forall flip, exists flip',
         (is_conditional_branch (current_bytecode i0) = true /\
          current_offset i0 = offset /\ level = inline_level /\
          fused_branch_scan (i :: rest) flip = AtOther i0 flip') \/
         (current_bytecode i0 = kReturn /\ cross_return = Some (Some offset, level) /\
          fused_branch_scan (i :: rest) flip = AtReturn flip'))).
  { intros Hcase. exists [], i, rest. split; [reflexivity|].
    split; [constructor|]. split; [exact Hmerge|].
    intros flip. exists flip.
    destruct Hcase as [(Hc & Ho & Hl & Hs) | (Hr & Hx & Hs)]; [left | right];
      repeat split; auto. }
  unfold is_stepped_over, stores_to_live_register in Hstep. rewrite Hmerge in Hstep.
  destruct (current_bytecode i) eqn:Hbc; try discriminate.
  - (* kMov *)
    apply Hstep; [reflexivity | exact Hscan|].
    intros flip. exists flip. intros r <-. simpl. rewrite Hbc. reflexivity.
  - apply Hstep; [reflexivity | exact Hscan|].
    intros flip. exists flip. intros r <-. simpl. rewrite Hbc. reflexivity.
  - apply Hstep; [reflexivity | exact Hscan|].
    intros flip. exists (negb flip). intros r <-. simpl. rewrite Hbc. reflexivity.
  - apply Hstep; [reflexivity | exact Hscan|].
    intros flip. exists (negb flip). intros r <-. simpl. rewrite Hbc. reflexivity.
  - (* kStar *)
    destruct (is_parameter (register_operand0 i) ||
              out_liveness b (current_offset i) (reg_index (register_operand0 i)));
      [discriminate|].
    apply Hstep; [reflexivity | exact Hscan|].
    intros flip. exists flip. intros r <-. simpl. rewrite Hbc. reflexivity.
  - destruct (is_parameter store_reg ||
              out_liveness b (current_offset i) (reg_index store_reg));
      [discriminate|].
    apply Hstep; [reflexivity | exact Hscan|].
    intros flip. exists flip. intros r <-. simpl. rewrite Hbc. reflexivity.
  - (* kReturn *)
    destruct cross_return as [parent_answer|]; [|discriminate].
    destruct (negb (inlined_new_target_is_root_constant b)); [discriminate|].
    destruct (negb (is_kIllegal (next_bytecode rest)) ||
              IsOffsetAMergePoint b (inline_exit_offset b)); [discriminate|].
    apply Hhere. right. split; [reflexivity|]. split; [congruence|].
    intros flip. simpl. rewrite Hbc. reflexivity.
  - apply Hhere. left. injection Hscan as <- <-.
    repeat split. intros flip. simpl. rewrite Hbc. reflexivity.
  - apply Hhere. left. injection Hscan as <- <-.
    repeat split. intros flip. simpl. rewrite Hbc. reflexivity.
  - apply Hhere. left. injection Hscan as <- <-.
    repeat split. intros flip. simpl. rewrite Hbc. reflexivity.
  - apply Hhere. left. injection Hscan as <- <-.
    repeat split. intros flip. simpl. rewrite Hbc. reflexivity.
  - apply Hhere. left. injection Hscan as <- <-.
    repeat split. intros flip. simpl. rewrite Hbc. reflexivity.
  - apply Hhere. left. injection Hscan as <- <-.
    repeat split. intros flip. simpl. rewrite Hbc. reflexivity.
  - apply Hhere. left. injection Hscan as <- <-.
    repeat split. intros flip. simpl. rewrite Hbc. reflexivity.
  - apply Hhere. left. injection Hscan as <- <-.
    repeat split. intros flip. simpl. rewrite Hbc. reflexivity.
Qed.

Lemma ancestor_depth (levels : nat) :
  forall b anc, ancestor b levels = Some anc -> (levels <= builder_depth b)%nat.
Proof.
  induction levels as [|n IH]; intros b anc Hanc; [lia|].
  destruct b as [[p|] ? ? ? ? ? ? ? ? ? ? ? ? ? ? ?]; simpl in *; [|discriminate].
  specialize (IH _ _ Hanc). lia.
Qed.

(** X11. When [TryFindNextBranch] returns an offset, [*inline_level] has
    grown by the number of [Return]s crossed, which is at most the number of
    enclosing builders; and in the builder that many levels out, the
    bytecodes after the current one are stepped-over bytecodes followed by a
    conditional jump ([JumpIfTrue], [JumpIfFalse], their [ToBoolean] and
    constant forms) at the returned offset, which is not a merge point. *)
Theorem TryFindNextBranch_finds_conditional_branch
    (b : MaglevGraphBuilder) (inline_level : nat) (offset : Z) (level : nat) :
  TryFindNextBranch b inline_level = (Some offset, level) ->
  (inline_level <= level)%nat /\
  (level - inline_level <= builder_depth b)%nat /\
  exists anc skipped i rest,
    ancestor b (level - inline_level) = Some anc /\
    after_current anc = skipped ++ i :: rest /\
    Forall (fun j => is_stepped_over anc j = true) skipped /\
    current_offset i = offset /\
    is_conditional_branch (current_bytecode i) = true /\
    IsOffsetAMergePoint anc offset = false.
Proof.
  revert inline_level offset level.
  induction b as [b IH] using builder_parent_induction.
  intros inline_level offset level Hfind.
  assert (Hgoal : (inline_level <= level)%nat /\
    exists anc skipped i rest,
      ancestor b (level - inline_level) = Some anc /\
      after_current anc = skipped ++ i :: rest /\
      Forall (fun j => is_stepped_over anc j = true) skipped /\
      current_offset i = offset /\
      is_conditional_branch (current_bytecode i) = true /\
      IsOffsetAMergePoint anc offset = false).
  { rewrite TryFindNextBranch_unfold in Hfind.
    destruct (scan_for_branch_found _ _ _ _ _ _ Hfind)
      as (skipped & i & rest & Hcode & Hskip & Hmerge & Hcase).
    destruct (Hcase false) as [flip' [(Hc & Ho & -> & _) | (Hr & Hx & _)]].
    - split; [lia|]. rewrite Nat.sub_diag. exists b, skipped, i, rest.
      simpl. subst offset. repeat split; assumption.
    - destruct (parent_ b) as [parent|] eqn:Hparent; [|discriminate].
      injection Hx as Hx.
      destruct (IH parent eq_refl _ _ _ Hx)
        as (Hle & _ & anc & skipped' & i' & rest' & Hanc & Hrest).
      split; [lia|]. exists anc, skipped', i', rest'.
      split; [|exact Hrest].
      replace (level - inline_level)%nat with (S (level - S inline_level)) by lia.
      simpl. rewrite Hparent. exact Hanc. }
  destruct Hgoal as (Hle & anc & skipped & i & rest & Hanc & Hrest).
  split; [exact Hle|]. split; [eapply ancestor_depth, Hanc|].
  exists anc, skipped, i, rest. split; assumption.
Qed.

Lemma TryFindNextBranch_finds_conditional_branch_witness :
  exists anc skipped i rest,
    ancestor fusing_callee 1 = Some anc /\
    after_current anc = skipped ++ i :: rest /\
    Forall (fun j => is_stepped_over anc j = true) skipped /\
    current_offset i = 16 /\
    is_conditional_branch (current_bytecode i) = true /\
    IsOffsetAMergePoint anc 16 = false.
Proof.
  apply (TryFindNextBranch_finds_conditional_branch fusing_callee 0 16 1).
  reflexivity.
Defined.

Lemma jump_type_for_conditional (bc : Bytecode) (flip : bool) :
  is_conditional_branch bc = true ->
  exists jump_type,
    jump_type_for bc flip = Some jump_type /\
    xorb (is_kJumpIfTrue jump_type) flip = is_true_jump bc /\
    xorb (is_kJumpIfFalse jump_type) flip = negb (is_true_jump bc).
Proof.
  destruct bc; try discriminate; intros _; destruct flip; eexists;
    repeat split.
Qed.

Lemma BuildFusedBranch_follows_search (b : MaglevGraphBuilder) :
  forall (inline_level : nat) (offset : Z) (level : nat) (remaining : Z) (init_flip : bool),
  TryFindNextBranch b inline_level = (Some offset, level) ->
  exists r,
    BuildFusedBranch b offset remaining init_flip = Some r /\
    fused_offset r = offset /\
    fused_inline_level r = remaining - (Z.of_nat level - Z.of_nat inline_level) /\
    is_conditional_branch (fused_bytecode r) = true /\
    accumulator_in_jump_target r = is_true_jump (fused_bytecode r) /\
    accumulator_in_fallthrough r = negb (is_true_jump (fused_bytecode r)).
Proof.
  induction b as [b IH] using builder_parent_induction.
  intros inline_level offset level remaining init_flip Hfind.
  rewrite TryFindNextBranch_unfold in Hfind.
  destruct (scan_for_branch_found _ _ _ _ _ _ Hfind)
    as (skipped & i & rest & Hcode & Hskip & Hmerge & Hcase).
  rewrite BuildFusedBranch_unfold.
  destruct (Hcase init_flip) as [flip' [(Hc & Ho & -> & Hs) | (Hr & Hx & Hs)]];
    rewrite Hs.
  - destruct (jump_type_for_conditional _ flip' Hc) as (jt & -> & Ht & Hf).
    eexists. split; [reflexivity|]. simpl. repeat split; try assumption. lia.
  - destruct (parent_ b) as [parent|] eqn:Hparent; [|discriminate].
    injection Hx as Hx.
    destruct (IH parent eq_refl _ _ _ (remaining - 1) flip' Hx)
      as (r & Hrun & Ho & Hl & Hrest).
    exists r. split; [exact Hrun|]. split; [exact Ho|]. split; [lia | exact Hrest].
Qed.

(** X12. When [TryFindNextBranch], started at inline level 0, finds a
    branch, the walk of [BuildFusedBranch] ends on that branch: it returns
    (no [UNREACHABLE()], no read past the bytecodes, no null parent), its two
    [DCHECK]s hold (the inline level is back at 0 and the iterator stands at
    the found offset), and the accumulator constant it sets for the jump
    target is [true] exactly for a [JumpIfTrue]-like bytecode, the one for
    the fall-through being its negation, whatever [init_flip] is and however
    many [LogicalNot]s lie between test and jump. *)
Theorem TryBuildBranchFor_reaches_found_branch
    (b : MaglevGraphBuilder) (init_flip : bool) (offset : Z) (level : nat) :
  TryFindNextBranch b 0 = (Some offset, level) ->
  exists r,
    TryBuildBranchFor b init_flip = Some (Some r) /\
    BuildFusedBranch_dchecks offset r = true /\
    is_conditional_branch (fused_bytecode r) = true /\
    accumulator_in_jump_target r = is_true_jump (fused_bytecode r) /\
    accumulator_in_fallthrough r = negb (is_true_jump (fused_bytecode r)).
Proof.
  intros Hfind. unfold TryBuildBranchFor. rewrite Hfind.
  destruct (BuildFusedBranch_follows_search b 0 offset level (Z.of_nat level)
              init_flip Hfind) as (r & Hrun & Ho & Hl & Hrest).
  exists r. split; [rewrite Hrun; reflexivity|]. split; [|exact Hrest].
  unfold BuildFusedBranch_dchecks. rewrite Ho, Hl.
  rewrite Z.eqb_refl. replace (_ - _) with 0 by lia. reflexivity.
Qed.

Lemma TryBuildBranchFor_reaches_found_branch_witness :
  exists r,
    TryBuildBranchFor fusing_callee false = Some (Some r) /\
    BuildFusedBranch_dchecks 16 r = true /\
    is_conditional_branch (fused_bytecode r) = true /\
    accumulator_in_jump_target r = is_true_jump (fused_bytecode r) /\
    accumulator_in_fallthrough r = negb (is_true_jump (fused_bytecode r)).
Proof.
  apply (TryBuildBranchFor_reaches_found_branch fusing_callee false 16 1).
  reflexivity.
Defined.

Lemma fused_branch_scan_negb (it : list Instruction) :
  forall flip,
  fused_branch_scan it (negb flip) =
    match fused_branch_scan it flip with
    | AtReturn flip' => AtReturn (negb flip')
    | AtOther i flip' => AtOther i (negb flip')
    | PastTheEnd => PastTheEnd
    end.
Proof.
  induction it as [|i rest IH]; intros flip; [reflexivity|].
  simpl. destruct (current_bytecode i); try reflexivity; apply IH.
Qed.

(** X13. Negating [init_flip] negates the jump type [BuildFusedBranch]
    chooses (as [NegateJumpType] does) and changes nothing else: the branch
    is built on the same bytecode, at the same inline level, with the same
    accumulator constants. *)
Theorem BuildFusedBranch_negated_flip
    (b : MaglevGraphBuilder) (branch_offset inline_level : Z) (init_flip : bool)
    (r : FusedBranch) :
  BuildFusedBranch b branch_offset inline_level init_flip = Some r ->
  BuildFusedBranch b branch_offset inline_level (negb init_flip) =
    Some (mkFusedBranch (fused_offset r) (fused_bytecode r) (fused_inline_level r)
            (NegateJumpType (fused_jump_type r))
            (accumulator_in_jump_target r) (accumulator_in_fallthrough r)).
Proof.
  revert inline_level init_flip r.
  induction b as [b IH] using builder_parent_induction.
  intros inline_level init_flip r.
  rewrite !BuildFusedBranch_unfold, fused_branch_scan_negb.
  destruct (fused_branch_scan (after_current b) init_flip) as [flip|i flip|];
    [| |discriminate].
  - destruct (parent_ b) as [parent|] eqn:Hparent; [|discriminate].
    apply IH. reflexivity.
  - destruct (current_bytecode i); try discriminate;
      destruct flip; intros [= <-]; reflexivity.
Qed.

Lemma BuildFusedBranch_negated_flip_witness :
  BuildFusedBranch fusing_callee 16 1 (negb false) =
    Some (mkFusedBranch 16 kJumpIfToBooleanFalse 0
            (NegateJumpType JumpType.kJumpIfFalse) false true).
Proof.
  apply (BuildFusedBranch_negated_flip fusing_callee 16 1 false
           (mkFusedBranch 16 kJumpIfToBooleanFalse 0 JumpType.kJumpIfFalse false true)).
  reflexivity.
Defined.

(** ** [ShouldInlineCall]: what an accepted call has passed, and the budget *)

(** X14. [ShouldInlineCall] changes the builder only when it accepts a call
    that is not a small function, and then only by adding the callee's
    bytecode length to the graph's total.  A call it accepts has passed every
    earlier rejection (budget, feedback vector, direct recursion,
    inlineability, new-target register, handler table, arguments objects,
    call frequency), and is either small or within both the size limit and
    the depth limit. *)
Theorem ShouldInlineCall_accepts_only
    (b : MaglevGraphBuilder) (shared : SharedFunctionInfoRef)
    (feedback_vector : option nat) (call_frequency : float) :
  let answer := ShouldInlineCall b shared feedback_vector call_frequency in
  let callee_length := bytecode_length (GetBytecodeArray shared) in
  (fst answer = false -> snd answer = b) /\
  (fst answer = true ->
     passes_earlier_checks b shared feedback_vector call_frequency /\
     (callee_length < max_maglev_inlined_bytecode_size_small (flags b) \/
      callee_length <= max_maglev_inlined_bytecode_size (flags b) /\
      inlining_depth b <= max_maglev_inline_depth (flags b)) /\
     snd answer =
       if callee_length <? max_maglev_inlined_bytecode_size_small (flags b) then b
       else with_graph_total b (total_inlined_bytecode_size b + callee_length)).
Proof.
  unfold ShouldInlineCall, passes_earlier_checks. simpl.
  destruct (_ <? total_inlined_bytecode_size b) eqn:Htotal;
    [split; [reflexivity | discriminate]|].
  destruct feedback_vector as [fv|]; [|split; [reflexivity | discriminate]].
  destruct (sfi_equals _ shared) eqn:Hrec; [split; [reflexivity | discriminate]|].
  destruct (GetInlineability shared) eqn:Hinl; [|split; [reflexivity | discriminate]].
  destruct (incoming_new_target_or_generator_register_is_valid _) eqn:Hreg;
    [split; [reflexivity | discriminate]|].
  destruct (0 <? handler_table_size _) eqn:Hht; [split; [reflexivity | discriminate]|].
  destruct (uses_arguments_object _) eqn:Hargs; [split; [reflexivity | discriminate]|].
  destruct (PrimFloat.ltb call_frequency _) eqn:Hfreq;
    [split; [reflexivity | discriminate]|].
  apply Z.ltb_ge in Htotal, Hht.
  destruct (_ <? max_maglev_inlined_bytecode_size_small (flags b)) eqn:Hsmall.
  { split; [discriminate|]. intros _. apply Z.ltb_lt in Hsmall.
    repeat split; try assumption; try discriminate. left. exact Hsmall. }
  destruct (max_maglev_inlined_bytecode_size (flags b) <? _) eqn:Hbig;
    [split; [reflexivity | discriminate]|].
  destruct (max_maglev_inline_depth (flags b) <? inlining_depth b) eqn:Hdepth;
    [split; [reflexivity | discriminate]|].
  split; [discriminate|]. intros _. apply Z.ltb_ge in Hbig, Hdepth.
  repeat split; try assumption; try discriminate. right. split; assumption.
Qed.

Lemma ShouldInlineCall_accepts_only_witness :
  snd (ShouldInlineCall shallow_builder medium_callee (Some 0%nat) 1%float) =
    with_graph_total shallow_builder 1000.
Proof.
  refine (proj2 (proj2 (proj2 (ShouldInlineCall_accepts_only shallow_builder medium_callee
                                 (Some 0%nat) 1%float) _))).
  reflexivity.
Defined.

Lemma consider_inlining_flags (b : MaglevGraphBuilder) (c : InlineCandidate) :
  flags (consider_inlining b c) = flags b.
Proof.
  unfold consider_inlining.
  destruct (ShouldInlineCall_accepts_only b (candidate_shared c)
              (candidate_feedback_vector c) (candidate_call_frequency c)) as [Hno Hyes].
  destruct (fst (ShouldInlineCall b _ _ _)) eqn:Hans.
  - destruct (Hyes eq_refl) as (_ & _ & ->). destruct (_ <? _); reflexivity.
  - rewrite (Hno eq_refl). reflexivity.
Qed.

(** X15. Over any sequence of calls considered for inlining, the graph's
    total inlined bytecode size never shrinks (the small-function threshold
    not being negative) and never exceeds
    [max_maglev_inlined_bytecode_size_cumulative] by more than
    [max_maglev_inlined_bytecode_size], provided it started within that
    bound. *)
Theorem ShouldInlineCall_cumulative_size_bound
    (candidates : list InlineCandidate) (b : MaglevGraphBuilder) :
  let limit := max_maglev_inlined_bytecode_size_cumulative (flags b) +
               max_maglev_inlined_bytecode_size (flags b) in
  0 <= max_maglev_inlined_bytecode_size_small (flags b) ->
  total_inlined_bytecode_size b <= limit ->
  total_inlined_bytecode_size b <=
    total_inlined_bytecode_size (foldl consider_inlining b candidates) <= limit.
Proof.
  revert b. induction candidates as [|c rest IH]; intros b limit Hsmall Hb; [simpl; lia|].
  simpl.
  assert (Hstep : total_inlined_bytecode_size b <=
                  total_inlined_bytecode_size (consider_inlining b c) <= limit).
  { unfold consider_inlining.
    destruct (ShouldInlineCall_accepts_only b (candidate_shared c)
                (candidate_feedback_vector c) (candidate_call_frequency c)) as [Hno Hyes].
    destruct (fst (ShouldInlineCall b _ _ _)) eqn:Hans.
    - destruct (Hyes eq_refl) as ((Htotal & _) & Hsize & ->).
      destruct (_ <? _) eqn:Hs; [lia|]. apply Z.ltb_ge in Hs.
      simpl. subst limit. lia.
    - rewrite (Hno eq_refl). lia. }
  specialize (IH (consider_inlining b c)). simpl in IH.
  rewrite consider_inlining_flags in IH. fold limit in IH.
  specialize (IH Hsmall ltac:(lia)). lia.
Qed.

Lemma ShouldInlineCall_cumulative_size_bound_witness :
  900 <= total_inlined_bytecode_size
           (foldl consider_inlining shallow_builder
              [mkInlineCandidate medium_callee (Some 0%nat) 1%float;
               mkInlineCandidate medium_callee (Some 0%nat) 1%float;
               mkInlineCandidate small_callee (Some 0%nat) 1%float]) <= 920 + 460.
Proof.
  apply (ShouldInlineCall_cumulative_size_bound
           [mkInlineCandidate medium_callee (Some 0%nat) 1%float;
            mkInlineCandidate medium_callee (Some 0%nat) 1%float;
            mkInlineCandidate small_callee (Some 0%nat) 1%float] shallow_builder);
    simpl; lia.
Defined.

(** ** [PeelLoop]: handler table and merge states *)

(** X16. The loop of [PeelLoop] that resets the position in the exception
    handler table moves the index down, by at least one when it was not
    zero; every entry it moved back over starts at or after the loop header,
    and the entry it stops on, unless that is entry 0, starts before the
    loop header. *)
Theorem rewind_handler_table_stops_before_loop
    (range_starts : list Z) (loop_header : Z) (index : nat) :
  let rewound := rewind_handler_table range_starts loop_header index in
  (rewound <= index)%nat /\
  ((0 < index)%nat -> (rewound < index)%nat) /\
  (forall j, (rewound < j < index)%nat -> loop_header <= range_starts !!! j) /\
  ((0 < rewound)%nat -> range_starts !!! rewound < loop_header).
Proof.
  induction index as [|i IH]; simpl.
  - split; [lia|]. split; [lia|]. split; intros; lia.
  - destruct (range_starts !!! i <? loop_header) eqn:Hstart.
    + apply Z.ltb_lt in Hstart. split; [lia|]. split; [lia|].
      split; [intros; lia | intros _; exact Hstart].
    + apply Z.ltb_ge in Hstart. destruct IH as (Hle & _ & Hskip & Hstop).
      split; [lia|]. split; [lia|]. split; [|exact Hstop].
      intros j Hj. destruct (decide (j = i)) as [-> | Hne]; [exact Hstart|].
      apply Hskip. lia.
Qed.

Lemma recreate_merge_state_lookup (merge_states : gmap Z MergePointInterpreterFrameState)
    (offset o : Z) :
  recreate_merge_state merge_states offset !! o =
    if bool_decide (o = offset) then recreated (merge_states !! o) else merge_states !! o.
Proof.
  unfold recreate_merge_state, recreated. case_bool_decide as Heq.
  - subst o. destruct (merge_states !! offset) as [m|] eqn:Hm; [|exact Hm].
    destruct (is_exception_handler m).
    + apply lookup_insert_eq.
    + apply lookup_delete_eq.
  - destruct (merge_states !! offset) as [m|]; [|reflexivity].
    destruct (is_exception_handler m).
    + apply lookup_insert_ne. congruence.
    + apply lookup_delete_ne. congruence.
Qed.

Lemma recreate_merge_states_lookup (offsets : list Z) :
  forall (merge_states : gmap Z MergePointInterpreterFrameState) (o : Z),
  foldl recreate_merge_state merge_states offsets !! o =
    if bool_decide (o ∈ offsets) then recreated (merge_states !! o)
    else merge_states !! o.
Proof.
  induction offsets as [|x rest IH]; intros merge_states o; cbn [foldl].
  - rewrite bool_decide_eq_false_2 by set_solver. reflexivity.
  - rewrite IH, recreate_merge_state_lookup.
    destruct (decide (o = x)) as [-> | Hne].
    + rewrite (bool_decide_eq_true_2 (x = x)) by reflexivity.
      rewrite (bool_decide_eq_true_2 (x ∈ x :: rest)) by left.
      case_bool_decide; [|reflexivity].
      unfold recreated. destruct (merge_states !! x) as [m|]; [|reflexivity].
      destruct (is_exception_handler m); reflexivity.
    + rewrite (bool_decide_eq_false_2 (o = x)) by exact Hne.
      case_bool_decide as Hin.
      * rewrite bool_decide_eq_true_2 by (right; exact Hin). reflexivity.
      * rewrite bool_decide_eq_false_2; [reflexivity|].
        intros [?|?]%elem_of_cons; contradiction.
Qed.

(** X17. When [PeelLoop] has run the peeled pass up to its [JumpLoop] at
    offset [current], it returns with the iterator back on the loop header,
    outside the peeled iteration and without a current block.  Every merge
    state from after the header up to [current] is gone, except those of
    exception handlers, which are replaced by fresh catch-block states; the
    merge states outside the loop are as the peeled pass left them; and the
    header has a fresh loop state of two predecessors, one of them merged,
    if the pass ended with an open block, and no merge state otherwise. *)
Theorem PeelLoop_recreates_merge_states
    (b : MaglevGraphBuilder) (pass : list DeadMergeCall) (block_open : bool)
    (loop_header current : Z) (jump_loop : nat) :
  offset_at b (iterator_ b) = Some loop_header ->
  find_jump_loop (bytecodes (bytecode b)) (iterator_ b) = Some jump_loop ->
  offset_at b jump_loop = Some current ->
  exists b',
    PeelLoop b pass block_open = Some b' /\
    iterator_ b' = iterator_ b /\
    in_peeled_iteration_ b' = false /\
    current_block_ b' = false /\
    merge_states_ b' !! loop_header =
      (if block_open then Some (Merge (NewForLoop 2)) else None) /\
    (forall offset, loop_header < offset <= current ->
       merge_states_ b' !! offset =
         recreated (merge_states_ (after_peeled_pass b pass block_open jump_loop) !! offset)) /\
    (forall offset, offset < loop_header \/ loop_header < offset /\ current < offset ->
       merge_states_ b' !! offset =
         merge_states_ (after_peeled_pass b pass block_open jump_loop) !! offset).
Proof.
  intros Hheader Hjump Hcurrent.
  unfold PeelLoop. rewrite Hheader, Hjump, Hcurrent.
  set (b1 := after_peeled_pass b pass block_open jump_loop).
  assert (Hblock : current_block_ b1 = block_open) by reflexivity.
  rewrite Hblock.
  assert (Hlookup : forall offset,
    foldl recreate_merge_state (merge_states_ b1)
      (seqZ loop_header (current - loop_header + 1)) !! offset =
    if bool_decide (loop_header <= offset <= current)
    then recreated (merge_states_ b1 !! offset) else merge_states_ b1 !! offset).
  { intros offset. rewrite recreate_merge_states_lookup.
    case_bool_decide as Hin; case_bool_decide as Hrange; try reflexivity;
      exfalso; rewrite elem_of_seqZ in Hin; lia. }
  eexists. split; [reflexivity|].
  assert (Hbody : forall offset (map : gmap Z MergePointInterpreterFrameState),
    (forall o, o <> loop_header ->
       map !! o = foldl recreate_merge_state (merge_states_ b1)
                    (seqZ loop_header (current - loop_header + 1)) !! o) ->
    (loop_header < offset <= current ->
       map !! offset = recreated (merge_states_ b1 !! offset)) /\
    (offset < loop_header \/ loop_header < offset /\ current < offset ->
       map !! offset = merge_states_ b1 !! offset)).
  { intros offset map Hmap. split; intros Hoff.
    - assert (Hne : offset <> loop_header) by lia.
      assert (Hin : loop_header <= offset <= current) by lia.
      rewrite (Hmap _ Hne), Hlookup. rewrite bool_decide_eq_true_2 by exact Hin.
      reflexivity.
    - assert (Hne : offset <> loop_header) by lia.
      assert (Hout : ~ loop_header <= offset <= current) by lia.
      rewrite (Hmap _ Hne), Hlookup. rewrite bool_decide_eq_false_2 by exact Hout.
      reflexivity. }
  destruct block_open; simpl.
  - do 3 (split; [reflexivity|]). split; [apply lookup_insert_eq|].
    split; intros offset; apply Hbody; intros o Ho;
      apply lookup_insert_ne; congruence.
  - do 3 (split; [reflexivity|]). split; [apply lookup_delete_eq|].
    split; intros offset; apply Hbody; intros o Ho;
      apply lookup_delete_ne; congruence.
Qed.

Lemma PeelLoop_recreates_merge_states_witness :
  exists b',
    PeelLoop peeling_builder_with_handler [] true = Some b' /\
    merge_states_ b' !! 10 = Some (Merge (NewForLoop 2)) /\
    merge_states_ b' !! 20 = Some NewForCatchBlock /\
    merge_states_ b' !! 30 = None.
Proof.
  destruct (PeelLoop_recreates_merge_states peeling_builder_with_handler [] true 10 40 2)
    as (b' & Hrun & _ & _ & _ & Hheader & Hbody & _); try reflexivity.
  exists b'. split; [exact Hrun|]. split; [exact Hheader|].
  split; [rewrite Hbody by lia | rewrite Hbody by lia]; reflexivity.
Defined.

(** ** [MinimizeContextChainDepth] *)

(** X18. [MinimizeContextChainDepth] never raises the depth, and stops
    only at depth 0 or on a node whose parent context [TryGetParentContext]
    does not know.  If the context a node evaluates to has as its previous
    context the value of the node [TryGetParentContext] returns, then walking
    the remaining depth from the returned context reaches the context that
    walking the given depth from the given context reaches. *)
Theorem MinimizeContextChainDepth_preserves_context
    {V : Type} (value : nat -> V) (previous : V -> V)
    (graph : list ContextNode) (context depth : nat) :
  (forall node parent, TryGetParentContext graph node = Some parent ->
     previous (value node) = value parent) ->
  let result := MinimizeContextChainDepth graph context depth in
  (snd result <= depth)%nat /\
  Nat.iter (snd result) previous (value (fst result)) =
    Nat.iter depth previous (value context) /\
  (snd result = O \/ TryGetParentContext graph (fst result) = None).
Proof.
  intros Hparent. revert context.
  induction depth as [|d IH]; intros context; simpl.
  - split; [lia|]. split; [reflexivity|]. left. reflexivity.
  - destruct (TryGetParentContext graph context) as [parent|] eqn:Hp.
    + destruct (IH parent) as (Hle & Hiter & Hstop).
      split; [lia|]. split; [|exact Hstop].
      rewrite Hiter. rewrite <- (Hparent _ _ Hp).
      change (Nat.iter d previous (previous (value context)) =
              Nat.iter (S d) previous (value context)).
      symmetry. apply Nat.iter_succ_r.
    + simpl. split; [lia|]. split; [reflexivity|]. right. exact Hp.
Qed.

Lemma MinimizeContextChainDepth_preserves_context_witness :
  MinimizeContextChainDepth example_context_graph 2 5 = (0%nat, 3%nat) /\
  Nat.iter 3 Nat.pred 0%nat = Nat.iter 5 Nat.pred 2%nat.
Proof.
  split; [reflexivity|].
  refine (proj1 (proj2 (MinimizeContextChainDepth_preserves_context
                          (fun n => n) Nat.pred example_context_graph 2 5 _))).
  intros [|[|[|node]]] parent; simpl; intros [= <-]; reflexivity.
Defined.

(* ===================================================================== *)
(** * Further properties of the Maglev graph builder: map checks and
      conversions *)
(* ===================================================================== *)

Import MaglevConversions.

(** ** [KnownMapsMerger] and [BuildCheckMaps] *)

Section MapCheckMore.
Context `{NodeTypeLattice} (env : Environment).

Lemma set_insert_elem (map x : MapRef) (set : list MapRef) :
  x ∈ set_insert map set <-> x = map \/ x ∈ set.
Proof.
  unfold set_insert. case_bool_decide as Hin.
  - split; [right; assumption | intros [-> | ?]; assumption].
  - rewrite elem_of_app, list_elem_of_singleton. tauto.
Qed.

Lemma set_insert_NoDup (map : MapRef) (set : list MapRef) :
  NoDup set -> NoDup (set_insert map set).
Proof.
  intros Hnd. unfold set_insert. case_bool_decide as Hin; [exact Hnd|].
  apply NoDup_app. split; [exact Hnd|]. split; [|apply NoDup_singleton].
  intros x Hx Hx'. apply list_elem_of_singleton in Hx'. subst x. contradiction.
Qed.

(** Inserting the requested maps one by one. *)
Lemma foldl_InsertMap_spec (maps : list MapRef) :
  forall m : KnownMapsMerger,
  let m' := foldl (InsertMap env) m maps in
  requested_maps_ m' = requested_maps_ m /\
  known_maps_are_subset_of_requested_maps_ m' = known_maps_are_subset_of_requested_maps_ m /\
  existing_known_maps_found_ m' = existing_known_maps_found_ m /\
  emit_check_with_migration_ m' =
    emit_check_with_migration_ m || existsb is_migration_target maps /\
  any_map_is_unstable_ m' =
    any_map_is_unstable_ m || existsb (fun map => negb (is_stable map)) maps /\
  (forall x, x ∈ intersect_set_ m' <-> x ∈ intersect_set_ m \/ x ∈ maps) /\
  (NoDup (intersect_set_ m) -> NoDup (intersect_set_ m')).
Proof.
  induction maps as [|map maps IH]; intros m; simpl.
  - rewrite !orb_false_r. repeat split; try tauto. intros [?|?]; [assumption | set_solver].
  - destruct (IH (InsertMap env m map)) as (Hreq & Hsub & Hex & Hmig & Hun & Hel & Hnd).
    simpl in *. rewrite Hreq, Hsub, Hex, Hmig, Hun, !orb_assoc.
    do 5 (split; [reflexivity|]). split.
    + intros x. rewrite Hel, set_insert_elem, elem_of_cons. tauto.
    + intros Hm. apply Hnd, set_insert_NoDup, Hm.
Qed.

(** Intersecting with known possible maps keeps maps that are both known and
    requested. *)
Lemma foldl_intersect_step_spec (type : NodeType) (known : list MapRef) :
  forall m : KnownMapsMerger,
  let m' := foldl (intersect_step env type) m known in
  requested_maps_ m' = requested_maps_ m /\
  existing_known_maps_found_ m' = existing_known_maps_found_ m /\
  (known_maps_are_subset_of_requested_maps_ m' = true ->
     known_maps_are_subset_of_requested_maps_ m = true /\
     forall x, x ∈ known -> x ∈ requested_maps_ m) /\
  (forall x, x ∈ intersect_set_ m' ->
     x ∈ intersect_set_ m \/ x ∈ known /\ x ∈ requested_maps_ m).
Proof.
  induction known as [|map known IH]; intros m; simpl.
  - repeat split; try tauto. intros x Hx. set_solver.
  - destruct (IH (intersect_step env type m map)) as (Hreq & Hex & Hsub & Hel).
    assert (Hstep :
      requested_maps_ (intersect_step env type m map) = requested_maps_ m /\
      existing_known_maps_found_ (intersect_step env type m map) =
        existing_known_maps_found_ m /\
      (known_maps_are_subset_of_requested_maps_ (intersect_step env type m map) = true ->
         known_maps_are_subset_of_requested_maps_ m = true /\ map ∈ requested_maps_ m) /\
      (forall x, x ∈ intersect_set_ (intersect_step env type m map) ->
         x ∈ intersect_set_ m \/ x = map /\ x ∈ requested_maps_ m)).
    { unfold intersect_step. case_bool_decide as Hin.
      - destruct (IsInstanceOfNodeType env map type); simpl.
        + repeat split; try tauto. intros x Hx%set_insert_elem.
          destruct Hx as [-> | Hx]; [right; split; [reflexivity | exact Hin] | left; exact Hx].
        + repeat split; try tauto.
      - simpl. repeat split; try discriminate. tauto. }
    destruct Hstep as (Hreq1 & Hex1 & Hsub1 & Hel1).
    rewrite Hreq, Hex, Hreq1, Hex1. do 2 (split; [reflexivity|]). split.
    + intros Hflag. destruct (Hsub Hflag) as [Hflag1 Hknown].
      destruct (Hsub1 Hflag1) as [Hflag0 Hmap]. split; [exact Hflag0|].
      intros x [-> | Hx]%elem_of_cons; [exact Hmap|].
      rewrite <- Hreq1. apply Hknown, Hx.
    + intros x Hx. destruct (Hel x Hx) as [Hx1 | [Hx1 Hx2]].
      * destruct (Hel1 x Hx1) as [? | [-> ?]]; [left; assumption|].
        right. split; [left | assumption].
      * right. split; [right; exact Hx1 | rewrite <- Hreq1; exact Hx2].
Qed.

(** What the merger holds after the intersection. *)
Lemma IntersectWithKnownNodeAspects_spec (maps : list MapRef) (info : NodeInfo) :
  let merger := IntersectWithKnownNodeAspects env (KnownMapsMerger_new maps) (Some info) in
  (forall x, x ∈ intersect_set_ merger -> x ∈ maps) /\
  (known_maps_are_subset_of_requested_maps_ merger = true ->
     possible_maps_are_known info = true /\
     forall x, x ∈ possible_maps info -> x ∈ maps) /\
  (possible_maps_are_known info = false ->
     known_maps_are_subset_of_requested_maps_ merger = false /\
     existing_known_maps_found_ merger = false /\
     emit_check_with_migration_ merger = existsb is_migration_target maps /\
     any_map_is_unstable_ merger = existsb (fun map => negb (is_stable map)) maps /\
     NoDup (intersect_set_ merger) /\
     forall x, x ∈ intersect_set_ merger <-> x ∈ maps).
Proof.
  unfold IntersectWithKnownNodeAspects.
  destruct (possible_maps_are_known info) eqn:Hknown.
  - destruct (foldl_intersect_step_spec (type_ info) (possible_maps info)
                (KnownMapsMerger_new maps)) as (Hreq & Hex & Hsub & Hel).
    simpl in *.
    assert (Hin : forall x,
      x ∈ intersect_set_ (foldl (intersect_step env (type_ info))
                            (KnownMapsMerger_new maps) (possible_maps info)) -> x ∈ maps).
    { intros x Hx. destruct (Hel x Hx) as [Hx' | [_ Hx']]; [set_solver | exact Hx']. }
    destruct (intersect_set_ _) eqn:Hset; simpl.
    + split; [intros x Hx; set_solver|]. split; [|discriminate].
      intros Hflag. split; [reflexivity|]. apply Hsub, Hflag.
    + rewrite Hset. split; [exact Hin|]. split; [|discriminate].
      intros Hflag. split; [reflexivity|]. apply Hsub, Hflag.
  - destruct (foldl_InsertMap_spec maps
                (mkKnownMapsMerger maps [] false false false false kAllBits))
      as (Hreq & Hsub & Hex & Hmig & Hun & Hel & Hnd).
    simpl in *. split; [|split; [rewrite Hsub; discriminate|]].
    + intros x Hx%Hel. destruct Hx as [Hx | Hx]; [set_solver | exact Hx].
    + intros _. rewrite Hsub, Hex, Hmig, Hun.
      do 4 (split; [reflexivity|]). split; [apply Hnd; constructor|].
      intros x. rewrite Hel. split; [intros [Hx | Hx]; [set_solver | exact Hx] | tauto].
Qed.


Lemma depend_on_stable_maps_spec (maps : list MapRef) :
  forall s, exists s',
    depend_on_stable_maps maps s = Some (tt, s') /\
    nodes s' = nodes s /\ known_node_aspects s' = known_node_aspects s /\
    any_map_for_any_node_is_unstable s' = any_map_for_any_node_is_unstable s /\
    (forall map, map ∈ stable_map_dependencies s' <->
       map ∈ stable_map_dependencies s \/ map ∈ maps /\ is_stable map = true).
Proof.
  induction maps as [|map maps IH]; intros s; simpl.
  - exists s. split; [reflexivity|]. do 3 (split; [reflexivity|]).
    intros x. set_solver.
  - unfold bind. destruct (is_stable map) eqn:Hstable.
    + unfold DependOnStableMap.
      destruct (IH (mkBuilderState (nodes s) (known_node_aspects s)
                      (any_map_for_any_node_is_unstable s) (int32_constants s)
                      (float64_constants s) (uses_repr_hint s)
                      (stable_map_dependencies s ++ [map]) (current_block_open s)))
        as (s' & -> & Hn & Ha & Hu & Hd).
      exists s'. split; [reflexivity|]. simpl in *. do 3 (split; [assumption|]).
      intros x. rewrite Hd, elem_of_app, list_elem_of_singleton, elem_of_cons.
      split; [intros [[? | ->] | [? ?]] | intros [? | [[-> | ?] ?]]]; tauto.
    + unfold ret. destruct (IH s) as (s' & -> & Hn & Ha & Hu & Hd).
      exists s'. split; [reflexivity|]. do 3 (split; [assumption|]).
      intros x. rewrite Hd, elem_of_cons.
      split; [intros [? | [? ?]] | intros [? | [[-> | ?] ?]]]; try tauto. congruence.
Qed.

Local Opaque IntersectWithKnownNodeAspects NodeInfo_CombineType SetPossibleMaps
  NodeInfo_IntersectType depend_on_stable_maps.

(** The three ways [BuildCheckMaps_known] ends. *)
Lemma BuildCheckMaps_known_run (object : nat) (maps : list MapRef)
    (s s' : BuilderState) (r : ReduceResult) :
  BuildCheckMaps_known env object maps s = Some (r, s') ->
  exists node t,
    nodes s !! object = Some node /\
    StaticTypeForNode env node = Some t /\
    let info1 := NodeInfo_CombineType t
                   (default NodeInfo_default (known_node_aspects s !! object)) in
    let merger :=
      IntersectWithKnownNodeAspects env (KnownMapsMerger_new maps) (Some info1) in
    if known_maps_are_subset_of_requested_maps_ merger then
      r = Done /\ nodes s' = nodes s /\
      exists info',
        known_node_aspects s' = <[object := info']> (known_node_aspects s) /\
        possible_maps_are_known info' = possible_maps_are_known info1 /\
        possible_maps info' = possible_maps info1 /\
        alternative info' = alternative info1
    else
      match intersect_set_ merger with
      | [] => r = DoneWithAbort
      | _ =>
          r = Done /\
          nodes s' = nodes s ++
            [mkNode (if emit_check_with_migration_ merger
                     then kCheckMapsWithMigration (intersect_set_ merger)
                            (GetCheckType (type_ info1))
                     else kCheckMaps (intersect_set_ merger)
                            (GetCheckType (type_ info1))) [object] kTagged] /\
          known_node_aspects s' =
            <[object := SetPossibleMaps (intersect_set_ merger)
                          (any_map_is_unstable_ merger) (node_type_ merger) info1]>
              (known_node_aspects s) /\
          any_map_for_any_node_is_unstable s' =
            any_map_for_any_node_is_unstable s || any_map_is_unstable_ merger /\
          (existing_known_maps_found_ merger = false ->
           forall map, map ∈ intersect_set_ merger -> is_stable map = true ->
             map ∈ stable_map_dependencies s')
      end.
Proof.
  unfold BuildCheckMaps_known. unfold bind at 1.
  destruct (GetOrCreateInfoFor object s) as [[info0 s1]|] eqn:Hget; [|discriminate].
  assert (Hs1 : nodes s1 = nodes s /\
                info0 = default NodeInfo_default (known_node_aspects s !! object) /\
                known_node_aspects s1 = <[object := info0]> (known_node_aspects s) /\
                any_map_for_any_node_is_unstable s1 = any_map_for_any_node_is_unstable s).
  { unfold GetOrCreateInfoFor in Hget.
    destruct (known_node_aspects s !! object) as [i|] eqn:Hi; injection Hget as <- <-.
    - repeat split. symmetry. apply insert_id. exact Hi.
    - repeat split. }
  destruct Hs1 as (Hnodes1 & Hinfo0 & Haspects1 & Hunstable1).
  unfold bind at 1. unfold static_type, bind, get_node. rewrite Hnodes1.
  destruct (nodes s !! object) as [node|] eqn:Hn; [|discriminate].
  destruct (StaticTypeForNode env node) as [t|] eqn:Hstatic; [|discriminate].
  intros Hrun. exists node, t. split; [reflexivity|]. split; [exact Hstatic|].
  rewrite <- Hinfo0. revert Hrun.
  unfold ret, update_info. rewrite Haspects1, lookup_insert_eq.
  unfold get_state. simpl. rewrite lookup_insert_eq, insert_insert_eq.
  set (info1 := NodeInfo_CombineType t info0).
  set (merger := IntersectWithKnownNodeAspects env (KnownMapsMerger_new maps) (Some info1)).
  destruct (known_maps_are_subset_of_requested_maps_ merger).
  - unfold info_of. simpl. rewrite lookup_insert_eq.
    destruct (NodeTypeIs (type_ info1) (node_type_ merger)).
    + intros [= <- <-]. split; [reflexivity|]. split; [simpl; exact Hnodes1|].
      exists info1. simpl. repeat split.
    + simpl. rewrite lookup_insert_eq. intros [= <- <-].
      split; [reflexivity|]. split; [simpl; exact Hnodes1|].
      eexists. simpl. rewrite insert_insert_eq. repeat split.
  - destruct (intersect_set_ merger) as [|map0 rest] eqn:Hset.
    + unfold EmitUnconditionalDeopt. intros [= <- _]. reflexivity.
    + unfold info_of. simpl. rewrite lookup_insert_eq.
      set (check := if emit_check_with_migration_ merger
                    then kCheckMapsWithMigration (map0 :: rest) (GetCheckType (type_ info1))
                    else kCheckMaps (map0 :: rest) (GetCheckType (type_ info1))).
      assert (Hadd : forall s0,
        (if emit_check_with_migration_ merger
         then AddNewNode (kCheckMapsWithMigration (map0 :: rest)
                            (GetCheckType (type_ info1))) [object]
         else AddNewNode (kCheckMaps (map0 :: rest)
                            (GetCheckType (type_ info1))) [object]) s0 =
        Some (length (nodes s0), set_nodes s0 (nodes s0 ++ [mkNode check [object] kTagged]))).
      { intros s0. subst check. destruct (emit_check_with_migration_ merger); reflexivity. }
      rewrite Hadd. unfold UpdateKnownNodeAspects, bind, GetOrCreateInfoFor, update_info.
      simpl. rewrite !lookup_insert_eq. simpl. rewrite lookup_insert_eq, insert_insert_eq.
      rewrite Hset.
      destruct (any_map_is_unstable_ merger) eqn:Hun; simpl;
        (destruct (existing_known_maps_found_ merger) eqn:Hex;
         [ intros [= <- <-]; simpl; rewrite Hnodes1, ?Hunstable1, ?orb_true_r, ?orb_false_r;
           repeat split; discriminate
         | match goal with
           | |- context [depend_on_stable_maps ?l ?st] =>
               destruct (depend_on_stable_maps_spec l st) as (s2 & -> & Hn2 & Ha2 & Hu2 & Hd2)
           end;
           intros [= <- <-]; simpl in *;
           rewrite Hn2, Ha2, Hu2, Hnodes1, ?Hunstable1, ?orb_true_r, ?orb_false_r;
           repeat split; intros _ map Hmap Hstable; apply Hd2; right; split; assumption ]).
Qed.

Local Transparent IntersectWithKnownNodeAspects NodeInfo_CombineType SetPossibleMaps
  NodeInfo_IntersectType depend_on_stable_maps.

Lemma StaticTypeForNode_not_Word64 (node : Node) (t : NodeType) :
  StaticTypeForNode env node = Some t -> value_representation node <> kWord64.
Proof.
  unfold StaticTypeForNode. destruct (value_representation node); congruence.
Qed.

(** After [BuildCheckMaps_known] has answered [Done]. *)
Lemma BuildCheckMaps_known_done (object : nat) (maps : list MapRef) (s s' : BuilderState) :
  BuildCheckMaps_known env object maps s = Some (Done, s') ->
  exists node info',
    nodes s !! object = Some node /\
    value_representation node <> kWord64 /\
    (exists extra, nodes s' = nodes s ++ extra) /\
    known_node_aspects s' = <[object := info']> (known_node_aspects s) /\
    possible_maps_are_known info' = true /\
    (forall map, map ∈ possible_maps info' -> map ∈ maps) /\
    alt_constant (alternative info') =
      match known_node_aspects s !! object with
      | Some info => alt_constant (alternative info)
      | None => None
      end.
Proof.
  intros Hrun.
  destruct (BuildCheckMaps_known_run _ _ _ _ _ Hrun) as (node & t & Hn & Hstatic & Hcase).
  cbv zeta in Hcase.
  set (info1 := NodeInfo_CombineType t
                  (default NodeInfo_default (known_node_aspects s !! object))) in *.
  assert (Halt1 : alt_constant (alternative info1) =
            match known_node_aspects s !! object with
            | Some info => alt_constant (alternative info)
            | None => None
            end).
  { subst info1. destruct (known_node_aspects s !! object); reflexivity. }
  destruct (IntersectWithKnownNodeAspects_spec maps info1) as (Hin & Hsub & _).
  destruct (known_maps_are_subset_of_requested_maps_ _) eqn:Hflag.
  - destruct Hcase as (_ & Hnodes & info' & Haspects & Hknown & Hmaps & Halt).
    destruct (Hsub eq_refl) as [Hknown1 Hsubset].
    exists node, info'. split; [exact Hn|].
    split; [eapply StaticTypeForNode_not_Word64, Hstatic|].
    split; [exists []; rewrite app_nil_r; exact Hnodes|].
    split; [exact Haspects|]. split; [congruence|].
    split; [rewrite Hmaps; exact Hsubset | congruence].
  - destruct (intersect_set_ _) as [|map0 rest] eqn:Hset; [discriminate|].
    destruct Hcase as (_ & Hnodes & Haspects & _).
    eexists node, _. split; [exact Hn|].
    split; [eapply StaticTypeForNode_not_Word64, Hstatic|].
    split; [eexists; exact Hnodes|].
    split; [exact Haspects|]. split; [reflexivity|].
    split; [exact Hin | exact Halt1].
Qed.

Lemma TryGetConstant_fuel_stable (s s' : BuilderState) :
  (forall v n, nodes s !! v = Some n -> nodes s' !! v = Some n) ->
  (forall v,
     match known_node_aspects s' !! v with
     | Some info => alt_constant (alternative info)
     | None => None
     end =
     match known_node_aspects s !! v with
     | Some info => alt_constant (alternative info)
     | None => None
     end) ->
  forall (fuel fuel' : nat) (v : nat) (r : option ObjectRef),
  (fuel <= fuel')%nat ->
  TryGetConstant_fuel env fuel s v = Some r ->
  TryGetConstant_fuel env fuel' s' v = Some r.
Proof.
  intros Hnodes Halt.
  assert (Hstep : forall fuel fuel' v r,
    (forall c r', match fuel with
                  | O => None
                  | S f => TryGetConstant_fuel env f s c
                  end = Some r' ->
                  match fuel' with
                  | O => None
                  | S f' => TryGetConstant_fuel env f' s' c
                  end = Some r') ->
    TryGetConstant_fuel env fuel s v = Some r ->
    TryGetConstant_fuel env fuel' s' v = Some r).
  { intros fuel fuel' v r Hrec.
    destruct fuel, fuel'; simpl;
      (destruct (nodes s !! v) as [node|] eqn:Hn; [|discriminate];
       rewrite (Hnodes _ _ Hn);
       destruct (TryGetConstant_static env node); [trivial|];
       specialize (Halt v);
       destruct (known_node_aspects s !! v) as [info|],
                (known_node_aspects s' !! v) as [info'|];
       try rewrite Halt; try rewrite <- Halt; trivial;
       try (destruct (alt_constant (alternative info)) as [c|]; [|trivial]; apply (Hrec c));
       try (destruct (alt_constant (alternative info')) as [c|]; [|trivial]; apply (Hrec c))). }
  induction fuel as [|fuel IH]; intros fuel' v r Hle; apply Hstep.
  - intros c r'. discriminate.
  - intros c r' Hc. destruct fuel' as [|fuel']; [lia|]. eapply IH; [lia | exact Hc].
Qed.

End MapCheckMore.

(** X19. When [BuildCheckMaps] returns [Done], either the object is a
    constant whose stable map is among the requested maps, or the possible
    maps recorded for the object afterwards are known and all belong to the
    requested maps. *)
Theorem BuildCheckMaps_narrows_possible_maps `{NodeTypeLattice} (env : Environment)
    (s s' : BuilderState) (object : nat) (maps : list MapRef) :
  BuildCheckMaps env object maps s = Some (Done, s') ->
  constant_with_stable_requested_map env s object maps \/
  exists known,
    known_possible_maps s' object = Some known /\
    forall map, map ∈ known -> map ∈ maps.
Proof.
  unfold BuildCheckMaps, bind.
  destruct (TryGetConstant env object s) as [[c s0]|] eqn:Hconst; [|discriminate].
  assert (s0 = s) as -> by (eapply TryGetConstant_state, Hconst).
  assert (Hknown : BuildCheckMaps_known env object maps s = Some (Done, s') ->
    exists known, known_possible_maps s' object = Some known /\
      forall map, map ∈ known -> map ∈ maps).
  { intros Hrun.
    destruct (BuildCheckMaps_known_done env _ _ _ _ Hrun)
      as (node & info' & _ & _ & _ & Haspects & Hflag & Hsubset & _).
    exists (possible_maps info'). split; [|exact Hsubset].
    unfold known_possible_maps. rewrite Haspects, lookup_insert_eq, Hflag. reflexivity. }
  destruct c as [ref|]; [|intros Hrun; right; apply Hknown, Hrun].
  destruct (bool_decide (object_map ref ∈ maps)) eqn:Hmember;
    [|intros Hrun; right; apply Hknown, Hrun].
  destruct (is_stable (object_map ref)) eqn:Hstable;
    [|intros Hrun; right; apply Hknown, Hrun].
  intros _. left. exists ref. split; [exact Hconst|]. split; [|exact Hstable].
  apply bool_decide_eq_true in Hmember. exact Hmember.
Qed.

Lemma BuildCheckMaps_narrows_possible_maps_witness :
  exists known,
    known_possible_maps state_after_map_check 0 = Some known /\
    forall map, map ∈ known -> map ∈ [receiver_map; other_map; receiver_map].
Proof.
  destruct (BuildCheckMaps_narrows_possible_maps example_environment
              state_with_tagged_node state_after_map_check
              0%nat [receiver_map; other_map; receiver_map]) as [Hconst | Hknown].
  - vm_compute. reflexivity.
  - destruct Hconst as (ref & Hrun & _). vm_compute in Hrun. discriminate.
  - exact Hknown.
Defined.

(** X20. A map check that has returned [Done] makes the same check
    redundant: asking again for the same object and maps returns [Done]
    without adding a node and leaves the known possible maps of the object
    as they are. *)
Theorem BuildCheckMaps_again_is_elided `{NodeTypeLattice} (env : Environment)
    (s s1 : BuilderState) (object : nat) (maps : list MapRef) :
  BuildCheckMaps env object maps s = Some (Done, s1) ->
  exists s2,
    BuildCheckMaps env object maps s1 = Some (Done, s2) /\
    nodes s2 = nodes s1 /\
    forall known, known_possible_maps s1 object = Some known ->
                  known_possible_maps s2 object = Some known.
Proof.
  unfold BuildCheckMaps at 1. unfold bind.
  destruct (TryGetConstant env object s) as [[c s0]|] eqn:Hconst; [|discriminate].
  assert (s0 = s) as -> by (eapply TryGetConstant_state, Hconst).
  assert (Hagain : forall s',
    (exists extra, nodes s' = nodes s ++ extra) ->
    (forall v,
       match known_node_aspects s' !! v with
       | Some info => alt_constant (alternative info)
       | None => None
       end =
       match known_node_aspects s !! v with
       | Some info => alt_constant (alternative info)
       | None => None
       end) ->
    TryGetConstant env object s' = Some (c, s')).
  { intros s' [extra Hnodes] Halt. unfold TryGetConstant in *.
    destruct (TryGetConstant_fuel env (length (nodes s)) s object) as [r|] eqn:Hfuel;
      [|discriminate].
    injection Hconst as <-.
    rewrite (TryGetConstant_fuel_stable env s s' ltac:(intros v n Hv; rewrite Hnodes;
               apply lookup_app_l_Some; exact Hv) Halt
               (length (nodes s)) (length (nodes s')) object r); [reflexivity| |exact Hfuel].
    rewrite Hnodes, length_app. lia. }
  assert (Hknown : BuildCheckMaps_known env object maps s = Some (Done, s1) ->
    exists s2, BuildCheckMaps_known env object maps s1 = Some (Done, s2) /\
      nodes s2 = nodes s1 /\
      forall known, known_possible_maps s1 object = Some known ->
                    known_possible_maps s2 object = Some known).
  { intros Hrun.
    destruct (BuildCheckMaps_known_done env _ _ _ _ Hrun)
      as (node & info' & Hn & Hrep & [extra Hnodes] & Haspects & Hflag & Hsubset & Halt).
    destruct (BuildCheckMaps_known_subset env object maps s1 node info')
      as (s2 & info2 & Hrun2 & Hnodes2 & Haspects2 & Hflag2 & Hmaps2 & _);
      try assumption.
    { rewrite Hnodes. apply lookup_app_l_Some. exact Hn. }
    { rewrite Haspects. apply lookup_insert_eq. }
    exists s2. split; [exact Hrun2|]. split; [exact Hnodes2|].
    intros known. unfold known_possible_maps.
    rewrite Haspects2, Haspects, !lookup_insert_eq, Hflag, Hflag2, Hmaps2. trivial. }
  assert (Hsecond : BuildCheckMaps_known env object maps s = Some (Done, s1) ->
    TryGetConstant env object s1 = Some (c, s1)).
  { intros Hrun.
    destruct (BuildCheckMaps_known_done env _ _ _ _ Hrun)
      as (node & info' & Hn & Hrep & Hnodes & Haspects & Hflag & Hsubset & Halt).
    apply Hagain; [exact Hnodes|]. intros v. rewrite Haspects.
    destruct (decide (v = object)) as [-> | Hne].
    - rewrite lookup_insert_eq. exact Halt.
    - rewrite lookup_insert_ne by congruence. reflexivity. }
  destruct c as [ref|].
  - destruct (bool_decide (object_map ref ∈ maps) && is_stable (object_map ref)) eqn:Hshort.
    + unfold DependOnStableMap, ret. intros [= <-].
      unfold BuildCheckMaps, bind.
      match goal with
      | |- context [TryGetConstant env object ?st] =>
          rewrite (Hagain st);
            [| exists []; simpl; rewrite app_nil_r; reflexivity | intros v; reflexivity]
      end.
      rewrite Hshort. eexists. split; [reflexivity|]. split; [reflexivity|].
      intros known Hk. exact Hk.
    + intros Hrun. unfold BuildCheckMaps, bind. rewrite (Hsecond Hrun), Hshort.
      apply Hknown, Hrun.
  - intros Hrun. unfold BuildCheckMaps, bind. rewrite (Hsecond Hrun).
    apply Hknown, Hrun.
Qed.

Lemma BuildCheckMaps_again_is_elided_witness :
  exists s2,
    BuildCheckMaps example_environment 0 [receiver_map; other_map; receiver_map]
      state_after_map_check = Some (Done, s2) /\
    nodes s2 = nodes state_after_map_check.
Proof.
  destruct (BuildCheckMaps_again_is_elided example_environment
              state_with_tagged_node state_after_map_check
              0%nat [receiver_map; other_map; receiver_map]) as (s2 & Hrun & Hnodes & _).
  - vm_compute. reflexivity.
  - exists s2. split; assumption.
Defined.

(** X21. For an object with no known possible maps (and no constant
    shortcut), [BuildCheckMaps] with a non-empty list of maps appends exactly
    one [CheckMaps] node ([CheckMapsWithMigration] when a requested map is a
    migration target) over the requested maps without duplicates, records
    these as the object's possible maps, leaves the other nodes' aspects
    alone, depends on every stable requested map and raises the
    unstable-map flag exactly when a requested map is unstable. *)
Theorem BuildCheckMaps_unknown_maps_emits_check `{NodeTypeLattice} (env : Environment)
    (s : BuilderState) (object : nat) (maps : list MapRef) (node : Node) :
  nodes s !! object = Some node ->
  value_representation node <> kWord64 ->
  is_Some (TryGetConstant env object s) ->
  ~ constant_with_stable_requested_map env s object maps ->
  known_possible_maps s object = None ->
  maps <> [] ->
  exists s' checked check_type,
    BuildCheckMaps env object maps s = Some (Done, s') /\
    nodes s' = nodes s ++
      [mkNode (if existsb is_migration_target maps
               then kCheckMapsWithMigration checked check_type
               else kCheckMaps checked check_type) [object] kTagged] /\
    NoDup checked /\
    (forall map, map ∈ checked <-> map ∈ maps) /\
    known_possible_maps s' object = Some checked /\
    (forall v, v <> object -> known_node_aspects s' !! v = known_node_aspects s !! v) /\
    (forall map, map ∈ maps -> is_stable map = true ->
       map ∈ stable_map_dependencies s') /\
    any_map_for_any_node_is_unstable s' =
      any_map_for_any_node_is_unstable s ||
      existsb (fun map => negb (is_stable map)) maps.
Proof.
  intros Hn Hrep [[c s0] Hconst] Hshortcut Hunknown Hmaps.
  assert (s0 = s) as -> by (eapply TryGetConstant_state, Hconst).
  assert (Hrun : exists r s', BuildCheckMaps_known env object maps s = Some (r, s')).
  { destruct (StaticTypeForNode_returns env node Hrep) as [t Hstatic].
    unfold BuildCheckMaps_known, bind, GetOrCreateInfoFor, static_type, bind, get_node.
    destruct (known_node_aspects s !! object) as [info|] eqn:Hinfo; simpl;
      rewrite Hn, Hstatic; unfold ret, update_info; simpl;
      rewrite ?Hinfo, ?lookup_insert_eq; unfold get_state; simpl;
      rewrite lookup_insert_eq;
      (destruct (known_maps_are_subset_of_requested_maps_ _);
       [ unfold info_of; simpl; rewrite lookup_insert_eq;
         destruct (NodeTypeIs _ _); simpl; rewrite ?lookup_insert_eq; eauto
       | destruct (intersect_set_ _); [unfold EmitUnconditionalDeopt; eauto|];
         unfold info_of; simpl; rewrite lookup_insert_eq;
         destruct (emit_check_with_migration_ _);
           unfold UpdateKnownNodeAspects, bind, AddNewNode, GetOrCreateInfoFor, update_info;
           simpl; rewrite !lookup_insert_eq; simpl; rewrite lookup_insert_eq;
           (destruct (any_map_is_unstable_ _); simpl;
            (destruct (existing_known_maps_found_ _); [eauto|];
             match goal with
             | |- context [depend_on_stable_maps ?l ?st] =>
                 destruct (depend_on_stable_maps_spec l st) as (s2 & -> & _)
             end; eauto)) ]). }
  destruct Hrun as (r & s' & Hrun).
  destruct (BuildCheckMaps_known_run env _ _ _ _ _ Hrun) as (node' & t & Hn' & Hstatic & Hcase).
  cbv zeta in Hcase.
  set (info1 := NodeInfo_CombineType t
                  (default NodeInfo_default (known_node_aspects s !! object))) in *.
  assert (Hflag1 : possible_maps_are_known info1 = false).
  { subst info1. unfold known_possible_maps in Hunknown.
    destruct (known_node_aspects s !! object) as [info|]; simpl; [|reflexivity].
    destruct (possible_maps_are_known info); [discriminate | reflexivity]. }
  destruct (IntersectWithKnownNodeAspects_spec env maps info1) as (_ & _ & Huniv).
  destruct (Huniv Hflag1) as (Hsub & Hex & Hmig & Hun & Hnd & Hel).
  rewrite Hsub in Hcase.
  destruct (intersect_set_ _) as [|map0 rest] eqn:Hset.
  { exfalso. destruct maps as [|m maps']; [congruence|].
    assert (Hm : m ∈ @nil MapRef) by (apply Hel; left). inversion Hm. }
  destruct Hcase as (-> & Hnodes & Haspects & Hunstable & Hdeps).
  exists s', (map0 :: rest), (GetCheckType (type_ info1)).
  split.
  { unfold BuildCheckMaps, bind. rewrite Hconst.
    destruct c as [ref|]; [|exact Hrun].
    destruct (bool_decide (object_map ref ∈ maps)) eqn:Hmember; [|exact Hrun].
    destruct (is_stable (object_map ref)) eqn:Hstable; [|exact Hrun].
    exfalso. apply Hshortcut. exists ref. split; [exact Hconst|].
    split; [|exact Hstable]. apply bool_decide_eq_true in Hmember. exact Hmember. }
  split; [rewrite Hnodes, Hmig; reflexivity|].
  split; [exact Hnd|]. split; [exact Hel|].
  split.
  { unfold known_possible_maps. rewrite Haspects, lookup_insert_eq. reflexivity. }
  split.
  { intros v Hv. rewrite Haspects. apply lookup_insert_ne. congruence. }
  split.
  { intros map Hmap Hstable. apply (Hdeps Hex); [apply Hel; exact Hmap | exact Hstable]. }
  rewrite Hunstable, Hun. reflexivity.
Qed.

Lemma BuildCheckMaps_unknown_maps_emits_check_witness :
  exists s' checked check_type,
    BuildCheckMaps example_environment 0 [receiver_map; other_map; receiver_map]
      state_with_tagged_node = Some (Done, s') /\
    nodes s' = nodes state_with_tagged_node ++
      [mkNode (kCheckMaps checked check_type) [0%nat] kTagged] /\
    NoDup checked /\
    known_possible_maps s' 0 = Some checked.
Proof.
  destruct (BuildCheckMaps_unknown_maps_emits_check example_environment
              state_with_tagged_node 0%nat [receiver_map; other_map; receiver_map]
              (mkNode (kOtherOpcode 0) [] kTagged))
    as (s' & checked & check_type & Hrun & Hnodes & Hnd & _ & Hknown & _).
  - reflexivity.
  - discriminate.
  - eexists. vm_compute. reflexivity.
  - intros (ref & Hrun & _). vm_compute in Hrun. discriminate.
  - reflexivity.
  - discriminate.
  - exists s', checked, check_type. repeat split; assumption.
Defined.

(** ** [EnsureType] and the float64 conversions *)

(** X22. Once [EnsureType] has run for a value and a type, a second
    [EnsureType] for the same value and type answers that the type is known
    and leaves the state unchanged, provided combining any type with the
    requested one yields a subtype of the requested one. *)
Theorem EnsureType_again `{NodeTypeLattice} (env : Environment)
    (s s1 : BuilderState) (value : nat) (type : NodeType) (r : bool * NodeType) :
  (forall known, NodeTypeIs (CombineType known type) type = true) ->
  EnsureType env value type s = Some (r, s1) ->
  exists old_type, EnsureType env value type s1 = Some ((true, old_type), s1).
Proof.
  intros Hlaw. unfold EnsureType, bind, static_type, bind, get_node.
  destruct (nodes s !! value) as [node|] eqn:Hn; [|discriminate].
  destruct (StaticTypeForNode env node) as [static|] eqn:Hstatic; [|discriminate].
  unfold ret. destruct (NodeTypeIs static type) eqn:Hs.
  { intros [= <- <-]. rewrite Hn, Hstatic, Hs. eauto. }
  unfold GetOrCreateInfoFor, update_info.
  destruct (known_node_aspects s !! value) as [info|] eqn:Hinfo.
  - destruct (NodeTypeIs (type_ info) type) eqn:Hk.
    + intros [= <- <-]. rewrite Hn, Hstatic, Hs, Hinfo, Hk. eauto.
    + rewrite Hinfo. intros [= <- <-]. simpl.
      rewrite Hn, Hstatic, Hs. simpl. rewrite lookup_insert_eq. simpl. rewrite Hlaw. eauto.
  - simpl. destruct (NodeTypeIs kUnknown type) eqn:Hk.
    + intros [= <- <-]. simpl. rewrite Hn, Hstatic, Hs. simpl. rewrite lookup_insert_eq. simpl.
      rewrite Hk. eauto.
    + simpl. rewrite lookup_insert_eq. intros [= <- <-]. simpl.
      rewrite Hn, Hstatic, Hs. simpl. rewrite lookup_insert_eq. simpl. rewrite Hlaw. eauto.
Qed.

Lemma EnsureType_again_witness :
  exists old_type,
    EnsureType example_environment 0 (kSmi : @NodeType BitsetNodeType)
      (mkBuilderState [mkNode (kOtherOpcode 0) [] kTagged]
         {[ 0%nat := mkNodeInfo (30 : @NodeType BitsetNodeType) false [] false
                       (mkAlternativeNodes None None None None None) ]}
         false ∅ ∅ ∅ [] true) =
    Some ((true, old_type),
      mkBuilderState [mkNode (kOtherOpcode 0) [] kTagged]
         {[ 0%nat := mkNodeInfo (30 : @NodeType BitsetNodeType) false [] false
                       (mkAlternativeNodes None None None None None) ]}
         false ∅ ∅ ∅ [] true).
Proof.
  apply (EnsureType_again example_environment state_with_tagged_node _ 0%nat
           (kSmi : @NodeType BitsetNodeType) (false, 0)).
  - intros known. simpl. apply Z.eqb_eq. apply Z.bits_inj'. intros n Hn.
    rewrite Z.land_spec, Z.lor_spec.
    destruct (Z.testbit known n), (Z.testbit 30 n); reflexivity.
  - vm_compute. reflexivity.
Defined.

Section ConversionMore.
Context `{NodeTypeLattice} (env : Environment).

Lemma RecordUseReprHintIfPhi_skips (s : BuilderState) (value : nat) (node : Node)
    (r : UseRepresentation) :
  nodes s !! value = Some node -> is_phi node = false ->
  RecordUseReprHintIfPhi value r s = Some (tt, s).
Proof.
  intros Hn Hphi. unfold RecordUseReprHintIfPhi. rewrite Hn, Hphi. reflexivity.
Qed.

End ConversionMore.

(** X23. The float64 conversion of a HoleyFloat64 value under the hint
    [kAssumeNumberOrOddball] is not cached: every request appends a new
    [HoleyFloat64ToMaybeNanFloat64] node and records no float64 alternative,
    while [GetHoleyFloat64ForToNumber] returns the value itself, whatever the
    hint, without adding a node. *)
Theorem GetFloat64ForToNumber_of_hole_is_not_cached `{NodeTypeLattice} (env : Environment)
    (s : BuilderState) (value : nat) (node : Node) :
  nodes s !! value = Some node ->
  value_representation node = kHoleyFloat64 ->
  GetFloat64_constant env node kAssumeNumberOrOddball = None ->
  (forall info, known_node_aspects s !! value = Some info ->
     alt_float64 (alternative info) = None) ->
  exists s1 s2,
    GetFloat64ForToNumber env value kAssumeNumberOrOddball s =
      Some (length (nodes s), s1) /\
    nodes s1 = nodes s ++ [mkNode kHoleyFloat64ToMaybeNanFloat64 [value] kFloat64] /\
    GetFloat64ForToNumber env value kAssumeNumberOrOddball s1 =
      Some (S (length (nodes s)), s2) /\
    nodes s2 = nodes s1 ++ [mkNode kHoleyFloat64ToMaybeNanFloat64 [value] kFloat64] /\
    (forall info, known_node_aspects s2 !! value = Some info ->
       alt_float64 (alternative info) = None) /\
    (forall hint, exists s0,
       GetHoleyFloat64ForToNumber env value hint s = Some (value, s0) /\
       nodes s0 = nodes s /\ known_node_aspects s0 = known_node_aspects s).
Proof.
  intros Hn Hrep Hconst Halt.
  assert (Hholey : forall hint, exists s0,
    GetHoleyFloat64ForToNumber env value hint s = Some (value, s0) /\
    nodes s0 = nodes s /\ known_node_aspects s0 = known_node_aspects s).
  { intros hint. unfold GetHoleyFloat64ForToNumber. unfold bind at 1.
    destruct (RecordUseReprHintIfPhi_first s value node kUseHoleyFloat64 Hn)
      as (s0 & -> & Hnodes0 & Haspects0 & _).
    unfold bind, get_node. rewrite Hnodes0, Hn, Hrep.
    exists s0. split; [reflexivity|]. split; assumption. }
  assert (Hrun : forall st,
    nodes st !! value = Some node ->
    (forall info, known_node_aspects st !! value = Some info ->
       alt_float64 (alternative info) = None) ->
    exists st',
      GetFloat64ForToNumber env value kAssumeNumberOrOddball st =
        Some (length (nodes st), st') /\
      nodes st' = nodes st ++ [mkNode kHoleyFloat64ToMaybeNanFloat64 [value] kFloat64] /\
      (forall info, known_node_aspects st' !! value = Some info ->
         alt_float64 (alternative info) = None)).
  { intros st Hst Hno.
    unfold GetFloat64ForToNumber, GetFloat64ForToNumber_with, bind, get_node.
    rewrite Hst, Hrep, Hconst. unfold GetOrCreateInfoFor.
    destruct (known_node_aspects st !! value) as [info|] eqn:Hinfo.
    - rewrite (Hno info eq_refl). eexists. split; [reflexivity|].
      split; [reflexivity|]. simpl. rewrite Hinfo. exact Hno.
    - simpl. eexists. split; [reflexivity|]. split; [reflexivity|].
      simpl. intros info. rewrite lookup_insert_eq. intros [= <-]. reflexivity. }
  destruct (Hrun s Hn Halt) as (s1 & Hrun1 & Hnodes1 & Halt1).
  destruct (Hrun s1) as (s2 & Hrun2 & Hnodes2 & Halt2); [|exact Halt1|].
  { rewrite Hnodes1. apply lookup_app_l_Some. exact Hn. }
  exists s1, s2. split; [exact Hrun1|]. split; [exact Hnodes1|].
  split; [|split; [|split]; assumption].
  rewrite Hrun2, Hnodes1, length_app. simpl. do 2 f_equal. lia.
Qed.

Lemma GetFloat64ForToNumber_of_hole_is_not_cached_witness :
  exists s1 s2,
    GetFloat64ForToNumber example_environment 0 kAssumeNumberOrOddball
      state_with_holey_float64_node = Some (1%nat, s1) /\
    GetFloat64ForToNumber example_environment 0 kAssumeNumberOrOddball s1 =
      Some (2%nat, s2).
Proof.
  destruct (GetFloat64ForToNumber_of_hole_is_not_cached example_environment
              state_with_holey_float64_node 0%nat
              (mkNode (kOtherOpcode 0) [] kHoleyFloat64))
    as (s1 & s2 & Hrun1 & _ & Hrun2 & _); try reflexivity.
  - intros info Hinfo. vm_compute in Hinfo. discriminate.
  - exists s1, s2. split; assumption.
Defined.

(** X24. Conversions of constants allocate no [NodeInfo]: when [GetInt32]
    or [GetFloat64ForToNumber] folds its argument to a constant, the result
    is the graph's cached constant node for that number and the known node
    aspects are left untouched. *)
Theorem conversions_of_constants_allocate_no_info `{NodeTypeLattice} (env : Environment)
    (s : BuilderState) (value : nat) (node : Node) :
  nodes s !! value = Some node ->
  (forall constant,
     value_representation node <> kInt32 ->
     GetInt32_constant env node = Some constant ->
     exists r s1,
       GetInt32 env value s = Some (r, s1) /\
       GetInt32Constant constant s = Some (r, s1) /\
       known_node_aspects s1 = known_node_aspects s /\
       int32_constants s1 !! constant = Some r) /\
  (forall hint constant,
     value_representation node <> kFloat64 ->
     GetFloat64_constant env node hint = Some constant ->
     exists r s1,
       GetFloat64ForToNumber env value hint s = Some (r, s1) /\
       GetFloat64Constant constant s = Some (r, s1) /\
       known_node_aspects s1 = known_node_aspects s /\
       float64_constants s1 !! constant = Some r).
Proof.
  intros Hn. split.
  - intros constant Hrep Hconst.
    assert (Hphi : is_phi node = false).
    { unfold GetInt32_constant in Hconst. unfold is_phi.
      destruct (opcode node); try discriminate; reflexivity. }
    unfold GetInt32, bind.
    rewrite (RecordUseReprHintIfPhi_skips s value node kUseInt32 Hn Hphi).
    unfold get_node. rewrite Hn, Hconst.
    assert (Hrun : exists r s1,
      GetInt32Constant constant s = Some (r, s1) /\
      known_node_aspects s1 = known_node_aspects s /\
      int32_constants s1 !! constant = Some r).
    { unfold GetInt32Constant.
      destruct (int32_constants s !! constant) as [n|] eqn:Hc.
      - exists n, s. repeat split. exact Hc.
      - eexists _, _. split; [reflexivity|]. simpl. split; [reflexivity|].
        apply lookup_insert_eq. }
    destruct Hrun as (r & s1 & Hrun & Ha & Hc). exists r, s1.
    destruct (value_representation node); try congruence; repeat split; assumption.
  - intros hint constant Hrep Hconst.
    unfold GetFloat64ForToNumber, GetFloat64ForToNumber_with, bind, get_node.
    rewrite Hn, Hconst.
    assert (Hrun : exists r s1,
      GetFloat64Constant constant s = Some (r, s1) /\
      known_node_aspects s1 = known_node_aspects s /\
      float64_constants s1 !! constant = Some r).
    { unfold GetFloat64Constant.
      destruct (float64_constants s !! constant) as [n|] eqn:Hc.
      - exists n, s. repeat split. exact Hc.
      - eexists _, _. split; [reflexivity|]. simpl. split; [reflexivity|].
        apply lookup_insert_eq. }
    destruct Hrun as (r & s1 & Hrun & Ha & Hc). exists r, s1.
    destruct (value_representation node); try congruence; repeat split; assumption.
Qed.

Lemma conversions_of_constants_allocate_no_info_witness :
  exists r s1,
    GetInt32 example_environment 0 state_with_smi_constant = Some (r, s1) /\
    known_node_aspects s1 = known_node_aspects state_with_smi_constant /\
    int32_constants s1 !! 300 = Some r.
Proof.
  destruct (proj1 (conversions_of_constants_allocate_no_info example_environment
                     state_with_smi_constant 0%nat
                     (mkNode (kSmiConstant 300) [] kTagged) eq_refl) 300)
    as (r & s1 & Hrun & _ & Haspects & Hcache).
  - discriminate.
  - reflexivity.
  - exists r, s1. repeat split; assumption.
Defined.

(** ** [ClampToUint8] and [GetUint8ClampedForToNumber] *)

Lemma ClampToUint8_range (value : Z) : 0 <= ClampToUint8 value <= 255.
Proof.
  unfold ClampToUint8.
  destruct (value <? 0) eqn:Hneg; [lia|]. apply Z.ltb_ge in Hneg.
  destruct (255 <? value) eqn:Hbig; [lia|]. apply Z.ltb_ge in Hbig. lia.
Qed.

Lemma GetInt32Constant_wf `{NodeTypeLattice} (constant : Z) (s : BuilderState) :
  int32_constants_wf s ->
  exists r s',
    GetInt32Constant constant s = Some (r, s') /\
    int32_constants_wf s' /\
    nodes s' !! r = Some (mkNode (kInt32Constant constant) [] kInt32) /\
    known_node_aspects s' = known_node_aspects s /\
    (exists extra, nodes s' = nodes s ++ extra).
Proof.
  intros Hwf. unfold GetInt32Constant.
  destruct (int32_constants s !! constant) as [n|] eqn:Hc.
  - exists n, s. split; [reflexivity|]. split; [exact Hwf|].
    split; [apply Hwf, Hc|]. split; [reflexivity|]. exists []. rewrite app_nil_r. reflexivity.
  - eexists _, _. split; [reflexivity|]. simpl. split; [|split; [|split]].
    + intros c n. simpl. destruct (decide (c = constant)) as [-> | Hne].
      * rewrite lookup_insert_eq. intros [= <-].
        rewrite lookup_app_r by lia. rewrite Nat.sub_diag. reflexivity.
      * rewrite lookup_insert_ne by congruence. intros Hn.
        apply lookup_app_l_Some, Hwf, Hn.
    + rewrite lookup_app_r by lia. rewrite Nat.sub_diag. reflexivity.
    + reflexivity.
    + eexists. reflexivity.
Qed.

(** X25. [GetUint8ClampedForToNumber] of a Smi or int32 constant is the
    [Int32Constant] of the constant clamped to 0..255 (0 below, 255 above,
    the constant itself in range); no conversion node is built and the known
    node aspects are left untouched. *)
Theorem GetUint8ClampedForToNumber_folds_constants `{NodeTypeLattice}
    (opcode_of : OtherNodeClass -> nat) (s : BuilderState) (value : nat)
    (node : Node) (hint : ToNumberHint) (constant : Z) :
  int32_constants_wf s ->
  nodes s !! value = Some node ->
  (value_representation node = kTagged /\ opcode node = kSmiConstant constant) \/
  (value_representation node = kInt32 /\ opcode node = kInt32Constant constant) ->
  exists r s' clamped,
    GetUint8ClampedForToNumber opcode_of value hint s = Some (r, s') /\
    nodes s' !! r = Some (mkNode (kInt32Constant clamped) [] kInt32) /\
    0 <= clamped <= 255 /\
    (0 <= constant <= 255 -> clamped = constant) /\
    (constant < 0 -> clamped = 0) /\ (255 < constant -> clamped = 255) /\
    known_node_aspects s' = known_node_aspects s /\
    int32_constants_wf s'.
Proof.
  intros Hwf Hn Hcase.
  destruct (GetInt32Constant_wf (ClampToUint8 constant) s Hwf)
    as (r & s' & Hrun & Hwf' & Hnode & Haspects & _).
  exists r, s', (ClampToUint8 constant).
  split.
  { unfold GetUint8ClampedForToNumber, bind, get_node. rewrite Hn.
    destruct Hcase as [[-> ->] | [-> ->]]; exact Hrun. }
  split; [exact Hnode|]. split; [apply ClampToUint8_range|].
  unfold ClampToUint8.
  repeat split; try assumption; intros Hc;
    destruct (constant <? 0) eqn:Hneg; try (apply Z.ltb_lt in Hneg);
    try (apply Z.ltb_ge in Hneg); try lia;
    destruct (255 <? constant) eqn:Hbig; try (apply Z.ltb_lt in Hbig);
    try (apply Z.ltb_ge in Hbig); lia.
Qed.

Lemma GetUint8ClampedForToNumber_folds_constants_witness :
  exists r s',
    GetUint8ClampedForToNumber (fun _ => 7%nat) 0 kAssumeNumber state_with_smi_constant =
      Some (r, s') /\
    nodes s' !! r = Some (mkNode (kInt32Constant 255) [] kInt32).
Proof.
  destruct (GetUint8ClampedForToNumber_folds_constants (fun _ => 7%nat)
              state_with_smi_constant 0%nat (mkNode (kSmiConstant 300) [] kTagged)
              kAssumeNumber 300)
    as (r & s' & clamped & Hrun & Hnode & _ & _ & _ & Hbig & _).
  - intros c n Hc. vm_compute in Hc. discriminate.
  - reflexivity.
  - left. split; reflexivity.
  - exists r, s'. split; [exact Hrun|]. rewrite <- (Hbig ltac:(lia)). exact Hnode.
Defined.

(** ** [GetTruncatedInt32ForToNumber] *)

Section TruncationProofs.
Context `{NodeTypeLattice} (env : Environment) (opcode_of : OtherNodeClass -> nat)
        (DoubleToInt32 : Float64 -> Z) (Smi_IsValid : Z -> bool).

Lemma AddNewOtherNode_grows (value : nat) (c : OtherNodeClass) (ins : list nat)
    (s : BuilderState) :
  exists r s', AddNewOtherNode opcode_of c ins s = Some (r, s') /\ grows value s s'.
Proof.
  eexists _, _. split; [reflexivity|].
  repeat split; try reflexivity; simpl; eauto.
Qed.

Lemma set_truncated_int32_to_number_cached (value r : nat) (s : BuilderState)
    (info : NodeInfo) :
  known_node_aspects s !! value = Some info ->
  exists s', set_truncated_int32_to_number value r s = Some (r, s') /\ extends s s' /\
    cached_in s' value alt_truncated_int32_to_number r.
Proof.
  intros Hinfo. unfold set_truncated_int32_to_number, bind, update_info, ret.
  rewrite Hinfo. eexists. split; [reflexivity|]. split.
  - split; [exists []; simpl; rewrite app_nil_r|]; reflexivity.
  - eexists. simpl. rewrite lookup_insert_eq. split; reflexivity.
Qed.

Lemma GetTruncatedInt32ForToNumber_again (s : BuilderState) (value : nat) (node : Node)
    (hint : ToNumberHint) (r : nat) :
  nodes s !! value = Some node ->
  value_representation node <> kInt32 ->
  value_representation node <> kUint32 ->
  GetTruncatedInt32_constant env DoubleToInt32 Smi_IsValid node = None ->
  truncation_cached s value r ->
  exists s',
    GetTruncatedInt32ForToNumber env opcode_of DoubleToInt32 Smi_IsValid value hint s =
      Some (r, s') /\
    nodes s' = nodes s /\ known_node_aspects s' = known_node_aspects s.
Proof.
  intros Hn Hint Huint Hconst (info & Hinfo & Hcached).
  unfold GetTruncatedInt32ForToNumber. unfold bind at 1.
  destruct (RecordUseReprHintIfPhi_first s value node kUseTruncatedInt32 Hn)
    as (s0 & -> & Hnodes0 & Haspects0 & _).
  unfold bind at 1. unfold get_node. rewrite Hnodes0, Hn.
  exists s0. split; [|split; assumption].
  destruct (value_representation node); try congruence; rewrite Hconst;
    unfold bind, GetOrCreateInfoFor; rewrite Haspects0, Hinfo;
    (destruct Hcached as [Ha | [Ha Hb]]; rewrite ?Ha, ?Hb; reflexivity).
Qed.


Lemma int32_store (op : Opcode) (value : nat) (s : BuilderState) (info : NodeInfo) :
  known_node_aspects s !! value = Some info ->
  exists s',
    bind (AddNewNode op [value]) (set_int32 value) s = Some (length (nodes s), s') /\
    (exists extra, nodes s' = nodes s ++ extra) /\
    truncation_cached s' value (length (nodes s)).
Proof.
  intros Hinfo. unfold bind, AddNewNode, set_int32, bind, update_info, ret. simpl.
  rewrite Hinfo. eexists. split; [reflexivity|]. simpl. split; [eexists; reflexivity|].
  unfold truncation_cached. simpl. eexists. rewrite lookup_insert_eq.
  split; [reflexivity|]. left. reflexivity.
Qed.

Lemma truncated_store (c : OtherNodeClass) (value : nat) (s : BuilderState)
    (info : NodeInfo) :
  known_node_aspects s !! value = Some info ->
  alt_int32 (alternative info) = None ->
  exists s',
    bind (AddNewOtherNode opcode_of c [value]) (set_truncated_int32_to_number value) s =
      Some (length (nodes s), s') /\
    (exists extra, nodes s' = nodes s ++ extra) /\
    truncation_cached s' value (length (nodes s)).
Proof.
  intros Hinfo Hnone.
  unfold bind, AddNewOtherNode, set_truncated_int32_to_number, bind, update_info, ret.
  simpl. rewrite Hinfo. eexists. split; [reflexivity|]. simpl.
  split; [eexists; reflexivity|].
  unfold truncation_cached. simpl. eexists. rewrite lookup_insert_eq.
  split; [reflexivity|]. right. simpl.
  split; [exact Hnone | reflexivity].
Qed.

Lemma GetTruncatedInt32ForToNumber_first (s s1 : BuilderState) (value : nat) (node : Node)
    (hint : ToNumberHint) (r : nat) :
  nodes s !! value = Some node ->
  value_representation node <> kInt32 ->
  value_representation node <> kUint32 ->
  GetTruncatedInt32_constant env DoubleToInt32 Smi_IsValid node = None ->
  GetTruncatedInt32ForToNumber env opcode_of DoubleToInt32 Smi_IsValid value hint s =
    Some (r, s1) ->
  nodes s1 !! value = Some node /\ truncation_cached s1 value r.
Proof.
  intros Hn Hint Huint Hconst.
  unfold GetTruncatedInt32ForToNumber. unfold bind at 1.
  destruct (RecordUseReprHintIfPhi_first s value node kUseTruncatedInt32 Hn)
    as (s0 & -> & Hnodes0 & _).
  assert (Hn0 : nodes s0 !! value = Some node) by (rewrite Hnodes0; exact Hn).
  unfold bind at 1. unfold get_node. rewrite Hn0.
  assert (Hcache : forall (k : NodeInfo -> M nat),
    (forall info st, known_node_aspects st !! value = Some info ->
       nodes st !! value = Some node ->
       alt_int32 (alternative info) = None ->
       alt_truncated_int32_to_number (alternative info) = None ->
       k info st = Some (r, s1) ->
       nodes s1 !! value = Some node /\ truncation_cached s1 value r) ->
    bind (GetOrCreateInfoFor value)
      (fun node_info =>
         match alt_int32 (alternative node_info) with
         | Some alt => ret alt
         | None =>
             match alt_truncated_int32_to_number (alternative node_info) with
             | Some alt => ret alt
             | None => k node_info
             end
         end) s0 = Some (r, s1) ->
    nodes s1 !! value = Some node /\ truncation_cached s1 value r).
  { intros k Hk. unfold bind at 1.
    destruct (GetOrCreateInfoFor_grows value s0) as (info & st & -> & Hg & Hinfo).
    pose proof (grows_lookup _ _ _ _ _ Hg Hn0) as Hnst.
    destruct (alt_int32 (alternative info)) as [alt|] eqn:Ha.
    { intros [= <- <-]. split; [exact Hnst|]. exists info. split; [exact Hinfo|].
      left. exact Ha. }
    destruct (alt_truncated_int32_to_number (alternative info)) as [alt|] eqn:Hb.
    { intros [= <- <-]. split; [exact Hnst|]. exists info. split; [exact Hinfo|].
      right. split; assumption. }
    apply Hk; assumption. }
  assert (Hstore : forall st st' r' (m : M nat),
    nodes st !! value = Some node ->
    (exists s', m st = Some (length (nodes st), s') /\
       (exists extra, nodes s' = nodes st ++ extra) /\
       truncation_cached s' value (length (nodes st))) ->
    m st = Some (r', st') ->
    nodes st' !! value = Some node /\ truncation_cached st' value r').
  { intros st st' r' m Hst (s' & Hrun & [extra Hnodes] & Hc) Hm.
    rewrite Hrun in Hm. injection Hm as <- <-.
    split; [rewrite Hnodes; apply lookup_app_l_Some; exact Hst | exact Hc]. }
  destruct (value_representation node) eqn:Hrep; try congruence; rewrite Hconst.
  - (* kTagged *)
    apply Hcache. intros info st Hinfo Hst Ha Hb. unfold bind at 1.
    destruct (EnsureType_grows env value node (ToNumberHintToNodeType hint) st Hst
                ltac:(rewrite Hrep; discriminate)) as (r0 & s2 & -> & Hg2).
    pose proof (grows_lookup _ _ _ _ _ Hg2 Hst) as Hn2.
    destruct Hg2 as (_ & _ & _ & Halt2).
    destruct (Halt2 info Hinfo) as (info2 & Hinfo2 & Hsame).
    destruct (NodeTypeIsSmi (snd r0)).
    { apply Hstore; [exact Hn2 | eapply int32_store, Hinfo2]. }
    case_bool_decide.
    { apply Hstore; [exact Hn2 | eapply int32_store, Hinfo2]. }
    destruct (ToNumberHintToConversionType hint) as [ct|]; [|discriminate].
    destruct (NodeTypeIs (snd r0) (ToNumberHintToNodeType hint));
      (apply Hstore; [exact Hn2 | eapply truncated_store; [exact Hinfo2 | congruence]]).
  - (* kFloat64 *)
    apply Hcache. intros info st Hinfo Hst Ha Hb.
    apply Hstore; [exact Hst | eapply truncated_store; eassumption].
  - (* kHoleyFloat64 *)
    apply Hcache. intros info st Hinfo Hst Ha Hb.
    apply Hstore; [exact Hst | eapply truncated_store; eassumption].
  - (* kWord64 *)
    apply Hcache. intros info st Hinfo Hst Ha Hb. discriminate.
Qed.

End TruncationProofs.

(** X26. The truncated int32 of a value that is neither int32, uint32 nor
    a folded constant is built once: after a first
    [GetTruncatedInt32ForToNumber], a second request returns the same node
    whatever its hint, adding no node and changing no node aspect. *)
Theorem GetTruncatedInt32ForToNumber_memoized_across_hints `{NodeTypeLattice}
    (env : Environment) (opcode_of : OtherNodeClass -> nat)
    (DoubleToInt32 : Float64 -> Z) (Smi_IsValid : Z -> bool)
    (s s1 : BuilderState) (value : nat) (node : Node) (hint : ToNumberHint) (r : nat) :
  nodes s !! value = Some node ->
  value_representation node <> kInt32 ->
  value_representation node <> kUint32 ->
  GetTruncatedInt32_constant env DoubleToInt32 Smi_IsValid node = None ->
  GetTruncatedInt32ForToNumber env opcode_of DoubleToInt32 Smi_IsValid value hint s =
    Some (r, s1) ->
  forall hint', exists s2,
    GetTruncatedInt32ForToNumber env opcode_of DoubleToInt32 Smi_IsValid value hint' s1 =
      Some (r, s2) /\
    nodes s2 = nodes s1 /\ known_node_aspects s2 = known_node_aspects s1.
Proof.
  intros Hn Hint Huint Hconst Hrun hint'.
  destruct (GetTruncatedInt32ForToNumber_first env opcode_of DoubleToInt32 Smi_IsValid
              s s1 value node hint r Hn Hint Huint Hconst Hrun) as [Hn1 Hcached].
  apply (GetTruncatedInt32ForToNumber_again env opcode_of DoubleToInt32 Smi_IsValid
           s1 value node hint' r Hn1 Hint Huint Hconst Hcached).
Qed.

Lemma GetTruncatedInt32ForToNumber_memoized_across_hints_witness :
  exists s2,
    GetTruncatedInt32ForToNumber example_environment (fun _ => 7%nat) (fun d => d)
      (fun _ => true) 0 kAssumeSmi
      (mkBuilderState
         [mkNode (kOtherOpcode 0) [] kHoleyFloat64;
          mkNode (kOtherOpcode 7) [0%nat] kInt32]
         {[ 0%nat := mkNodeInfo (0 : @NodeType BitsetNodeType) false [] false
                       (mkAlternativeNodes None None (Some 1%nat) None None) ]}
         false ∅ ∅ ∅ [] true) = Some (1%nat, s2).
Proof.
  destruct (GetTruncatedInt32ForToNumber_memoized_across_hints example_environment
              (fun _ => 7%nat) (fun d => d) (fun _ => true)
              state_with_holey_float64_node
              (mkBuilderState
                 [mkNode (kOtherOpcode 0) [] kHoleyFloat64;
                  mkNode (kOtherOpcode 7) [0%nat] kInt32]
                 {[ 0%nat := mkNodeInfo (0 : @NodeType BitsetNodeType) false [] false
                               (mkAlternativeNodes None None (Some 1%nat) None None) ]}
                 false ∅ ∅ ∅ [] true)
              0%nat (mkNode (kOtherOpcode 0) [] kHoleyFloat64) kAssumeNumberOrOddball
              1%nat) with (hint' := kAssumeSmi) as (s2 & Hrun & _);
    try discriminate; try reflexivity.
  exists s2. exact Hrun.
Defined.

(** X27. The truncation of a uint32 value is not cached: each
    [GetTruncatedInt32ForToNumber] appends a fresh [TruncateUint32ToInt32]
    node and leaves the known node aspects untouched. *)
Theorem GetTruncatedInt32ForToNumber_of_uint32_is_not_cached `{NodeTypeLattice}
    (env : Environment) (opcode_of : OtherNodeClass -> nat)
    (DoubleToInt32 : Float64 -> Z) (Smi_IsValid : Z -> bool)
    (s : BuilderState) (value : nat) (node : Node) (hint hint' : ToNumberHint) :
  nodes s !! value = Some node ->
  value_representation node = kUint32 ->
  exists s1 s2,
    GetTruncatedInt32ForToNumber env opcode_of DoubleToInt32 Smi_IsValid value hint s =
      Some (length (nodes s), s1) /\
    nodes s1 = nodes s ++ [mkNode kTruncateUint32ToInt32 [value] kInt32] /\
    known_node_aspects s1 = known_node_aspects s /\
    GetTruncatedInt32ForToNumber env opcode_of DoubleToInt32 Smi_IsValid value hint' s1 =
      Some (S (length (nodes s)), s2) /\
    nodes s2 = nodes s1 ++ [mkNode kTruncateUint32ToInt32 [value] kInt32] /\
    known_node_aspects s2 = known_node_aspects s.
Proof.
  intros Hn Hrep.
  assert (Hrun : forall st h,
    nodes st !! value = Some node ->
    exists st',
      GetTruncatedInt32ForToNumber env opcode_of DoubleToInt32 Smi_IsValid value h st =
        Some (length (nodes st), st') /\
      nodes st' = nodes st ++ [mkNode kTruncateUint32ToInt32 [value] kInt32] /\
      known_node_aspects st' = known_node_aspects st).
  { intros st h Hst. unfold GetTruncatedInt32ForToNumber. unfold bind at 1.
    destruct (RecordUseReprHintIfPhi_first st value node kUseTruncatedInt32 Hst)
      as (s0 & -> & Hnodes0 & Haspects0 & _).
    unfold bind, get_node. rewrite Hnodes0, Hst, Hrep.
    unfold AddNewNode. rewrite Hnodes0. eexists. split; [reflexivity|].
    simpl. split; [reflexivity | exact Haspects0]. }
  destruct (Hrun s hint Hn) as (s1 & Hrun1 & Hnodes1 & Haspects1).
  destruct (Hrun s1 hint') as (s2 & Hrun2 & Hnodes2 & Haspects2).
  { rewrite Hnodes1. apply lookup_app_l_Some. exact Hn. }
  exists s1, s2. split; [exact Hrun1|]. split; [exact Hnodes1|].
  split; [exact Haspects1|]. split; [|split; [exact Hnodes2 | congruence]].
  rewrite Hrun2, Hnodes1, length_app. simpl. do 2 f_equal. lia.
Qed.

Lemma GetTruncatedInt32ForToNumber_of_uint32_is_not_cached_witness :
  exists s1 s2,
    GetTruncatedInt32ForToNumber example_environment (fun _ => 7%nat) (fun d => d)
      (fun _ => true) 0 kAssumeNumber state_with_uint32_node = Some (1%nat, s1) /\
    GetTruncatedInt32ForToNumber example_environment (fun _ => 7%nat) (fun d => d)
      (fun _ => true) 0 kAssumeNumber s1 = Some (2%nat, s2).
Proof.
  destruct (GetTruncatedInt32ForToNumber_of_uint32_is_not_cached example_environment
              (fun _ => 7%nat) (fun d => d) (fun _ => true) state_with_uint32_node
              0%nat (mkNode (kOtherOpcode 0) [] kUint32) kAssumeNumber kAssumeNumber)
    as (s1 & s2 & Hrun1 & _ & _ & Hrun2 & _); try reflexivity.
  exists s1, s2. split; assumption.
Defined.

(** X28. The int32 alternative that [GetInt32] records for a tagged,
    non-constant value is reused by the later conversions: the truncating
    conversion returns that same node without building anything, and the
    clamping conversion builds its [Int32ToUint8Clamped] on that node rather
    than a checked conversion of the tagged value. *)
Theorem GetInt32_result_is_reused `{NodeTypeLattice}
    (env : Environment) (opcode_of : OtherNodeClass -> nat)
    (DoubleToInt32 : Float64 -> Z) (Smi_IsValid : Z -> bool)
    (s : BuilderState) (value : nat) (node : Node) (hint : ToNumberHint) :
  nodes s !! value = Some node ->
  value_representation node = kTagged ->
  GetInt32_constant env node = None ->
  GetTruncatedInt32_constant env DoubleToInt32 Smi_IsValid node = None ->
  exists r s1 s2 s3,
    GetInt32 env value s = Some (r, s1) /\
    GetTruncatedInt32ForToNumber env opcode_of DoubleToInt32 Smi_IsValid value hint s1 =
      Some (r, s2) /\
    nodes s2 = nodes s1 /\ known_node_aspects s2 = known_node_aspects s1 /\
    GetUint8ClampedForToNumber opcode_of value hint s1 = Some (length (nodes s1), s3) /\
    nodes s3 = nodes s1 ++
      [mkNode (kOtherOpcode (opcode_of Int32ToUint8Clamped)) [r] kInt32] /\
    known_node_aspects s3 = known_node_aspects s1.
Proof.
  intros Hn Hrep Hc32 Hctrunc.
  destruct (GetInt32_first env s value node Hn ltac:(rewrite Hrep; discriminate))
    as (r & s1 & Hrun & Hn1 & _ & Hready).
  assert (Hcached : cached_in s1 value alt_int32 r).
  { destruct Hready as [[Hr _] | [(_ & c & Hc & _) | (_ & _ & Hcached)]];
      [congruence | congruence | exact Hcached]. }
  destruct Hcached as (info & Hinfo & Halt).
  destruct (GetTruncatedInt32ForToNumber_again env opcode_of DoubleToInt32 Smi_IsValid
              s1 value node hint r Hn1) as (s2 & Hrun2 & Hnodes2 & Haspects2);
    try (rewrite Hrep; discriminate); try assumption.
  { exists info. split; [exact Hinfo|]. left. exact Halt. }
  exists r, s1, s2. eexists. split; [exact Hrun|]. split; [exact Hrun2|].
  split; [exact Hnodes2|]. split; [exact Haspects2|].
  assert (Hop : forall c, opcode node <> kSmiConstant c).
  { intros c Hop. unfold GetInt32_constant in Hc32. rewrite Hop in Hc32. discriminate. }
  unfold GetUint8ClampedForToNumber, bind, get_node, get_state. rewrite Hn1, Hrep.
  destruct (opcode node) eqn:Hopcode; try (exfalso; eapply Hop; reflexivity);
    rewrite Hinfo, Halt; (split; [reflexivity|]); split; reflexivity.
Qed.

Lemma GetInt32_result_is_reused_witness :
  exists r s1 s2,
    GetInt32 example_environment 0 state_with_tagged_node = Some (r, s1) /\
    GetTruncatedInt32ForToNumber example_environment (fun _ => 7%nat) (fun d => d)
      (fun _ => true) 0 kAssumeNumberOrOddball s1 = Some (r, s2) /\
    nodes s2 = nodes s1.
Proof.
  destruct (GetInt32_result_is_reused example_environment (fun _ => 7%nat) (fun d => d)
              (fun _ => true) state_with_tagged_node 0%nat
              (mkNode (kOtherOpcode 0) [] kTagged) kAssumeNumberOrOddball)
    as (r & s1 & s2 & s3 & Hrun1 & Hrun2 & Hnodes & _); try reflexivity.
  exists r, s1, s2. repeat split; assumption.
Defined.

(** ** [BuildBranchIfRootConstant] *)

Lemma bypass_logical_nots_spec (other : nat -> bool) (node : BranchInput) :
  forall (jump_type : JumpType.t),
    exists node' jump_type',
      bypass_logical_nots node (is_kJumpIfTrue jump_type) jump_type =
        (node', is_kJumpIfTrue jump_type', jump_type') /\
      (forall value, node' <> LogicalNot value) /\
      Bool.eqb (boolean_value other node') (is_kJumpIfTrue jump_type') =
        Bool.eqb (boolean_value other node) (is_kJumpIfTrue jump_type).
Proof.
  induction node as [value IH | index | id]; intros jump_type.
  - destruct (IH (NegateJumpType jump_type)) as (node' & jump_type' & Hrun & Hnot & Hval).
    exists node', jump_type'. simpl.
    replace (negb (is_kJumpIfTrue jump_type))
      with (is_kJumpIfTrue (NegateJumpType jump_type)) by (destruct jump_type; reflexivity).
    split; [exact Hrun|]. split; [exact Hnot|]. rewrite Hval.
    destruct jump_type, (boolean_value other value); reflexivity.
  - exists (RootConstant index), jump_type. repeat split; discriminate.
  - exists (OtherInput id), jump_type. repeat split; discriminate.
Qed.

(** X29. [BuildBranchIfTrue] looks through any number of [LogicalNot]s:
    whatever it builds (a jump, a fall-through or a branch), control reaches
    the jump target exactly when the truth of the original value agrees with
    the jump type, and a branch it emits tests for the true value a node
    that is neither a [LogicalNot] nor a root constant. *)
Theorem BuildBranchIfTrue_jumps_iff_true (other : nat -> bool) (node_is_boolean : bool)
    (node : BranchInput) (jump_type : JumpType.t) :
  jumps other (BuildBranchIfTrue node_is_boolean node jump_type) =
    Bool.eqb (boolean_value other node) (is_kJumpIfTrue jump_type) /\
  (forall tested root_index flag,
     BuildBranchIfTrue node_is_boolean node jump_type =
       EmitBranchIfRootConstant tested root_index flag ->
     root_index = kTrueValue /\ exists id, tested = OtherInput id).
Proof.
  unfold BuildBranchIfTrue, BuildBranchIfRootConstant.
  rewrite (bool_decide_eq_true_2 (kTrueValue = kTrueValue)) by reflexivity. simpl.
  destruct (bypass_logical_nots_spec other node jump_type)
    as (node' & jump_type' & -> & Hnot & Hval).
  rewrite <- Hval.
  destruct node' as [value | index | id].
  - exfalso. exact (Hnot value eq_refl).
  - split.
    + simpl. destruct (bool_decide (index = kTrueValue)), (is_kJumpIfTrue jump_type');
        reflexivity.
    + intros tested root_index flag.
      destruct (Bool.eqb _ _); discriminate.
  - split; [reflexivity|]. intros tested root_index flag [= <- <- _].
    split; [reflexivity | exists id; reflexivity].
Qed.
